(** * yar: the layout engine of the roadmap visualisation

    A shallow embedding of [visualization.js]: the hierarchy normaliser
    ([transformData]) and the geometry passes of [initVisualization]
    (sizing, attribute inheritance, side inversion, leaf clustering,
    category aggregation, root centering, viewport fit).

    Numbers are JavaScript doubles in the program; here they are exact
    rationals ([Q], compared with [==]), so rounding, overflow to
    [Infinity] and [NaN] are outside the model.  The two places where the
    program can leave the finite numbers (a fold that starts at
    [±Infinity], a division by zero) are explicit: they return [None].
    So does the one place where the passes can throw: the grouping by
    category reads a plain object, and a category named like a property
    of [Object.prototype] makes it call [push] on what is no array.

    The d3 nodes are shared mutable objects: the same node is reachable
    from [root.descendants()], from its parent's [children] array and from
    the per-category arrays.  They are modelled as a store, the list
    [root.descendants()], and every reference to a node is its index in
    that list.  [d3.hierarchy] and [d3.tree] are library code: the store
    is taken as they leave it, with any coordinates for the tree layout. *)

From Stdlib Require Import Ascii String QArith Qminmax Qpower Lqa.
From stdpp Require Import base list strings.

Open Scope Q_scope.
#[local] Set Warnings "-register-all".

(** ** JavaScript truthiness of optional string fields *)

Module Js.

(** A field that holds a string or is absent ([undefined] / [null]).
    The empty string is falsy, like an absent field. *)
Definition truthy (v : option string) : bool :=
  match v with
  | Some s => negb (String.eqb s "")
  | None => false
  end.

(** [a || b] *)
Definition or (a b : option string) : option string :=
  if truthy a then a else b.

(** [a || null] *)
Definition orNull (a : option string) : option string := or a None.

End Js.

(** ** Hierarchy normaliser: [transformData] *)

Module Normalizer.
Import Js.

(** The loosely typed input record.  [RawNull] stands for [null],
    [undefined] and anything else on which [!item] holds; [rawItems] is
    [None] when [items] is absent or not an array. *)
Inductive RawItem : Type :=
| RawNull
| RawObj (rawName rawStatus rawLink rawLinks rawCategory rawSide
          rawVisibility : option string)
         (rawItems : option (list RawItem)).

(** The root handed to [transformData]: an array or a single value. *)
Inductive RawData : Type :=
| DataArray (elems : list RawItem)
| DataObject (item : RawItem).

(** The object literal built by [createHierarchy].  [children] is [None]
    once [delete node.children] has run. *)
Inductive Node : Type := mkNode {
  name : string;
  status : option string;
  link : option string;
  category : option string;
  side : option string;
  visibility : option string;
  children : option (list Node)
}.

Definition itemName (item : RawItem) : option string :=
  match item with
  | RawNull => None
  | RawObj nm _ _ _ _ _ _ _ => nm
  end.

(** [createHierarchy], with the [console.warn] calls collected in call
    order: the result is the list of skipped items and the node or
    [None] for [null]. *)
Fixpoint createHierarchy (item : RawItem) : list RawItem * option Node :=
  match item with
  | RawNull => ([item], None)
  | RawObj nm st ln lns cat sd vis its =>
    match (if truthy nm then nm else None) with
    | None => ([item], None)
    | Some n =>
      let '(warned, kids) :=
        match its with
        | Some l =>
          (fix mapFilter (l : list RawItem) : list RawItem * list Node :=
             match l with
             | [] => ([], [])
             | child :: rest =>
               let '(w1, o) := createHierarchy child in
               let '(w2, ks) := mapFilter rest in
               (w1 ++ w2, match o with Some k => k :: ks | None => ks end)
             end) l
        | None => ([], [])
        end in
      (warned,
       Some {| name := n;
               status := orNull st;
               link := orNull (or lns ln);
               category := orNull cat;
               side := orNull sd;
               visibility := orNull vis;
               children := match kids with [] => None | _ => Some kids end |})
    end
  end.

(** [items.map(createHierarchy).filter(c => c !== null)] *)
Fixpoint mapFilter (l : list RawItem) : list RawItem * list Node :=
  match l with
  | [] => ([], [])
  | child :: rest =>
    let '(w1, o) := createHierarchy child in
    let '(w2, ks) := mapFilter rest in
    (w1 ++ w2, match o with Some k => k :: ks | None => ks end)
  end.

Definition syntheticRoot (kids : list Node) : Node :=
  {| name := "Root"; status := None; link := None; category := None;
     side := None; visibility := None; children := Some kids |}.

Definition transformData (data : RawData) : list RawItem * option Node :=
  match data with
  | DataArray [item] => createHierarchy item
  | DataArray elems =>
    let '(w, kids) := mapFilter elems in (w, Some (syntheticRoot kids))
  | DataObject item => createHierarchy item
  end.

(** The first steps of [initVisualization]: [d3.hierarchy(hierarchyData)]
    reads [hierarchyData.children], so a [null] tree makes the render
    throw before anything is laid out. *)
Inductive RenderError : Type := EmptyTree.

Definition renderTree (data : RawData) : RenderError + Node :=
  match snd (transformData data) with
  | None => inl EmptyTree
  | Some t => inr t
  end.

(** The two inputs named by the specification. *)
Definition namelessChild : RawItem :=
  RawObj None (Some "x") None None None None None None.

Definition rootWithNamelessChild : RawItem :=
  RawObj (Some "root") None None None None None None
         (Some [namelessChild]).

Definition leafNamed (n : string) : Node :=
  {| name := n; status := None; link := None; category := None;
     side := None; visibility := None; children := None |}.

End Normalizer.

(** ** Text wrapper: [wrapText] *)

Module Text.

Definition TEXT_FONT_SIZE : Q := 60.
Definition TEXT_LINE_HEIGHT : Q := 70.

(** The characters matched by [\s] among the ASCII ones: space, tab, line
    feed, vertical tab, form feed and carriage return. *)
Definition isSpace (c : ascii) : bool :=
  let n := nat_of_ascii c in
  (n =? 32)%nat || ((9 <=? n)%nat && (n <=? 13)%nat).

(** [text.split(/\s+/)]: the pieces between maximal runs of white space;
    a leading or trailing run gives an empty first or last piece.  [cur]
    is the piece being read, [inWs] tells that the last character was
    white space. *)
Fixpoint splitWs (s : string) (cur : string) (inWs : bool) : list string :=
  match s with
  | EmptyString => [cur]
  | String c rest =>
    if isSpace c then
      if inWs then splitWs rest cur true
      else cur :: splitWs rest EmptyString true
    else splitWs rest (cur +:+ String c EmptyString) false
  end.

Definition split (text : string) : list string := splitWs text EmptyString false.

(** [s.length] as a number. *)
Definition len (s : string) : Q := inject_Z (Z.of_nat (String.length s)).

(** The [for] loop of [wrapText] over [words[1..]], with the local
    variables [lines] and [currentLine], followed by the final push. *)
Fixpoint wrapLoop (maxWidth : Q) (words : list string)
    (lines : list string) (currentLine : string) : list string :=
  match words with
  | [] => lines ++ [currentLine]
  | w :: rest =>
    let testLine := currentLine +:+ " " +:+ w in
    let testLength := len testLine * TEXT_FONT_SIZE / 2 in
    if negb (Qle_bool testLength maxWidth)
       && (0 <? String.length currentLine)%nat
    then wrapLoop maxWidth rest (lines ++ [currentLine]) w
    else wrapLoop maxWidth rest lines testLine
  end.

(** [split] never returns the empty array, so [words[0]] is a string. *)
Definition wrapText (text : string) (maxWidth : Q) : list string :=
  match split text with
  | [] => [EmptyString]
  | w0 :: ws => wrapLoop maxWidth ws [] w0
  end.

End Text.

(** ** Object literals used as maps *)

Module JsObject.

(** The property names every object literal inherits from
    [Object.prototype]. *)
Definition objectPrototypeKeys : list string :=
  [ "constructor"; "hasOwnProperty"; "isPrototypeOf";
    "propertyIsEnumerable"; "toLocaleString"; "toString"; "valueOf";
    "__proto__"; "__defineGetter__"; "__defineSetter__";
    "__lookupGetter__"; "__lookupSetter__" ].

(** Reading [key] from an object literal that has no own property of
    that name finds a property of the prototype: a function, or for
    ["__proto__"] the prototype itself, all truthy and none an array. *)
Definition inherited (key : string) : bool :=
  bool_decide (key ∈ objectPrototypeKeys).

Definition digit (c : ascii) : option N :=
  let n := N_of_ascii c in
  if ((48 <=? n) && (n <=? 57))%N then Some (n - 48)%N else None.

(** The value of a string of decimal digits. *)
Fixpoint digits (s : string) (acc : N) : option N :=
  match s with
  | EmptyString => Some acc
  | String c rest =>
    match digit c with
    | Some d => digits rest (10 * acc + d)%N
    | None => None
    end
  end.

(** An array index: the decimal numeral, without leading zero, of an
    integer below 2^32 - 1. *)
Definition arrayIndex (key : string) : option N :=
  match key with
  | EmptyString => None
  | String c rest =>
    if Ascii.eqb c "0" && negb (String.eqb rest "") then None
    else
      match digits key 0 with
      | Some n => if (n <? 4294967295)%N then Some n else None
      | None => None
      end
  end.

Definition isIndex (key : string) : bool :=
  match arrayIndex key with Some _ => true | None => false end.

(** The own properties of an object, in the order of their creation. *)
Abbreviation Obj A := (list (string * A)).

Fixpoint insertIndex {A : Type} (n : N) (e : string * A)
    (sorted : list (N * (string * A))) : list (N * (string * A)) :=
  match sorted with
  | [] => [(n, e)]
  | (m, e') :: rest =>
    if (n <? m)%N then (n, e) :: (m, e') :: rest
    else (m, e') :: insertIndex n e rest
  end.

(** The properties whose names are array indices, by ascending index. *)
Definition indexed {A : Type} (o : Obj A) : list (N * (string * A)) :=
  foldr (λ e acc,
           match arrayIndex e.1 with
           | Some n => insertIndex n e acc
           | None => acc
           end) [] o.

(** [Object.entries(o)], and with it the order of [Object.keys(o)]: the
    properties named by array indices first, by ascending index, then
    the others in the order of their creation. *)
Definition entries {A : Type} (o : Obj A) : Obj A :=
  map snd (indexed o) ++ filter (λ e, isIndex e.1 = false) o.

End JsObject.

(** ** The node store and the passes of [initVisualization] *)

Module Layout.
Import Js JsObject.

Definition NODE_SIZE : Q := 200.
Definition LEAF_HEIGHT : Q := 100.
Definition LEAF_WIDTH : Q := 400.

(** The entries of [settings] that the geometry reads. *)
Record Settings : Type := mkSettings {
  nodeSpacingVertical : Q;
  nodeSpacingHorizontal : Q;
  nodeScale : Q;
  textScale : Q
}.

Definition defaultConfig : Settings :=
  {| nodeSpacingVertical := 200; nodeSpacingHorizontal := 1000;
     nodeScale := 1.2; textScale := 1.3 |}.

(** What [getNodeSide] returns: ["left"] or ["right"]. *)
Inductive Side : Type := Left | Right.

Definition Side_eqb (a b : Side) : bool :=
  match a, b with
  | Left, Left | Right, Right => true
  | _, _ => false
  end.

(** A d3 hierarchy node with the fields the program adds to it.
    [parent] and [children] are indices into the store; d3 leaves
    [children] undefined on a leaf and never stores an empty array, so
    [children = []] stands for the absent field.  [x] and [y] hold what
    [treeLayout(root)] wrote; a field the program has not written yet
    holds an arbitrary value. *)
Record LNode : Type := mkLNode {
  data : Normalizer.Node;
  depth : nat;
  parent : option nat;
  children : list nat;
  x : Q;
  y : Q;
  originalX : Q;
  nodeWidth : Q;
  nodeHeight : Q;
  depthScale : Q;
  inheritedCategory : option string;
  inheritedSide : option string;
  inheritedVisibility : option string
}.

(** [root.descendants()]: the root is at index 0. *)
Abbreviation Store := (list LNode).

Definition setXY (vx vy : Q) (d : LNode) : LNode :=
  {| data := data d; depth := depth d; parent := parent d;
     children := children d; x := vx; y := vy; originalX := originalX d;
     nodeWidth := nodeWidth d; nodeHeight := nodeHeight d;
     depthScale := depthScale d; inheritedCategory := inheritedCategory d;
     inheritedSide := inheritedSide d;
     inheritedVisibility := inheritedVisibility d |}.

Definition setOriginalX (v : Q) (d : LNode) : LNode :=
  {| data := data d; depth := depth d; parent := parent d;
     children := children d; x := x d; y := y d; originalX := v;
     nodeWidth := nodeWidth d; nodeHeight := nodeHeight d;
     depthScale := depthScale d; inheritedCategory := inheritedCategory d;
     inheritedSide := inheritedSide d;
     inheritedVisibility := inheritedVisibility d |}.

Definition setSize (w h scale : Q) (d : LNode) : LNode :=
  {| data := data d; depth := depth d; parent := parent d;
     children := children d; x := x d; y := y d; originalX := originalX d;
     nodeWidth := w; nodeHeight := h; depthScale := scale;
     inheritedCategory := inheritedCategory d;
     inheritedSide := inheritedSide d;
     inheritedVisibility := inheritedVisibility d |}.

Definition setInherited (c sd v : option string) (d : LNode) : LNode :=
  {| data := data d; depth := depth d; parent := parent d;
     children := children d; x := x d; y := y d; originalX := originalX d;
     nodeWidth := nodeWidth d; nodeHeight := nodeHeight d;
     depthScale := depthScale d; inheritedCategory := c;
     inheritedSide := sd; inheritedVisibility := v |}.

(** [!d.children] *)
Definition isLeaf (d : LNode) : bool :=
  match children d with [] => true | _ => false end.

Definition ofNat (n : nat) : Q := inject_Z (Z.of_nat n).

(** *** Sizing pass *)

(** [Math.pow(0.85, d.depth)] *)
Definition depthScaleOf (d : LNode) : Q := 0.85 ^ Z.of_nat (depth d).

Definition sizeNode (settings : Settings) (d : LNode) : LNode :=
  let depthScale := depthScaleOf d in
  if isLeaf d then
    let nodeWidth := LEAF_WIDTH * nodeScale settings * depthScale in
    let lineHeight := Text.TEXT_LINE_HEIGHT * textScale settings * depthScale in
    let padding := 20 * depthScale in
    let maxTextWidth := nodeWidth - padding * 2 in
    let lines := Text.wrapText (Normalizer.name (data d)) maxTextWidth in
    let numLines := ofNat (length lines) in
    let minHeight := LEAF_HEIGHT * nodeScale settings * depthScale in
    let textHeight := numLines * lineHeight + padding * 2 in
    setSize nodeWidth (Qmax minHeight textHeight) depthScale d
  else
    let radius := NODE_SIZE * nodeScale settings * depthScale in
    setSize (radius * 2) (radius * 2) depthScale d.

Definition sizingPass (settings : Settings) (s : Store) : Store :=
  map (sizeNode settings) s.

(** *** Attribute inheritance *)

(** The loop [while (ancestor && !ancestor.data.f) ancestor =
    ancestor.parent] followed by the read of [ancestor.data.f]: the
    value found, or [None] when the walk leaves the tree.  [fuel] bounds
    the number of parent links followed. *)
Fixpoint walkUp (field : Normalizer.Node → option string) (s : Store)
    (fuel : nat) (ancestor : option nat) : option string :=
  match fuel with
  | O => None
  | S fuel' =>
    match ancestor with
    | None => None
    | Some a =>
      match s !! a with
      | None => None
      | Some n =>
        if truthy (field (data n)) then field (data n)
        else walkUp field s fuel' (parent n)
      end
    end
  end.

(** One of the three blocks of the resolver; [current] is the value the
    inherited field holds before the block runs, kept when the block
    assigns nothing. *)
Definition inherit (field : Normalizer.Node → option string) (s : Store)
    (d : LNode) (current : option string) : option string :=
  if negb (truthy (field (data d))) && bool_decide (is_Some (parent d)) then
    match walkUp field s (length s) (parent d) with
    | Some v => Some v
    | None => current
    end
  else if truthy (field (data d)) then field (data d)
  else current.

Definition resolveNode (s : Store) (d : LNode) : LNode :=
  setInherited
    (inherit Normalizer.category s d (inheritedCategory d))
    (inherit Normalizer.side s d (inheritedSide d))
    (inherit Normalizer.visibility s d (inheritedVisibility d))
    d.

Definition inheritancePass (s : Store) : Store := map (resolveNode s) s.

Definition getNodeSide (node : LNode) : Side :=
  match or (inheritedSide node) (Normalizer.side (data node)) with
  | Some sd => if String.eqb sd "left" then Left else Right
  | None => Right
  end.

(** *** Axis swap, captured distance from the root, side inversion *)

Definition swapAxes (s : Store) : Store :=
  map (λ d, setXY (y d) (x d) d) s.

Definition storeOriginalX (s : Store) : Store :=
  map (λ d, setOriginalX (x d) d) s.

Definition invertNode (d : LNode) : LNode :=
  match getNodeSide d with
  | Left => setXY (- originalX d) (y d) d
  | Right => d
  end.

Definition inversionPass (s : Store) : Store := map invertNode s.

(** *** Leaf clustering *)

Definition leafAt (s : Store) (c : nat) : bool :=
  match s !! c with
  | Some ch => isLeaf ch
  | None => false
  end.

(** [d.children.every((child) => !child.children)] *)
Definition allChildrenAreLeaves (s : Store) (d : LNode) : bool :=
  forallb (leafAt s) (children d).

Definition direction (d : LNode) : Q :=
  match getNodeSide d with Left => -1 | Right => 1 end.

Definition leafHorizontalOffset (settings : Settings) : Q :=
  nodeSpacingHorizontal settings * 0.5.

(** The position the two-column branch gives to the child at [index]
    among the [numChildren] children of [d]. *)
Definition gridPosition (settings : Settings) (d : LNode)
    (numChildren index : nat) : Q * Q :=
  let columnSpacing := nodeSpacingHorizontal settings * 0.3 in
  let rowSpacing := nodeSpacingVertical settings * 1.2 in
  let column := (index mod 2)%nat in
  let row := (index / 2)%nat in
  let totalRows := ((numChildren + 1) / 2)%nat in
  let totalHeight := (ofNat totalRows - 1) * rowSpacing in
  let startY := y d - totalHeight / 2 in
  (x d + leafHorizontalOffset settings * direction d
   + (if (column =? 0)%nat then - columnSpacing / 2 else columnSpacing / 2),
   startY + ofNat row * rowSpacing).

Definition placeInGrid (settings : Settings) (d : LNode) (numChildren : nat)
    (st : Store) (ic : nat * nat) : Store :=
  alter (setXY (gridPosition settings d numChildren ic.1).1
               (gridPosition settings d numChildren ic.1).2) ic.2 st.

Definition placeInColumn (settings : Settings) (d : LNode)
    (st : Store) (child : nat) : Store :=
  alter (λ ch, setXY (x d + leafHorizontalOffset settings * direction d)
                     (y ch) ch) child st.

(** The callback of the clustering [forEach], run on the node [d] read
    from the store [s].  A node is not among its own children, so [d.x]
    and [d.y] keep the values read here while the children move. *)
Definition clusterNode (settings : Settings) (s : Store) (d : LNode) : Store :=
  if negb (isLeaf d) then
    if allChildrenAreLeaves s d then
      let numChildren := length (children d) in
      if (2 <? numChildren)%nat then
        fold_left (placeInGrid settings d numChildren)
                  (imap pair (children d)) s
      else
        fold_left (placeInColumn settings d) (children d) s
    else s
  else s.

Definition clusterStep (settings : Settings) (st : Store) (i : nat) : Store :=
  match st !! i with
  | Some d => clusterNode settings st d
  | None => st
  end.

Definition clusterPass (settings : Settings) (s : Store) : Store :=
  fold_left (clusterStep settings) (seq 0 (length s)) s.

(** The passes up to and including side inversion, then clustering. *)
Definition invertedLayout (s : Store) : Store :=
  inversionPass (storeOriginalX (swapAxes s)).

Definition clusteredLayout (settings : Settings) (s : Store) : Store :=
  clusterPass settings (invertedLayout s).

(** *** Category aggregation *)

Record Bounds : Type := mkBounds {
  rectX : Q;
  rectY : Q;
  rectWidth : Q;
  rectHeight : Q
}.

(** [Math.min(acc, v)] and [Math.max(acc, v)] on an accumulator that
    starts at [Infinity], resp. [-Infinity]: [None] is that start value. *)
Definition jsMin (acc : option Q) (v : Q) : option Q :=
  Some (match acc with Some m => Qmin m v | None => v end).

Definition jsMax (acc : option Q) (v : Q) : option Q :=
  Some (match acc with Some m => Qmax m v | None => v end).

Record Extremes : Type := mkExtremes {
  minX : option Q;
  maxX : option Q;
  minY : option Q;
  maxY : option Q
}.

Definition extend (e : Extremes) (d : LNode) : Extremes :=
  let halfWidth := nodeWidth d / 2 in
  let halfHeight := nodeHeight d / 2 in
  {| minX := jsMin (minX e) (x d - halfWidth);
     maxX := jsMax (maxX e) (x d + halfWidth);
     minY := jsMin (minY e) (y d - halfHeight);
     maxY := jsMax (maxY e) (y d + halfHeight) |}.

(** [None] when an extreme is still infinite, that is for an empty
    array of nodes. *)
Definition calculateCategoryBounds (categoryNodes : list LNode)
    (padding : Q) : option Bounds :=
  let e := fold_left extend categoryNodes (mkExtremes None None None None) in
  match minX e, maxX e, minY e, maxY e with
  | Some minX, Some maxX, Some minY, Some maxY =>
    Some {| rectX := minX - padding;
            rectY := minY - padding;
            rectWidth := maxX - minX + 2 * padding;
            rectHeight := maxY - minY + 2 * padding |}
  | _, _, _, _ => None
  end.

Definition categoryPadding : Q := 150.
Definition categorySpacing : Q := 300.

(** The nodes an array of references points to, read from the store. *)
Definition nodesAt (s : Store) (refs : list nat) : option (list LNode) :=
  mapM (s !!.) refs.

(** The own properties of [categoryGroups] after
    [categoryGroups[category] = []], when the key is new, and
    [categoryGroups[category].push(d)]. *)
Fixpoint pushGroup (category : string) (i : nat)
    (groups : Obj (list nat)) : Obj (list nat) :=
  match groups with
  | [] => [(category, [i])]
  | (k, members) :: rest =>
    if String.eqb k category then (k, members ++ [i]) :: rest
    else (k, members) :: pushGroup category i rest
  end.

(** The callback of the grouping [forEach].  [categoryGroups] is a
    plain object: for a category named like a property of
    [Object.prototype] the read [categoryGroups[category]] is truthy
    although no group was created, no array is stored, and the call of
    [push] on what was read throws a [TypeError].  [None] is that
    exception. *)
Definition groupStep (groups : Obj (list nat)) (id : nat * LNode)
    : option (Obj (list nat)) :=
  match inheritedCategory id.2 with
  | Some category =>
    if truthy (Some category) then
      if inherited category then None
      else Some (pushGroup category id.1 groups)
    else Some groups
  | None => Some groups
  end.

Definition categoryGroups (s : Store) : option (Obj (list nat)) :=
  fold_left (λ acc id, groups ← acc; groupStep groups id)
            (imap pair s) (Some []).

Record CatData : Type := mkCatData {
  catName : string;
  avgY : Q;
  catNodes : list nat;
  catSide : Side
}.

Definition sumY (ns : list LNode) : Q :=
  fold_left (λ sum node, sum + y node) ns 0.

(** One element of [categoryData]; [None] if the group is empty or
    holds a dangling reference, where the program would throw. *)
Definition mkCategory (s : Store) (g : string * list nat) : option CatData :=
  ns ← nodesAt s g.2;
  first ← head ns;
  Some {| catName := g.1;
          avgY := sumY ns / ofNat (length ns);
          catNodes := g.2;
          catSide := getNodeSide first |}.

(** [Object.keys(categoryGroups).map(...)]; [None] if the grouping
    threw. *)
Definition categoryData (s : Store) : option (list CatData) :=
  groups ← categoryGroups s;
  mapM (mkCategory s) (entries groups).

(** [cats.sort((a, b) => a.avgY - b.avgY)]: ascending and stable. *)
Fixpoint insertByAvgY (c : CatData) (sorted : list CatData) : list CatData :=
  match sorted with
  | [] => [c]
  | h :: t =>
    if Qle_bool (avgY c) (avgY h) then c :: h :: t
    else h :: insertByAvgY c t
  end.

Definition sortByAvgY (cats : list CatData) : list CatData :=
  foldr insertByAvgY [] cats.

Definition onSide (sd : Side) (cats : list CatData) : list CatData :=
  filter (λ cat, Side_eqb (catSide cat) sd = true) cats.

(** [categoryBounds]: an object used as a map from category name to
    rectangle, its own properties in the order of their creation.  The
    program enumerates it to take the least and the greatest edge and
    to move every rectangle, which do not depend on the order, and to
    draw the rectangles. *)
Abbreviation BoundsMap := (list (string * Bounds)).

Fixpoint lookupBounds (k : string) (m : BoundsMap) : option Bounds :=
  match m with
  | [] => None
  | (k', b) :: rest => if String.eqb k' k then Some b else lookupBounds k rest
  end.

Fixpoint storeBounds (k : string) (b : Bounds) (m : BoundsMap) : BoundsMap :=
  match m with
  | [] => [(k, b)]
  | (k', b') :: rest =>
    if String.eqb k' k then (k', b) :: rest
    else (k', b') :: storeBounds k b rest
  end.

Definition shiftY (offset : Q) (d : LNode) : LNode :=
  setXY (x d) (y d + offset) d.

(** [catData.nodes.forEach((node) => { node.y += offset })] *)
Definition shiftNodes (offset : Q) (refs : list nat) (s : Store) : Store :=
  fold_left (λ st i, alter (shiftY offset) i st) refs s.

(** The state the sweep of one side threads through its [forEach]. *)
Record Sweep : Type := mkSweep {
  nodes : Store;
  cumulativeOffset : Q;
  categoryBounds : BoundsMap
}.

(** The offset after the [if (index > 0)] block. *)
Definition grownOffset (cats : list CatData) (st : Sweep) (index : nat)
    (bounds : Bounds) : option Q :=
  if (0 <? index)%nat then
    prev ← cats !! (index - 1)%nat;
    prevBounds ← lookupBounds (catName prev) (categoryBounds st);
    let prevBottom := rectY prevBounds + rectHeight prevBounds in
    let currentTop := rectY bounds + cumulativeOffset st in
    if negb (Qle_bool (prevBottom + categorySpacing) currentTop) then
      let additionalOffset := prevBottom + categorySpacing - currentTop in
      Some (cumulativeOffset st + additionalOffset)
    else Some (cumulativeOffset st)
  else Some (cumulativeOffset st).

(** The callback of the sweep for the category at [index] of [cats]. *)
Definition sweepStep (cats : list CatData) (st : Sweep) (index : nat)
    (catData : CatData) : option Sweep :=
  ns ← nodesAt (nodes st) (catNodes catData);
  bounds ← calculateCategoryBounds ns categoryPadding;
  offset ← grownOffset cats st index bounds;
  if negb (Qeq_bool offset 0) then
    let shifted := shiftNodes offset (catNodes catData) (nodes st) in
    ns' ← nodesAt shifted (catNodes catData);
    bounds' ← calculateCategoryBounds ns' categoryPadding;
    Some {| nodes := shifted; cumulativeOffset := offset;
            categoryBounds :=
              storeBounds (catName catData) bounds' (categoryBounds st) |}
  else
    Some {| nodes := nodes st; cumulativeOffset := offset;
            categoryBounds :=
              storeBounds (catName catData) bounds (categoryBounds st) |}.

Fixpoint sweepFrom (cats : list CatData) (index : nat)
    (todo : list CatData) (st : Sweep) : option Sweep :=
  match todo with
  | [] => Some st
  | catData :: rest =>
    st' ← sweepStep cats st index catData;
    sweepFrom cats (S index) rest st'
  end.

(** The sweep of one side; the program has this block twice, once for
    [leftCategories] and once for [rightCategories]. *)
Definition processSide (cats : list CatData) (s : Store) (cb : BoundsMap)
    : option (Store * BoundsMap) :=
  st ← sweepFrom cats 0 cats (mkSweep s 0 cb);
  Some (nodes st, categoryBounds st).

Definition leftCategories (cd : list CatData) : list CatData :=
  sortByAvgY (onSide Left cd).

Definition rightCategories (cd : list CatData) : list CatData :=
  sortByAvgY (onSide Right cd).

Definition aggregate (s : Store) : option (Store * BoundsMap) :=
  cd ← categoryData s;
  l ← processSide (leftCategories cd) s [];
  processSide (rightCategories cd) l.1 l.2.

(** *** Root centering *)

(** [Math.min(...vs)] and [Math.max(...vs)]; [None] on the empty list. *)
Definition minOf (vs : list Q) : option Q := fold_left jsMin vs None.
Definition maxOf (vs : list Q) : option Q := fold_left jsMax vs None.

Definition shiftRectY (offset : Q) (b : Bounds) : Bounds :=
  {| rectX := rectX b; rectY := rectY b + offset;
     rectWidth := rectWidth b; rectHeight := rectHeight b |}.

(** The midpoint of the vertical union of the rectangles. *)
Definition categoriesVerticalCenter (cb : BoundsMap) : option Q :=
  minCategoryY ← minOf (map (λ kb, rectY kb.2) cb);
  maxCategoryY ← maxOf (map (λ kb, rectY kb.2 + rectHeight kb.2) cb);
  Some ((minCategoryY + maxCategoryY) / 2).

Definition rootCentering (sc : Store * BoundsMap) : Store * BoundsMap :=
  if (0 <? length sc.2)%nat then
    match sc.1 !! 0%nat, categoriesVerticalCenter sc.2 with
    | Some root, Some center =>
      let rootYOffset := center - y root in
      (map (shiftY rootYOffset) sc.1,
       map (λ kb, (kb.1, shiftRectY rootYOffset kb.2)) sc.2)
    | _, _ => sc
    end
  else sc.

(** *** Viewport fit *)

(** A division of the program; [None] stands for the infinite or
    undefined result of a division by zero. *)
Definition jsDiv (a b : Q) : option Q :=
  if Qeq_bool b 0 then None else Some (a / b).

(** [d3.extent(nodes, f)]: the least and the greatest value, [None] on
    an empty array. *)
Definition extent (f : LNode → Q) (ns : Store) : option (Q * Q) :=
  lo ← minOf (map f ns);
  hi ← maxOf (map f ns);
  Some (lo, hi).

Definition viewportPadding : Q := 100.

Definition treeExtent (f : LNode → Q) (ns : Store) : option Q :=
  e ← extent f ns;
  Some (e.2 - e.1 + viewportPadding * 2).

Definition viewportScale (width height : Q) (ns : Store) : option Q :=
  treeWidth ← treeExtent x ns;
  treeHeight ← treeExtent y ns;
  fitX ← jsDiv width treeWidth;
  fitY ← jsDiv height treeHeight;
  Some (Qmin 1 (Qmin fitX fitY * 0.9)).

(** The translation [(xOffset, yOffset)] that follows the scale. *)
Definition viewportOffsets (width height : Q) (ns : Store) : option (Q * Q) :=
  scale ← viewportScale width height ns;
  xExtent ← extent x ns;
  yExtent ← extent y ns;
  w ← jsDiv width scale;
  h ← jsDiv height scale;
  Some ((w - (xExtent.2 - xExtent.1)) / 2 - xExtent.1,
        (h - (yExtent.2 - yExtent.1)) / 2 - yExtent.1).

(** *** The passes in program order *)

(** From the store that holds the tree layout's coordinates to the
    store and rectangles handed to the viewport fit. *)
Definition layoutPipeline (settings : Settings) (s : Store)
    : option (Store * BoundsMap) :=
  rootCentering <$>
    aggregate (clusteredLayout settings (inheritancePass (sizingPass settings s))).

End Layout.

(** ** Notions used to state the properties *)

Module Spec.
Import Js Layout.

(** The reading of C8 that the program does not satisfy: whenever the
    item carries a [link], the node's link is that value. *)
Definition link_wins : Prop :=
  ∀ nm st ln lns cat sd vis its node,
    truthy nm = true → truthy ln = true →
    snd (Normalizer.createHierarchy
           (Normalizer.RawObj nm st ln lns cat sd vis its)) = Some node →
    Normalizer.link node = ln.

(** The reading of C5 that the program does not satisfy: a node never is
    taller than a node of smaller depth. *)
Definition height_decays_with_depth : Prop :=
  ∀ cfg s i j di dj,
    0 < nodeScale cfg → 0 < textScale cfg →
    sizingPass cfg s !! i = Some di → sizingPass cfg s !! j = Some dj →
    (depth di ≤ depth dj)%nat →
    nodeHeight dj <= nodeHeight di.

(** [root.descendants()] lists a node after its parent. *)
Definition parentsFirst (s : Store) : Prop :=
  ∀ i d p, s !! i = Some d → parent d = Some p → (p < i)%nat.

(** [nearestExplicit field s a v]: walking the parent links upward from
    [a] (included), the first node that carries [field] carries the
    value [v]. *)
Inductive nearestExplicit (field : Normalizer.Node → option string)
    (s : Store) : option nat → string → Prop :=
| nearest_here a n v :
    s !! a = Some n → truthy (field (data n)) = true →
    field (data n) = Some v → nearestExplicit field s (Some a) v
| nearest_above a n v :
    s !! a = Some n → truthy (field (data n)) = false →
    nearestExplicit field s (parent n) v →
    nearestExplicit field s (Some a) v.

(** The inherited value the specification asks for: the node's own
    value, else the nearest ancestor's, else undefined. *)
Definition inheritsAs (field : Normalizer.Node → option string) (s : Store)
    (d : LNode) (r : option string) : Prop :=
  if truthy (field (data d)) then r = field (data d)
  else (∃ v, nearestExplicit field s (parent d) v ∧ r = Some v)
       ∨ ((∀ v, ¬ nearestExplicit field s (parent d) v) ∧ r = None).

(** Two stores that hold the same tree with the same tree-layout
    coordinates; the sides of their nodes may differ. *)
Definition sameLayout (s1 s2 : Store) : Prop :=
  Forall2 (λ a b, x a = x b ∧ y a = y b ∧ children a = children b) s1 s2.

(** No parent whose children are all leaves lists the node [i]: the
    clustering pass has no reason to move it. *)
Definition notClustered (s : Store) (i : nat) : Prop :=
  ∀ j d, s !! j = Some d → i ∈ children d → allChildrenAreLeaves s d = false.

(** The node [j] is the only one that lists [i] among its children. *)
Definition onlyParent (s : Store) (j i : nat) : Prop :=
  ∀ k d, s !! k = Some d → i ∈ children d → k = j.

(** The reading of C4 that the program does not satisfy: for every node,
    the final depth-axis coordinate under effective side left is the
    negation of the one under effective side right. *)
Definition final_x_mirrored : Prop :=
  ∀ settings sL sR i dL dR nL nR,
    sameLayout sL sR →
    sL !! i = Some dL → sR !! i = Some dR →
    getNodeSide dL = Left → getNodeSide dR = Right →
    clusteredLayout settings sL !! i = Some nL →
    clusteredLayout settings sR !! i = Some nR →
    x nL == - x nR.

(** The rectangles of a bucket, taken in sweep order, are stacked
    downwards: each one starts at least [gap] below the bottom edge of
    every earlier one. *)
Definition separated (gap : Q) (cb : BoundsMap) (bucket : list CatData) : Prop :=
  ∀ i j a b, (i < j)%nat → bucket !! i = Some a → bucket !! j = Some b →
    ∃ ra rb, lookupBounds (catName a) cb = Some ra
             ∧ lookupBounds (catName b) cb = Some rb
             ∧ rectY ra + rectHeight ra + gap <= rectY rb.

(** The store the category aggregation runs on. *)
Definition laidOut (settings : Settings) (s : Store) : Store :=
  clusteredLayout settings (inheritancePass (sizingPass settings s)).

(** The [children] arrays of a store; no pass writes them. *)
Definition shape (s : Store) : list (list nat) := map children s.

(** A loop that alters one node per element: the node [idx a] gets
    [f a] applied, for each [a] of [l] in turn. *)
Definition alterAll {A : Type} (f : A → LNode → LNode) (idx : A → nat)
    (l : list A) (st : Store) : Store :=
  fold_left (λ st a, alter (f a) (idx a) st) l st.

(** The single-column branch applied to the child [ch] of [d]. *)
Definition toColumn (cfg : Settings) (d : LNode) (ch : LNode) : LNode :=
  setXY (x d + leafHorizontalOffset cfg * direction d) (y ch) ch.

(** What the swap, the capture of [originalX] and the inversion make
    of a node of the tree layout. *)
Definition inverted (d : LNode) : LNode :=
  invertNode (setOriginalX (y d) (setXY (y d) (x d) d)).

(** The four edges of the footprints of a list of nodes. *)
Definition lefts (ns : list LNode) : list Q :=
  map (λ d, x d - nodeWidth d / 2) ns.
Definition rights (ns : list LNode) : list Q :=
  map (λ d, x d + nodeWidth d / 2) ns.
Definition tops (ns : list LNode) : list Q :=
  map (λ d, y d - nodeHeight d / 2) ns.
Definition bottoms (ns : list LNode) : list Q :=
  map (λ d, y d + nodeHeight d / 2) ns.

(** The references of a category: at least one, no node twice, all
    inside a store of [n] nodes. *)
Definition goodRefs (n : nat) (refs : list nat) : Prop :=
  refs ≠ [] ∧ NoDup refs ∧ Forall (λ i, (i < n)%nat) refs.

Definition goodGroups (n : nat) (groups : list (string * list nat)) : Prop :=
  NoDup (map fst groups) ∧ Forall (λ g, goodRefs n g.2) groups.

(** Rectangles listed from top to bottom with the spacing between
    consecutive ones and between any two. *)
Definition stacked (rs : list Bounds) : Prop :=
  ∀ i j ri rj, (i < j)%nat → rs !! i = Some ri → rs !! j = Some rj →
    rectY ri + rectHeight ri + categorySpacing <= rectY rj.

(** What holds after the first [k] categories of [cats] are swept, the
    rectangle of the [i]-th being [rs !! i]. *)
Record SweepInv (n : nat) (cats : list CatData) (cb0 : BoundsMap)
    (k : nat) (st : Sweep) (rs : list Bounds) : Prop := mkSweepInv {
  inv_length : length (nodes st) = n;
  inv_heights : Forall (λ d, 0 <= nodeHeight d) (nodes st);
  inv_count : length rs = k;
  inv_rects : ∀ i a r, cats !! i = Some a → rs !! i = Some r →
                lookupBounds (catName a) (categoryBounds st) = Some r;
  inv_stacked : stacked rs;
  inv_tall : Forall (λ r, 0 <= rectHeight r) rs;
  inv_frame : ∀ name, name ∉ map catName (take k cats) →
                lookupBounds name (categoryBounds st) = lookupBounds name cb0
}.

(** A footprint of non-negative height. *)
Definition tall (d : LNode) : Prop := 0 <= nodeHeight d.

(** No node is in a category named like a property of
    [Object.prototype]: the grouping loop does not throw. *)
Definition plainCategories (s : Store) : Prop :=
  Forall (λ d, ∀ c, inheritedCategory d = Some c →
                    c ∉ JsObject.objectPrototypeKeys) s.

(** No item of the input is in a category named like a property of
    [Object.prototype]: neither a category the item carries nor one
    already written on the node. *)
Definition plainInput (s : Store) : Prop :=
  Forall (λ d, (∀ c, Normalizer.category (data d) = Some c →
                     c ∉ JsObject.objectPrototypeKeys)
               ∧ (∀ c, inheritedCategory d = Some c →
                       c ∉ JsObject.objectPrototypeKeys)) s.

(** The reading of C1 that the program does not satisfy: for every
    configuration, when the aggregation has run, the rectangles of one
    side are stacked downwards in sweep order. *)
Definition same_side_never_overlap : Prop :=
  ∀ cfg s cd s' cb,
    categoryData (laidOut cfg s) = Some cd →
    aggregate (laidOut cfg s) = Some (s', cb) →
    separated 0 cb (leftCategories cd) ∧ separated 0 cb (rightCategories cd).

(** A node fresh from [d3.hierarchy]: no inherited field yet. *)
Definition unresolved (d : LNode) : Prop :=
  inheritedCategory d = None ∧ inheritedSide d = None
  ∧ inheritedVisibility d = None.

End Spec.

(** ** Concrete trees *)

Module Examples.
Import Layout.

Definition item (nm : string) (cat sd : option string) : Normalizer.Node :=
  {| Normalizer.name := nm; Normalizer.status := None;
     Normalizer.link := None; Normalizer.category := cat;
     Normalizer.side := sd; Normalizer.visibility := None;
     Normalizer.children := None |}.

(** A node as [d3.hierarchy] and [treeLayout] leave it: [vx] is the
    cross-axis and [vy] the depth-axis coordinate of the tree layout. *)
Definition hnode (nm : string) (cat sd : option string) (dp : nat)
    (par : option nat) (kids : list nat) (vx vy : Q) : LNode :=
  {| data := item nm cat sd; depth := dp; parent := par; children := kids;
     x := vx; y := vy; originalX := 0; nodeWidth := 0; nodeHeight := 0;
     depthScale := 0; inheritedCategory := None; inheritedSide := None;
     inheritedVisibility := None |}.

(** [{name: "root", items: [{name: <six words>}]}] *)
Definition longLeaf : Store :=
  [ hnode "root" None None 0 None [1%nat] 0 0;
    hnode "deploy kernel module signing policy everywhere" None None
          1 (Some 0%nat) [] 0 1000 ].

(** [{name: "root", items: [{name: "a", category: "A"}, {name: "b"}]}]:
    the leaf siblings are 0.5 * 200 apart, the root is centred. *)
Definition twoLeaves : Store :=
  [ hnode "root" None None 0 None [1%nat; 2%nat] 0 0;
    hnode "a" (Some "A") None 1 (Some 0%nat) [] (-50) 1000;
    hnode "b" None None 1 (Some 0%nat) [] 50 1000 ].

(** [{name: "root", items: [{name: "a"}, {name: "b"}, {name: "c"}]}] *)
Definition threeLeaves : Store :=
  [ hnode "root" None None 0 None [1%nat; 2%nat; 3%nat] 0 0;
    hnode "a" None None 1 (Some 0%nat) [] (-100) 1000;
    hnode "b" None None 1 (Some 0%nat) [] 0 1000;
    hnode "c" None None 1 (Some 0%nat) [] 100 1000 ].

(** [{name: "root", items: [{name: "p", category: "A", items: [{name:
    "a"}]}, {name: "q", category: "B", items: [{name: "b"}]}]}]: two
    categories on the right whose rectangles overlap before the sweep. *)
Definition twoCategories : Store :=
  [ hnode "root" None None 0 None [1%nat; 2%nat] 0 0;
    hnode "p" (Some "A") None 1 (Some 0%nat) [3%nat] (-120) 1000;
    hnode "q" (Some "B") None 1 (Some 0%nat) [4%nat] 120 1000;
    hnode "a" None None 2 (Some 1%nat) [] (-120) 2000;
    hnode "b" None None 2 (Some 2%nat) [] 120 2000 ].

(** [{name: "root", items: [{name: "g", side: sd, items: [{name: "a"},
    {name: "b"}, {name: "c"}]}]}] *)
Definition sidedGroup (sd : string) : Store :=
  [ hnode "root" None None 0 None [1%nat] 0 0;
    hnode "g" None (Some sd) 1 (Some 0%nat) [2%nat; 3%nat; 4%nat] 0 1000;
    hnode "a" None None 2 (Some 1%nat) [] (-100) 2000;
    hnode "b" None None 2 (Some 1%nat) [] 0 2000;
    hnode "c" None None 2 (Some 1%nat) [] 100 2000 ].

(** [{name: "root", items: [{name: "g", side: sd, items: [{name: "a"},
    {name: "b"}, {name: "c"}, {name: "d"}]}]}]: four leaves, half a
    vertical spacing apart. *)
Definition sidedGroupOfFour (sd : string) : Store :=
  [ hnode "root" None None 0 None [1%nat] 0 0;
    hnode "g" None (Some sd) 1 (Some 0%nat)
          [2%nat; 3%nat; 4%nat; 5%nat] 0 1000;
    hnode "a" None None 2 (Some 1%nat) [] (-150) 2000;
    hnode "b" None None 2 (Some 1%nat) [] (-50) 2000;
    hnode "c" None None 2 (Some 1%nat) [] 50 2000;
    hnode "d" None None 2 (Some 1%nat) [] 150 2000 ].

(** [{name: "root", items: [{name: "a", category: "A"}, {name: "b",
    category: "B", items: [{name: "c", category: "C"}]}]}]: the leaf
    "a" and the inner node "b" are 0.8 * 200 apart, "c" is level with
    its parent. *)
Definition threeCategories : Store :=
  [ hnode "root" None None 0 None [1%nat; 2%nat] 0 0;
    hnode "a" (Some "A") None 1 (Some 0%nat) [] (-80) 1000;
    hnode "b" (Some "B") None 1 (Some 0%nat) [3%nat] 80 1000;
    hnode "c" (Some "C") None 2 (Some 2%nat) [] 80 2000 ].

(** The default configuration with [nodeScale: -10]. *)
Definition negativeScale : Settings :=
  {| nodeSpacingVertical := 200; nodeSpacingHorizontal := 1000;
     nodeScale := -10; textScale := 1.3 |}.

(** [{name: "root", items: [{name: "a", category: "constructor"}]}] *)
Definition prototypeCategory : Store :=
  [ hnode "root" None None 0 None [1%nat] 0 0;
    hnode "a" (Some "constructor") None 1 (Some 0%nat) [] 0 1000 ].

End Examples.

(** ** Further notions: text *)

Module TextNotions.
Import Text.

(** [words.join(" ")] *)
Fixpoint joinSpace (ws : list string) : string :=
  match ws with
  | [] => EmptyString
  | [w] => w
  | w :: rest => w +:+ " " +:+ joinSpace rest
  end.

(** The line is within the budget by the measure of [wrapText]: half
    the font size per character. *)
Definition fits (maxWidth : Q) (line : string) : Prop :=
  len line * TEXT_FONT_SIZE / 2 <= maxWidth.

(** Every piece but the last is non-empty. *)
Fixpoint innerNonEmpty (ws : list string) : Prop :=
  match ws with
  | [] => True
  | [w] => True
  | w :: rest => w ≠ EmptyString ∧ innerNonEmpty rest
  end.

(** The text does not start with white space. *)
Definition noLeadingSpace (text : string) : Prop :=
  match text with
  | EmptyString => True
  | String c _ => isSpace c = false
  end.

End TextNotions.

(** ** Further notions: the normalised tree *)

Module NormalizerNotions.
Import Js Normalizer.

(** The names of the items that [createHierarchy] keeps, in document
    order: an item is kept when it and all its ancestors are named. *)
Fixpoint keptNames (item : RawItem) : list string :=
  match item with
  | RawNull => []
  | RawObj nm _ _ _ _ _ _ its =>
    match (if truthy nm then nm else None) with
    | None => []
    | Some n =>
      n :: match its with
           | Some l => flat_map keptNames l
           | None => []
           end
    end
  end.

(** The items that are skipped: the nameless ones whose ancestors are
    all named, in document order. *)
Fixpoint skipped (item : RawItem) : list RawItem :=
  match item with
  | RawNull => [item]
  | RawObj nm _ _ _ _ _ _ its =>
    if truthy nm then
      match its with
      | Some l => flat_map skipped l
      | None => []
      end
    else [item]
  end.

(** The names of a normalised tree in document order. *)
Fixpoint nodeNames (n : Node) : list string :=
  name n :: match children n with
            | Some kids => flat_map nodeNames kids
            | None => []
            end.

(** An optional field after [|| null]: absent or truthy. *)
Definition normalField (v : option string) : Prop :=
  v = None ∨ truthy v = true.

(** A node as [createHierarchy] builds it: a non-empty name, optional
    fields absent or truthy, no empty [children] array, and children
    of the same kind. *)
Fixpoint wellFormed (n : Node) : Prop :=
  name n ≠ EmptyString
  ∧ normalField (status n) ∧ normalField (link n)
  ∧ normalField (category n) ∧ normalField (side n)
  ∧ normalField (visibility n)
  ∧ match children n with
    | Some kids =>
      kids ≠ [] ∧ foldr (λ k rest, wellFormed k ∧ rest) True kids
    | None => True
    end.

(** What [createHierarchy] and the map-and-filter over an array keep,
    skip and build. *)
Definition describes (item : RawItem) : Prop :=
  fst (createHierarchy item) = skipped item
  ∧ match snd (createHierarchy item) with
    | Some n => nodeNames n = keptNames item ∧ wellFormed n
    | None => keptNames item = []
    end.

(** The elements handed to [transformData]. *)
Definition dataItems (data : RawData) : list RawItem :=
  match data with
  | DataArray elems => elems
  | DataObject item => [item]
  end.

(** Whether [transformData] adds the synthetic root: for an array of
    any length but one. *)
Definition addsRoot (data : RawData) : bool :=
  match data with
  | DataArray [_] => false
  | DataArray _ => true
  | DataObject _ => false
  end.

End NormalizerNotions.

(** ** Further notions: the store *)

Module LayoutNotions.
Import Js Layout Spec.

(** The node [d'] is the node [d] at another place: only [x] and [y]
    may differ. *)
Definition movedFrom (d d' : LNode) : Prop := setXY (x d) (y d) d' = d.

(** The node [d'] is the node [d] moved down or left in place: the
    same [x], a [y] that is not smaller, all else the same. *)
Definition movedDown (d d' : LNode) : Prop :=
  movedFrom d d' ∧ x d' = x d ∧ y d <= y d'.

(** The rectangle [b] holds the footprint of the node [d] with
    [padding] to spare on every side. *)
Definition holds (padding : Q) (b : Bounds) (d : LNode) : Prop :=
  rectX b + padding <= x d - nodeWidth d / 2
  ∧ x d + nodeWidth d / 2 <= rectX b + rectWidth b - padding
  ∧ rectY b + padding <= y d - nodeHeight d / 2
  ∧ y d + nodeHeight d / 2 <= rectY b + rectHeight b - padding.

(** Each side of the rectangle [b], less the padding, is touched by the
    footprint of a node of [ns]. *)
Definition tight (padding : Q) (b : Bounds) (ns : list LNode) : Prop :=
  (∃ d, d ∈ ns ∧ x d - nodeWidth d / 2 == rectX b + padding)
  ∧ (∃ d, d ∈ ns ∧ x d + nodeWidth d / 2 == rectX b + rectWidth b - padding)
  ∧ (∃ d, d ∈ ns ∧ y d - nodeHeight d / 2 == rectY b + padding)
  ∧ (∃ d, d ∈ ns ∧ y d + nodeHeight d / 2 == rectY b + rectHeight b - padding).

(** The rectangle stored for the category [c] is the padded bounding
    rectangle of the nodes of [c] as they are in the store [s]. *)
Definition bounded (s : Store) (cb : BoundsMap) (c : CatData) : Prop :=
  ∃ ns r, nodesAt s (catNodes c) = Some ns
          ∧ calculateCategoryBounds ns categoryPadding = Some r
          ∧ lookupBounds (catName c) cb = Some r.

(** The centre line of the two columns of a grid under [d]. *)
Definition gridCentreX (settings : Settings) (d : LNode) : Q :=
  x d + leafHorizontalOffset settings * direction d.

(** The number of rows of a grid of [n] children. *)
Definition gridRows (n : nat) : nat := ((n + 1) / 2)%nat.

(** Two categories with different names share no node and no name. *)
Definition apart (a c : CatData) : Prop :=
  catName a ≠ catName c ∧ ∀ i, i ∈ catNodes a → i ∉ catNodes c.

End LayoutNotions.

(** ** Viewport placement, zoom and drawing *)

Module Render.
Import Js JsObject Layout.

(** *** Viewport centring *)

Definition shiftXY (dx dy : Q) (d : LNode) : LNode :=
  setXY (x d + dx) (y d + dy) d.

Definition shiftRectXY (dx dy : Q) (b : Bounds) : Bounds :=
  {| rectX := rectX b + dx; rectY := rectY b + dy;
     rectWidth := rectWidth b; rectHeight := rectHeight b |}.

(** The two loops that follow the computation of the offsets: every
    node and every rectangle moves by [(xOffset, yOffset)]. *)
Definition viewportCentering (width height : Q) (sc : Store * BoundsMap)
    : option (Store * BoundsMap) :=
  off ← viewportOffsets width height sc.1;
  Some (map (shiftXY off.1 off.2) sc.1,
        map (λ kb, (kb.1, shiftRectXY off.1 off.2 kb.2)) sc.2).

(** Everything [initVisualization] does to the coordinates, in program
    order. *)
Definition drawnLayout (settings : Settings) (width height : Q) (s : Store)
    : option (Store * BoundsMap) :=
  sc ← layoutPipeline settings s;
  viewportCentering width height sc.

(** *** Zoom transforms *)

(** A zoom transform of d3, [{k, x, y}].  It is library code; what is
    taken from it is that [scale] multiplies [k], that [translate] adds
    the vector scaled by [k], and that a point [p] is drawn at
    [p * k + (x, y)]. *)
Record Transform : Type := mkTransform {
  zoomK : Q;
  zoomX : Q;
  zoomY : Q
}.

Definition zoomIdentity : Transform := mkTransform 1 0 0.

Definition scaleT (t : Transform) (k : Q) : Transform :=
  mkTransform (zoomK t * k) (zoomX t) (zoomY t).

Definition translateT (t : Transform) (vx vy : Q) : Transform :=
  mkTransform (zoomK t) (zoomX t + zoomK t * vx) (zoomY t + zoomK t * vy).

Definition applyX (t : Transform) (vx : Q) : Q := vx * zoomK t + zoomX t.
Definition applyY (t : Transform) (vy : Q) : Q := vy * zoomK t + zoomY t.

(** [if (scale < 1) svg.call(zoom.transform, d3.zoomIdentity.scale(scale))]
    followed by [d3.zoomTransform(svg.node())]. *)
Definition initialTransform (scale : Q) : Transform :=
  if negb (Qle_bool 1 scale) then scaleT zoomIdentity scale
  else zoomIdentity.

(** *** Click on a category rectangle *)

Definition zoomMargin : Q := 30.

(** The transform of the [else] branch of the click handler. *)
Definition categoryTransform (width height : Q) (bounds : Bounds)
    : option Transform :=
  let centerX := rectX bounds + rectWidth bounds / 2 in
  let centerY := rectY bounds + rectHeight bounds / 2 in
  let availableWidth := width - 2 * zoomMargin in
  let availableHeight := height - 2 * zoomMargin in
  scaleX ← jsDiv availableWidth (rectWidth bounds);
  scaleY ← jsDiv availableHeight (rectHeight bounds);
  let targetScale := Qmin scaleX scaleY in
  let translateX := width / 2 - centerX * targetScale in
  let translateY := height / 2 - centerY * targetScale in
  Some (scaleT (translateT zoomIdentity translateX translateY) targetScale).

(** What the click handler reads and writes: the transform of the
    [svg] and the variable [zoomedCategory]. *)
Record View : Type := mkView {
  transform : Transform;
  zoomedCategory : option string
}.

(** [zoomedCategory === categoryName] *)
Definition isZoomedOn (v : View) (categoryName : string) : bool :=
  match zoomedCategory v with
  | Some c => String.eqb c categoryName
  | None => false
  end.

(** The click handler on the rectangle of the entry [d] of
    [categoryBounds]; the transition ends on the transform it is given. *)
Definition clickCategory (width height : Q) (initial : Transform)
    (d : string * Bounds) (v : View) : option View :=
  let categoryName := d.1 in
  if isZoomedOn v categoryName then
    Some {| transform := initial; zoomedCategory := None |}
  else
    t ← categoryTransform width height d.2;
    Some {| transform := t; zoomedCategory := Some categoryName |}.

(** *** Hidden leaves *)

(** [d.children] is truthy. *)
Definition hasChildren (s : Store) (i : nat) : bool :=
  match s !! i with
  | Some d => negb (isLeaf d)
  | None => false
  end.

(** [root.descendants()] as references. *)
Definition descendants (s : Store) : list nat := seq 0 (length s).

(** [root.links()]: one link [(source, target)] for every node that has
    a parent, in the order of the nodes. *)
Definition links (s : Store) : list (nat * nat) :=
  omap (λ i, d ← s !! i; p ← parent d; Some (p, i)) (descendants s).

Definition visibleNodes (hideLeaves : bool) (s : Store) : list nat :=
  if hideLeaves then filter (λ i, hasChildren s i = true) (descendants s)
  else descendants s.

Definition visibleLinks (hideLeaves : bool) (s : Store) : list (nat * nat) :=
  if hideLeaves then filter (λ l, hasChildren s l.2 = true) (links s)
  else links s.

(** *** Colours *)

Definition RED : string := "#FF0000".
Definition ORANGE : string := "#FF9800".
Definition GREEN : string := "#4CAF50".
Definition BLUE : string := "#2196F3".
Definition GREY : string := "#9E9E9E".
Definition WHITE : string := "#FFFFFF".
Definition PURPLE : string := "#8000FF".

(** An object literal whose values are strings. *)
Abbreviation Table := (list (string * string)).

Definition statusColors : Table :=
  [ ("ready", GREEN); ("soon", ORANGE); ("not started", RED);
    ("notstarted", RED); ("wontdo", PURPLE); ("default", GREY) ].

Definition visibilityColors : Table :=
  [ ("public", BLUE); ("internal", GREY) ].

(** What [table[key]] evaluates to: a string of the table, a function
    or object found on the prototype, or [undefined]. *)
Inductive Property : Type :=
| Own (v : string)
| FromPrototype
| Undefined.

Fixpoint ownProperty (table : Table) (key : string) : option string :=
  match table with
  | [] => None
  | (k, v) :: rest => if String.eqb k key then Some v else ownProperty rest key
  end.

Definition getProperty (table : Table) (key : string) : Property :=
  match ownProperty table key with
  | Some v => Own v
  | None =>
    if bool_decide (key ∈ objectPrototypeKeys) then FromPrototype
    else Undefined
  end.

(** [a || b] on the result of a property read. *)
Definition orProperty (a b : Property) : Property :=
  match a with
  | Own v => if String.eqb v "" then b else a
  | FromPrototype => a
  | Undefined => b
  end.

(** [toLowerCase] on the letters of ASCII. *)
Definition lowerChar (c : ascii) : ascii :=
  let n := nat_of_ascii c in
  if (65 <=? n)%nat && (n <=? 90)%nat then ascii_of_nat (n + 32) else c.

Fixpoint toLowerCase (s : string) : string :=
  match s with
  | EmptyString => EmptyString
  | String c rest => String (lowerChar c) (toLowerCase rest)
  end.

(** The value of [color] that the node's shape is filled with. *)
Definition nodeColor (colorMode : string) (d : LNode) : Property :=
  if String.eqb colorMode "visibility" then
    match or (inheritedVisibility d) (Normalizer.visibility (data d)) with
    | Some visibility =>
      if truthy (Some visibility) then
        orProperty (getProperty visibilityColors (toLowerCase visibility))
                   (getProperty visibilityColors "internal")
      else getProperty visibilityColors "internal"
    | None => getProperty visibilityColors "internal"
    end
  else
    match Normalizer.status (data d) with
    | Some status =>
      if truthy (Some status) then
        orProperty (getProperty statusColors (toLowerCase status))
                   (getProperty statusColors "default")
      else getProperty statusColors "default"
    | None => getProperty statusColors "default"
    end.

(** *** Label lines *)

(** [lines] as drawn: [textLength] is what [getComputedTextLength]
    measured for the name on one line. *)
Definition labelLines (textLength : Q) (d : LNode) : list string :=
  let padding := 20 * depthScale d in
  let maxTextWidth := nodeWidth d - padding * 2 in
  if negb (Qle_bool textLength maxTextWidth)
  then Text.wrapText (Normalizer.name (data d)) maxTextWidth
  else [Normalizer.name (data d)].

Definition lineHeight (settings : Settings) (d : LNode) : Q :=
  Text.TEXT_LINE_HEIGHT * textScale settings * depthScale d.

(** The [dy] attribute of the line with index [i]. *)
Definition lineDy (settings : Settings) (d : LNode) (lines : list string)
    (i : nat) : Q :=
  let startY := (- (ofNat (length lines) - 1) * lineHeight settings d) / 2 in
  startY + ofNat i * lineHeight settings d.

End Render.

(** ** Notions used to state the properties of the drawing *)

Module RenderNotions.
Import Layout Render.

(** The node [d'] is the node [d] moved by [(dx, dy)]. *)
Definition nodeMovedBy (dx dy : Q) (d d' : LNode) : Prop :=
  LayoutNotions.movedFrom d d' ∧ x d' == x d + dx ∧ y d' == y d + dy.

(** The rectangle [r'] is the rectangle [r] moved by [(dx, dy)]. *)
Definition rectMovedBy (dx dy : Q) (r r' : Bounds) : Prop :=
  rectX r' == rectX r + dx ∧ rectY r' == rectY r + dy
  ∧ rectWidth r' == rectWidth r ∧ rectHeight r' == rectHeight r.

(** Every rectangle of [cb'] is the rectangle of [cb] under the same
    name, moved by [(dx, dy)]. *)
Definition rectsMovedBy (dx dy : Q) (cb cb' : BoundsMap) : Prop :=
  Forall2 (λ kb kb', kb'.1 = kb.1 ∧ rectMovedBy dx dy kb.2 kb'.2) cb cb'.

(** The point [(vx, vy)] is drawn inside the viewport, at least the
    fraction [inset] of its size away from every edge. *)
Definition onScreen (inset width height : Q) (t : Transform) (vx vy : Q)
    : Prop :=
  inset * width <= applyX t vx ∧ applyX t vx <= (1 - inset) * width
  ∧ inset * height <= applyY t vy ∧ applyY t vy <= (1 - inset) * height.

(** The links of the hierarchy are its parent links: a node is listed
    among the children of its parent. *)
Definition familyTies (s : Store) : Prop :=
  ∀ i d p, s !! i = Some d → parent d = Some p →
           ∃ dp, s !! p = Some dp ∧ i ∈ children dp.

(** The field that decides the colour in the mode [colorMode]. *)
Definition colourKey (colorMode : string) (d : LNode) : option string :=
  if String.eqb colorMode "visibility"
  then Js.or (inheritedVisibility d) (Normalizer.visibility (data d))
  else Normalizer.status (data d).

(** The table that is read in the mode [colorMode]. *)
Definition colourTable (colorMode : string) : Table :=
  if String.eqb colorMode "visibility" then visibilityColors
  else statusColors.

Definition palette : list string := [RED; ORANGE; GREEN; BLUE; GREY; PURPLE].

End RenderNotions.

(** ** Concrete nodes for the drawing *)

Module RenderExamples.
Import Layout.

(** A leaf [{name: "a", status: st}] below the root. *)
Definition withStatus (st : string) : LNode :=
  {| data := {| Normalizer.name := "a"; Normalizer.status := Some st;
                Normalizer.link := None; Normalizer.category := None;
                Normalizer.side := None; Normalizer.visibility := None;
                Normalizer.children := None |};
     depth := 1; parent := Some 0%nat; children := [];
     x := 0; y := 0; originalX := 0; nodeWidth := 0; nodeHeight := 0;
     depthScale := 0; inheritedCategory := None; inheritedSide := None;
     inheritedVisibility := None |}.

End RenderExamples.

(** * Properties *)

(** ** Truthiness *)

Module JsFacts.
Import Js.

Lemma truthy_Some v : truthy v = true → ∃ s, v = Some s ∧ s ≠ ""%string.
Proof.
  destruct v as [s|]; simpl; [|discriminate].
  intros H. exists s. split; [done|].
  intros ->. discriminate.
Qed.

Lemma truthy_orNull v : truthy (orNull v) = truthy v.
Proof. unfold orNull, or. by destruct (truthy v) eqn:E. Qed.

Lemma orNull_truthy v : truthy v = true → orNull v = v.
Proof. unfold orNull, or. by intros ->. Qed.

Lemma orNull_falsy v : truthy v = false → orNull v = None.
Proof. unfold orNull, or. by intros ->. Qed.

End JsFacts.

(** ** Lists *)

Module ListFacts.

Lemma lookup_map {A B} (f : A → B) (l : list A) (i : nat) :
  map f l !! i = f <$> l !! i.
Proof. exact (list_lookup_fmap f l i). Qed.

Lemma lookup_map_Some {A B} (f : A → B) (l : list A) (i : nat) (b : B) :
  map f l !! i = Some b → ∃ a, l !! i = Some a ∧ b = f a.
Proof.
  rewrite lookup_map. destruct (l !! i) as [a|]; [|done].
  intros [= <-]. by exists a.
Qed.

End ListFacts.

(** ** The normaliser *)

Module NormalizerFacts.
Import Js JsFacts Normalizer.

(** Unfolding equation of [createHierarchy] on a named object. *)
Lemma createHierarchy_named nm st ln lns cat sd vis its :
  truthy nm = true →
  createHierarchy (RawObj nm st ln lns cat sd vis its) =
  let '(warned, kids) :=
    match its with Some l => mapFilter l | None => ([], []) end in
  (warned,
   match nm with
   | Some n =>
     Some {| name := n; status := orNull st; link := orNull (or lns ln);
             category := orNull cat; side := orNull sd;
             visibility := orNull vis;
             children := match kids with [] => None | _ => Some kids end |}
   | None => None
   end).
Proof.
  intros H. destruct (truthy_Some _ H) as (n & -> & _).
  cbn -[truthy orNull or]. rewrite H.
  destruct its as [l|]; [|done].
  change ((fix mapFilter (l : list RawItem) : list RawItem * list Node :=
             match l with
             | [] => ([], [])
             | child :: rest =>
               let '(w1, o) := createHierarchy child in
               let '(w2, ks) := mapFilter rest in
               (w1 ++ w2, match o with Some k => k :: ks | None => ks end)
             end) l) with (mapFilter l).
  by destruct (mapFilter l).
Qed.

Lemma createHierarchy_nameless item :
  truthy (itemName item) = false → createHierarchy item = ([item], None).
Proof.
  destruct item as [|nm st ln lns cat sd vis its]; [done|].
  cbn -[truthy]. by intros ->.
Qed.

Lemma mapFilter_app l1 l2 :
  mapFilter (l1 ++ l2) =
  (fst (mapFilter l1) ++ fst (mapFilter l2),
   snd (mapFilter l1) ++ snd (mapFilter l2)).
Proof.
  induction l1 as [|c l1 IH]; simpl.
  - by destruct (mapFilter l2).
  - rewrite IH. destruct (createHierarchy c) as [w1 o].
    destruct (mapFilter l1) as [w2 ks]. simpl.
    rewrite app_assoc. by destruct o.
Qed.

(** A nameless element of an [items] array leaves no trace in the
    children and exactly one warning. *)
Lemma mapFilter_drop bad pre post :
  truthy (itemName bad) = false →
  mapFilter (pre ++ bad :: post) =
  (fst (mapFilter pre) ++ bad :: fst (mapFilter post),
   snd (mapFilter (pre ++ post))).
Proof.
  intros Hbad. rewrite !mapFilter_app. simpl.
  rewrite (createHierarchy_nameless _ Hbad).
  by destruct (mapFilter post).
Qed.

Lemma createHierarchy_is_Some item :
  truthy (itemName item) = true → is_Some (snd (createHierarchy item)).
Proof.
  destruct item as [|nm st ln lns cat sd vis its]; [done|].
  intros H. rewrite (createHierarchy_named _ _ _ _ _ _ _ _ H).
  destruct (truthy_Some _ H) as (n & -> & _).
  destruct (match its with Some l => mapFilter l | None => ([], []) end).
  by eexists.
Qed.

(** C7: an item without a name is dropped with its whole subtree, one
    warning is emitted and normalisation goes on: the parent's node is
    the one it would have without that item.  A named root with one
    nameless child becomes a one-node leaf tree; a nameless root (alone
    or as the single element of an array) gives no tree and the render
    fails with EmptyTree. *)
Theorem nameless_items_dropped
    (bad : RawItem) (pre post : list RawItem)
    (nm st ln lns cat sd vis : option string) :
  truthy (itemName bad) = false →
  truthy nm = true →
  createHierarchy bad = ([bad], None)
  ∧ fst (createHierarchy
           (RawObj nm st ln lns cat sd vis (Some (pre ++ bad :: post))))
    = fst (mapFilter pre) ++ bad :: fst (mapFilter post)
  ∧ snd (createHierarchy
           (RawObj nm st ln lns cat sd vis (Some (pre ++ bad :: post))))
    = snd (createHierarchy
             (RawObj nm st ln lns cat sd vis (Some (pre ++ post))))
  ∧ is_Some (snd (createHierarchy
                    (RawObj nm st ln lns cat sd vis
                            (Some (pre ++ bad :: post)))))
  ∧ transformData (DataObject rootWithNamelessChild)
    = ([namelessChild], Some (leafNamed "root"))
  ∧ transformData (DataObject bad) = ([bad], None)
  ∧ transformData (DataArray [bad]) = ([bad], None)
  ∧ renderTree (DataObject bad) = inl EmptyTree
  ∧ renderTree (DataArray [bad]) = inl EmptyTree
  ∧ renderTree (DataArray [namelessChild]) = inl EmptyTree.
Proof.
  intros Hbad Hnm.
  pose proof (createHierarchy_nameless _ Hbad) as Hnone.
  split; [done|].
  rewrite !(createHierarchy_named _ _ _ _ _ _ _ _ Hnm).
  rewrite (mapFilter_drop _ _ _ Hbad).
  destruct (truthy_Some _ Hnm) as (n & -> & _).
  destruct (mapFilter (pre ++ post)) as [w ks] eqn:E. simpl.
  assert (transformData (DataArray [bad]) = ([bad], None)) as Harr
    by (simpl; by rewrite Hnone).
  assert (transformData (DataObject bad) = ([bad], None)) as Hobj by done.
  split_and!; try done; try by eexists.
  - unfold renderTree. by rewrite Hobj.
  - unfold renderTree. by rewrite Harr.
Qed.

Lemma nameless_items_dropped_witness :
  createHierarchy namelessChild = ([namelessChild], None)
  ∧ renderTree (DataArray [namelessChild]) = inl EmptyTree.
Proof.
  pose proof (nameless_items_dropped namelessChild [] []
                (Some "root"%string) None None None None None None
                eq_refl eq_refl) as H.
  split; [apply H|]. apply H.
Defined.

(** C8, as stated, fails on an item that has both fields:
    [{name: "a", link: "L", links: "M"}] gets the link ["M"]. *)
Lemma link_wins_fails : ¬ Spec.link_wins.
Proof.
  intros H.
  specialize (H (Some "a"%string) None (Some "L"%string) (Some "M"%string)
                None None None None _ eq_refl eq_refl eq_refl).
  discriminate H.
Qed.

(** C8, amended: the node's link is the item's [links] when that field
    is present; [link] is the fallback, used only when [links] is
    absent; with neither the link is [null]. *)
Theorem links_wins_over_link nm st ln lns cat sd vis its node :
  truthy nm = true →
  snd (createHierarchy (RawObj nm st ln lns cat sd vis its)) = Some node →
  (truthy lns = true → link node = lns)
  ∧ (truthy lns = false → truthy ln = true → link node = ln)
  ∧ (truthy lns = false → truthy ln = false → link node = None).
Proof.
  intros Hnm. rewrite (createHierarchy_named _ _ _ _ _ _ _ _ Hnm).
  destruct (truthy_Some _ Hnm) as (n & -> & _).
  destruct (match its with Some l => mapFilter l | None => ([], []) end).
  cbn -[orNull or truthy]. intros [= <-]. cbn -[orNull or truthy].
  unfold or at 1 2 3. split_and!.
  - intros H. rewrite H. by apply orNull_truthy.
  - intros H ?. rewrite H. by apply orNull_truthy.
  - intros H ?. rewrite H. by apply orNull_falsy.
Qed.

Lemma links_wins_over_link_witness :
  ∃ node,
    snd (createHierarchy
           (RawObj (Some "a"%string) None (Some "L"%string)
                   (Some "M"%string) None None None None)) = Some node
    ∧ link node = Some "M"%string.
Proof.
  eexists. split; [reflexivity|].
  exact (proj1 (links_wins_over_link
                  (Some "a"%string) None (Some "L"%string) (Some "M"%string)
                  None None None None _ eq_refl eq_refl) eq_refl).
Defined.

(** C10: the empty array is neither a failure nor the EmptyTree case:
    it normalises, without a warning, to the synthetic root named
    ["Root"] whose children array is empty. *)
Theorem empty_array_gives_synthetic_root :
  transformData (DataArray []) = ([], Some (syntheticRoot []))
  ∧ name (syntheticRoot []) = "Root"%string
  ∧ children (syntheticRoot []) = Some []
  ∧ renderTree (DataArray []) = inr (syntheticRoot []).
Proof. done. Qed.

End NormalizerFacts.

(** ** Sizing *)

Module SizingFacts.
Import Js Layout Spec Examples ListFacts.

Lemma pow085_succ (n : nat) : 0.85 ^ Z.of_nat (S n) == 0.85 * 0.85 ^ Z.of_nat n.
Proof.
  rewrite Nat2Z.inj_succ, <- Z.add_1_l.
  rewrite Qpower_plus by (intros H; discriminate H).
  reflexivity.
Qed.

Lemma pow085_pos (n : nat) : 0 < 0.85 ^ Z.of_nat n.
Proof. apply Qpower_0_lt. reflexivity. Qed.

Lemma pow085_le_1 (n : nat) : 0.85 ^ Z.of_nat n <= 1.
Proof.
  induction n as [|n IH].
  - simpl. lra.
  - rewrite pow085_succ. pose proof (pow085_pos n). nra.
Qed.

(** The decay: a deeper node has a smaller or equal scale. *)
Lemma pow085_antitone (n m : nat) :
  (n ≤ m)%nat → 0.85 ^ Z.of_nat m <= 0.85 ^ Z.of_nat n.
Proof.
  induction 1 as [|m Hle IH].
  - lra.
  - rewrite pow085_succ. pose proof (pow085_pos m). nra.
Qed.

Lemma sizeNode_depth cfg d : depth (sizeNode cfg d) = depth d.
Proof. unfold sizeNode. by destruct (isLeaf d). Qed.

Lemma sizeNode_isLeaf cfg d : isLeaf (sizeNode cfg d) = isLeaf d.
Proof. unfold sizeNode. destruct (isLeaf d) eqn:E; exact E. Qed.

Lemma sizeNode_depthScale cfg d :
  depthScale (sizeNode cfg d) = 0.85 ^ Z.of_nat (depth d).
Proof. unfold sizeNode. by destruct (isLeaf d). Qed.

Lemma sizeNode_width cfg d :
  nodeWidth (sizeNode cfg d) == 400 * nodeScale cfg * 0.85 ^ Z.of_nat (depth d).
Proof.
  unfold sizeNode, depthScaleOf, LEAF_WIDTH, NODE_SIZE.
  destruct (isLeaf d); simpl; ring.
Qed.

Lemma sizeNode_height_inner cfg d :
  isLeaf d = false →
  nodeHeight (sizeNode cfg d) == 400 * nodeScale cfg * 0.85 ^ Z.of_nat (depth d).
Proof.
  unfold sizeNode, depthScaleOf, NODE_SIZE. intros ->. simpl. ring.
Qed.

Lemma sizeNode_height_floor cfg d :
  0 < nodeScale cfg →
  100 * nodeScale cfg * 0.85 ^ Z.of_nat (depth d) <= nodeHeight (sizeNode cfg d).
Proof.
  intros Hns. pose proof (pow085_pos (depth d)) as Hp.
  unfold sizeNode, depthScaleOf, LEAF_HEIGHT, NODE_SIZE.
  destruct (isLeaf d); simpl.
  - apply Q.le_max_l.
  - nra.
Qed.

(** C5, as stated, fails with the default configuration on a leaf whose
    name wraps to six lines: it is 498.1 high under a parent that is 480
    high. *)
Lemma leaf_taller_than_its_parent :
  (∃ p c, sizingPass defaultConfig longLeaf = [p; c]
          ∧ parent c = Some 0%nat ∧ (depth p < depth c)%nat
          ∧ nodeHeight p == 480 ∧ nodeHeight c == 498.1)
  ∧ ¬ height_decays_with_depth.
Proof.
  split.
  - eexists _, _. split; [reflexivity|].
    split_and!; [reflexivity | simpl; lia | reflexivity | reflexivity].
  - intros H.
    specialize (H defaultConfig longLeaf 0%nat 1%nat _ _
                  eq_refl eq_refl eq_refl eq_refl).
    vm_compute in H. apply H; [lia|reflexivity].
Qed.

(** C5, amended: with a positive node scale every node gets a strictly
    positive width and height and the scale [0.85 ^ depth]; the width
    never grows with depth; the height never grows with depth between
    two nodes that have children; every height is at least the floor
    [100 * nodeScale * 0.85 ^ depth] (a leaf's height grows with the
    number of lines its name wraps to). *)
Theorem sizes_positive_and_width_decays cfg s i j di dj :
  0 < nodeScale cfg →
  sizingPass cfg s !! i = Some di →
  sizingPass cfg s !! j = Some dj →
  (depth di ≤ depth dj)%nat →
  0 < nodeWidth di ∧ 0 < nodeHeight di
  ∧ depthScale di = 0.85 ^ Z.of_nat (depth di)
  ∧ depthScale dj <= depthScale di
  ∧ nodeWidth dj <= nodeWidth di
  ∧ (isLeaf di = false → isLeaf dj = false → nodeHeight dj <= nodeHeight di)
  ∧ 100 * nodeScale cfg * depthScale di <= nodeHeight di.
Proof.
  intros Hns Hi Hj Hd. unfold sizingPass in Hi, Hj.
  apply lookup_map_Some in Hi as (ei & Ei & ->).
  apply lookup_map_Some in Hj as (ej & Ej & ->).
  rewrite !sizeNode_depth in Hd.
  pose proof (pow085_pos (depth ei)) as Hpi.
  pose proof (pow085_pos (depth ej)) as Hpj.
  pose proof (pow085_antitone _ _ Hd) as Hanti.
  pose proof (sizeNode_width cfg ei) as Hwi.
  pose proof (sizeNode_width cfg ej) as Hwj.
  pose proof (sizeNode_height_floor cfg ei Hns) as Hfi.
  rewrite !sizeNode_depthScale, !sizeNode_isLeaf, !sizeNode_depth.
  set (pi := 0.85 ^ Z.of_nat (depth ei)) in *.
  set (pj := 0.85 ^ Z.of_nat (depth ej)) in *.
  assert (0 < nodeScale cfg * pi) as Hni by (by apply Qmult_lt_0_compat).
  assert (nodeScale cfg * pj <= nodeScale cfg * pi) as Hnij
    by (by apply Qmult_le_l).
  assert (isLeaf ei = false → isLeaf ej = false →
          nodeHeight (sizeNode cfg ej) <= nodeHeight (sizeNode cfg ei)) as Hin.
  { intros Li Lj.
    pose proof (sizeNode_height_inner cfg ei Li) as Hhi.
    pose proof (sizeNode_height_inner cfg ej Lj) as Hhj.
    fold pi in Hhi. fold pj in Hhj. clearbody pi pj. lra. }
  clearbody pi pj.
  split_and!; try done.
  - lra.
  - eapply Qlt_le_trans; [|exact Hfi]. lra.
  - lra.
Qed.

Lemma sizes_positive_and_width_decays_witness :
  ∃ p c, sizingPass defaultConfig longLeaf = [p; c]
         ∧ 0 < nodeWidth p ∧ 0 < nodeHeight p ∧ nodeWidth c <= nodeWidth p.
Proof.
  eexists _, _. split; [reflexivity|].
  pose proof (sizes_positive_and_width_decays defaultConfig longLeaf
                0%nat 1%nat _ _ eq_refl eq_refl eq_refl (le_S _ _ (le_n _)))
    as H.
  split; [apply H|]. split; apply H.
Defined.

End SizingFacts.

(** ** Attribute inheritance *)

Module InheritanceFacts.
Import Js Layout Spec Examples ListFacts.

Section Walk.
Variable field : Normalizer.Node → option string.
Variable s : Store.

(** Whatever the walk returns is the nearest explicit value. *)
Lemma walkUp_sound fuel a v :
  walkUp field s fuel a = Some v → nearestExplicit field s a v.
Proof.
  revert a. induction fuel as [|fuel IH]; intros a; simpl; [done|].
  destruct a as [a|]; [|done].
  destruct (s !! a) as [n|] eqn:En; [|done].
  destruct (truthy (field (data n))) eqn:Et.
  - intros Hv. by eapply nearest_here.
  - intros Hw. eapply nearest_above; eauto.
Qed.

(** With parents listed first, [fuel] above the starting index is
    enough for the walk to reach the nearest explicit value. *)
Lemma walkUp_complete a v :
  parentsFirst s → nearestExplicit field s a v →
  ∀ fuel, (∀ i, a = Some i → (i < fuel)%nat) →
  walkUp field s fuel a = Some v.
Proof.
  intros Hpf. induction 1 as [a n v Hn Ht Hv|a n v Hn Ht Hnear IH];
    intros fuel Hfuel.
  - specialize (Hfuel a eq_refl). destruct fuel as [|fuel]; [lia|].
    simpl. by rewrite Hn, Ht.
  - specialize (Hfuel a eq_refl). destruct fuel as [|fuel]; [lia|].
    simpl. rewrite Hn, Ht. apply IH.
    intros p Hp. specialize (Hpf a n p Hn Hp). lia.
Qed.

(** The walk reads only [data] and [parent], which the resolver does
    not write. *)
Lemma walkUp_resolved fuel a :
  walkUp field (inheritancePass s) fuel a = walkUp field s fuel a.
Proof.
  revert a. induction fuel as [|fuel IH]; intros a; cbn [walkUp]; [done|].
  destruct a as [a|]; [|done].
  unfold inheritancePass at 1. rewrite lookup_map.
  destruct (s !! a) as [n|]; cbn -[truthy]; [|done].
  destruct (truthy (field (data n))); [done|]. apply IH.
Qed.

Lemma inherit_spec i d :
  parentsFirst s → s !! i = Some d →
  inheritsAs field s d (inherit field s d None).
Proof.
  intros Hpf Hd. unfold inheritsAs, inherit.
  destruct (truthy (field (data d))) eqn:Et; simpl; [done|].
  destruct (parent d) as [p|] eqn:Ep; simpl.
  - destruct (walkUp field s (length s) (Some p)) as [v|] eqn:Ew.
    + left. exists v. split; [|done]. by eapply walkUp_sound.
    + right. split; [|done]. intros v Hnear.
      rewrite (walkUp_complete _ _ Hpf Hnear) in Ew; [done|].
      intros ? [= <-]. specialize (Hpf i d p Hd Ep).
      apply lookup_lt_Some in Hd. lia.
  - right. split; [|done]. intros v Hnear. inversion Hnear.
Qed.

(** Running a block again on its own result changes nothing. *)
Lemma inherit_again d current :
  inherit field (inheritancePass s) (resolveNode s d)
          (inherit field s d current)
  = inherit field s d current.
Proof.
  unfold inherit. simpl.
  rewrite walkUp_resolved. unfold inheritancePass. rewrite length_map.
  destruct (negb (truthy (field (data d))) && bool_decide (is_Some (parent d))).
  - by destruct (walkUp field s (length s) (parent d)).
  - by destruct (truthy (field (data d))).
Qed.

End Walk.

Lemma resolveNode_again s d :
  resolveNode (inheritancePass s) (resolveNode s d) = resolveNode s d.
Proof.
  unfold resolveNode at 1.
  change (inheritedCategory (resolveNode s d))
    with (inherit Normalizer.category s d (inheritedCategory d)).
  change (inheritedSide (resolveNode s d))
    with (inherit Normalizer.side s d (inheritedSide d)).
  change (inheritedVisibility (resolveNode s d))
    with (inherit Normalizer.visibility s d (inheritedVisibility d)).
  rewrite !inherit_again. reflexivity.
Qed.

Lemma inheritancePass_idempotent s :
  inheritancePass (inheritancePass s) = inheritancePass s.
Proof.
  unfold inheritancePass at 1 3. unfold inheritancePass at 2.
  rewrite map_map.
  apply map_ext. intros d. apply resolveNode_again.
Qed.

Lemma parentsFirst_sidedGroup sd : parentsFirst (sidedGroup sd).
Proof.
  intros i d p Hi Hp.
  do 5 (destruct i as [|i];
        [injection Hi as <-; simpl in Hp;
         first [discriminate Hp | injection Hp as <-; lia]|]).
  discriminate Hi.
Qed.

(** C9: for each of category, side and visibility, the resolver gives a
    node of a fresh tree its own explicit value, else the explicit value
    of the nearest ancestor that has one, else leaves the inherited
    field undefined; and a second run of the resolver returns the very
    same store. *)
Theorem inheritance_nearest_explicit_and_idempotent s i d :
  parentsFirst s → s !! i = Some d → unresolved d →
  ∃ d', inheritancePass s !! i = Some d'
    ∧ inheritsAs Normalizer.category s d (inheritedCategory d')
    ∧ inheritsAs Normalizer.side s d (inheritedSide d')
    ∧ inheritsAs Normalizer.visibility s d (inheritedVisibility d')
    ∧ inheritancePass (inheritancePass s) = inheritancePass s.
Proof.
  intros Hpf Hd (Hc & Hs & Hv).
  exists (resolveNode s d). split_and!.
  - unfold inheritancePass. by rewrite lookup_map, Hd.
  - simpl. rewrite Hc. by eapply inherit_spec.
  - simpl. rewrite Hs. by eapply inherit_spec.
  - simpl. rewrite Hv. by eapply inherit_spec.
  - apply inheritancePass_idempotent.
Qed.

Lemma inheritance_nearest_explicit_and_idempotent_witness :
  ∃ d', inheritancePass (sidedGroup "left") !! 2%nat = Some d'
        ∧ inheritedSide d' = Some "left"%string
        ∧ inheritedCategory d' = None.
Proof.
  destruct (inheritance_nearest_explicit_and_idempotent
              (sidedGroup "left") 2%nat _ (parentsFirst_sidedGroup "left")
              eq_refl (conj eq_refl (conj eq_refl eq_refl)))
    as (d' & Hd' & _).
  exists d'. split; [exact Hd'|].
  injection Hd' as <-. split; reflexivity.
Defined.

End InheritanceFacts.

(** ** Running minima and maxima *)

Module ExtremeFacts.
Import Layout.

Lemma Qmin_cases (a b : Q) :
  (a <= b ∧ Qmin a b = a) ∨ (b < a ∧ Qmin a b = b).
Proof.
  unfold Qmin, GenericMinMax.gmin.
  destruct (Qcompare_spec a b) as [H|H|H]; [left|left|right];
    (split; [lra|reflexivity]).
Qed.

Lemma Qmax_cases (a b : Q) :
  (a < b ∧ Qmax a b = b) ∨ (b <= a ∧ Qmax a b = a).
Proof.
  unfold Qmax, GenericMinMax.gmax.
  destruct (Qcompare_spec a b) as [H|H|H]; [right|left|right];
    (split; [lra|reflexivity]).
Qed.

(** Case analysis on every [Qmin] and [Qmax] of the goal, then linear
    arithmetic. *)
Ltac minmax :=
  repeat match goal with
         | |- context [Qmin ?a ?b] =>
           let H := fresh in let E := fresh in
           destruct (Qmin_cases a b) as [[H E]|[H E]]; rewrite E in *
         | |- context [Qmax ?a ?b] =>
           let H := fresh in let E := fresh in
           destruct (Qmax_cases a b) as [[H E]|[H E]]; rewrite E in *
         end;
  try lra.

(** [lra] does not read a division: write the halves as products. *)
Ltac halves := unfold Qdiv in *; change (/ 2) with (1 # 2) in *.

(** The running minimum exists, is below its start value and below
    every element seen. *)
Lemma foldMin_Some (vs : list Q) (a : Q) :
  ∃ m, fold_left jsMin vs (Some a) = Some m
       ∧ m <= a ∧ Forall (λ v, m <= v) vs.
Proof.
  revert a. induction vs as [|v vs IH]; intros a; simpl.
  - exists a. split_and!; [done|lra|constructor].
  - destruct (IH (Qmin a v)) as (m & Hm & Hle & Hall).
    exists m. split; [done|].
    assert (m <= a ∧ m <= v) as [? ?].
    { revert Hle; clear; minmax; intros; split; lra. }
    split; [done|]. by constructor.
Qed.

Lemma foldMax_Some (vs : list Q) (a : Q) :
  ∃ m, fold_left jsMax vs (Some a) = Some m
       ∧ a <= m ∧ Forall (λ v, v <= m) vs.
Proof.
  revert a. induction vs as [|v vs IH]; intros a; simpl.
  - exists a. split_and!; [done|lra|constructor].
  - destruct (IH (Qmax a v)) as (m & Hm & Hle & Hall).
    exists m. split; [done|].
    assert (a <= m ∧ v <= m) as [? ?].
    { revert Hle; clear; minmax; intros; split; lra. }
    split; [done|]. by constructor.
Qed.

(** Adding [o] to the start value and to every element adds [o] to the
    running minimum.  The shifted values are given up to [==]. *)
Lemma foldMin_shift (o : Q) (vs vs' : list Q) (a a' m m' : Q) :
  Forall2 (λ v v', v' == v + o) vs vs' →
  a' == a + o →
  fold_left jsMin vs (Some a) = Some m →
  fold_left jsMin vs' (Some a') = Some m' →
  m' == m + o.
Proof.
  intros Hvs. revert a a'.
  induction Hvs as [|v v' vs vs' Hv _ IH]; intros a a' Ha; simpl.
  - intros [= <-] [= <-]. done.
  - apply IH. revert Ha Hv. clear. minmax.
Qed.

Lemma foldMax_shift (o : Q) (vs vs' : list Q) (a a' m m' : Q) :
  Forall2 (λ v v', v' == v + o) vs vs' →
  a' == a + o →
  fold_left jsMax vs (Some a) = Some m →
  fold_left jsMax vs' (Some a') = Some m' →
  m' == m + o.
Proof.
  intros Hvs. revert a a'.
  induction Hvs as [|v v' vs vs' Hv _ IH]; intros a a' Ha; simpl.
  - intros [= <-] [= <-]. done.
  - apply IH. revert Ha Hv. clear. minmax.
Qed.

Lemma minOf_cons (v : Q) (vs : list Q) :
  minOf (v :: vs) = fold_left jsMin vs (Some v).
Proof. reflexivity. Qed.

Lemma maxOf_cons (v : Q) (vs : list Q) :
  maxOf (v :: vs) = fold_left jsMax vs (Some v).
Proof. reflexivity. Qed.

(** On a non-empty list the least value is below the greatest. *)
Lemma minOf_maxOf_cons (v : Q) (vs : list Q) :
  ∃ lo hi, minOf (v :: vs) = Some lo ∧ maxOf (v :: vs) = Some hi
           ∧ Forall (λ w, lo <= w ∧ w <= hi) (v :: vs).
Proof.
  rewrite minOf_cons, maxOf_cons.
  destruct (foldMin_Some vs v) as (lo & Hlo & Hlv & Hall).
  destruct (foldMax_Some vs v) as (hi & Hhi & Hvh & Halh).
  exists lo, hi. split_and!; [done..|].
  constructor; [done|].
  rewrite Forall_forall in *. intros w Hw. split; auto.
Qed.

Lemma minOf_nil_inv (vs : list Q) : minOf vs = None → vs = [].
Proof.
  destruct vs as [|v vs]; [done|]. rewrite minOf_cons.
  destruct (foldMin_Some vs v) as (m & -> & _). done.
Qed.

Lemma minOf_shift (o : Q) (vs vs' : list Q) (m : Q) :
  Forall2 (λ v v', v' == v + o) vs vs' →
  minOf vs = Some m →
  ∃ m', minOf vs' = Some m' ∧ m' == m + o.
Proof.
  destruct 1 as [|v v' vs vs' Hv Hvs]; [done|].
  rewrite !minOf_cons. intros Hm.
  destruct (foldMin_Some vs' v') as (m' & Hm' & _).
  exists m'. split; [done|].
  by eapply (foldMin_shift o vs vs' v v').
Qed.

Lemma maxOf_shift (o : Q) (vs vs' : list Q) (m : Q) :
  Forall2 (λ v v', v' == v + o) vs vs' →
  maxOf vs = Some m →
  ∃ m', maxOf vs' = Some m' ∧ m' == m + o.
Proof.
  destruct 1 as [|v v' vs vs' Hv Hvs]; [done|].
  rewrite !maxOf_cons. intros Hm.
  destruct (foldMax_Some vs' v') as (m' & Hm' & _).
  exists m'. split; [done|].
  by eapply (foldMax_shift o vs vs' v v').
Qed.

End ExtremeFacts.

(** ** Viewport fit *)

Module FitFacts.
Import Layout Examples ExtremeFacts.

Lemma jsDiv_nonzero (a b : Q) : ¬ b == 0 → jsDiv a b = Some (a / b).
Proof.
  intros Hb. unfold jsDiv.
  destruct (Qeq_bool b 0) eqn:E; [|done].
  by apply Qeq_bool_iff in E.
Qed.

(** The extent of the centres of a non-empty store, padded. *)
Lemma treeExtent_cons (f : LNode → Q) (root : LNode) (rest : Store) :
  ∃ lo hi, extent f (root :: rest) = Some (lo, hi)
    ∧ Forall (λ d, lo <= f d ∧ f d <= hi) (root :: rest)
    ∧ treeExtent f (root :: rest) = Some (hi - lo + viewportPadding * 2).
Proof.
  destruct (minOf_maxOf_cons (f root) (map f rest)) as (lo & hi & Hlo & Hhi & Hall).
  exists lo, hi. unfold treeExtent, extent.
  change (map f (root :: rest)) with (f root :: map f rest).
  rewrite Hlo, Hhi. simpl. split_and!; [done| |done].
  change (f root :: map f rest) with (map f (root :: rest)) in Hall.
  by apply Forall_map in Hall.
Qed.

(** C6: for every tree (a non-empty node list) and every viewport, the
    two denominators of the scale are the extents of the node centres
    plus twice the padding of 100, hence at least 200; both divisions
    are defined; the scale is
    [min(1, min(width/treeWidth, height/treeHeight) * 0.9)] and at most
    1.  For a single node both denominators are exactly 200. *)
Theorem viewport_scale_defined_and_at_most_one
    (width height : Q) (root : LNode) (rest : Store) :
  ∃ lox hix loy hiy scale,
    extent x (root :: rest) = Some (lox, hix)
    ∧ extent y (root :: rest) = Some (loy, hiy)
    ∧ Forall (λ d, lox <= x d ∧ x d <= hix ∧ loy <= y d ∧ y d <= hiy)
             (root :: rest)
    ∧ treeExtent x (root :: rest) = Some (hix - lox + 100 * 2)
    ∧ treeExtent y (root :: rest) = Some (hiy - loy + 100 * 2)
    ∧ 200 <= hix - lox + 100 * 2
    ∧ 200 <= hiy - loy + 100 * 2
    ∧ jsDiv width (hix - lox + 100 * 2) = Some (width / (hix - lox + 100 * 2))
    ∧ jsDiv height (hiy - loy + 100 * 2) = Some (height / (hiy - loy + 100 * 2))
    ∧ viewportScale width height (root :: rest) = Some scale
    ∧ scale = Qmin 1 (Qmin (width / (hix - lox + 100 * 2))
                           (height / (hiy - loy + 100 * 2)) * 0.9)
    ∧ scale <= 1
    ∧ (rest = [] → hix - lox + 100 * 2 == 200 ∧ hiy - loy + 100 * 2 == 200).
Proof.
  destruct (treeExtent_cons x root rest) as (lox & hix & Hex & Hax & Htx).
  destruct (treeExtent_cons y root rest) as (loy & hiy & Hey & Hay & Hty).
  assert (lox <= hix) as Hx
    by (apply Forall_inv in Hax; lra).
  assert (loy <= hiy) as Hy
    by (apply Forall_inv in Hay; lra).
  assert (jsDiv width (hix - lox + 100 * 2)
          = Some (width / (hix - lox + 100 * 2))) as Hdx
    by (apply jsDiv_nonzero; lra).
  assert (jsDiv height (hiy - loy + 100 * 2)
          = Some (height / (hiy - loy + 100 * 2))) as Hdy
    by (apply jsDiv_nonzero; lra).
  eexists lox, hix, loy, hiy, _. split_and!; try done.
  - rewrite Forall_forall in *. intros d Hd.
    specialize (Hax d Hd). specialize (Hay d Hd). tauto.
  - lra.
  - lra.
  - unfold viewportScale. rewrite Htx, Hty. simpl.
    unfold viewportPadding. rewrite Hdx, Hdy. reflexivity.
  - apply Q.le_min_l.
  - intros ->. unfold extent, minOf, maxOf in Hex, Hey. simpl in Hex, Hey.
    injection Hex as <- <-. injection Hey as <- <-. split; ring.
Qed.

(** With a viewport of positive size the scale is positive, so the
    divisions by the scale in the offsets are defined as well. *)
Lemma viewportOffsets_defined (width height : Q) (root : LNode) (rest : Store) :
  0 < width → 0 < height →
  is_Some (viewportOffsets width height (root :: rest)).
Proof.
  intros Hw Hh.
  destruct (treeExtent_cons x root rest) as (lox & hix & Hex & Hax & Htx).
  destruct (treeExtent_cons y root rest) as (loy & hiy & Hey & Hay & Hty).
  apply Forall_inv in Hax, Hay. unfold viewportPadding in *.
  set (tw := hix - lox + 100 * 2) in *.
  set (th := hiy - loy + 100 * 2) in *.
  assert (0 < tw) by (unfold tw; lra).
  assert (0 < th) by (unfold th; lra).
  unfold viewportOffsets, viewportScale. rewrite Htx, Hty. simpl.
  rewrite !jsDiv_nonzero by lra. simpl. rewrite Hex, Hey. simpl.
  assert (0 < width / tw) as Ha by (apply Qlt_shift_div_l; lra).
  assert (0 < height / th) as Hb by (apply Qlt_shift_div_l; lra).
  rewrite !jsDiv_nonzero; [by eexists|..];
    revert Ha Hb; generalize (width / tw) (height / th); clear;
    intros a b Ha Hb; minmax.
Qed.

End FitFacts.

(** ** Side inversion and leaf clustering *)

Module ClusterFacts.
Import Js Layout Spec Examples ListFacts.

Lemma shape_lookup s st i d' :
  shape st = shape s → st !! i = Some d' →
  ∃ d, s !! i = Some d ∧ children d' = children d.
Proof.
  intros Hsh Hi.
  assert (shape st !! i = Some (children d')) as H
    by (unfold shape; by rewrite lookup_map, Hi).
  rewrite Hsh in H. unfold shape in H.
  apply lookup_map_Some in H as (d & Hd & Hc). by exists d.
Qed.

Lemma leafAt_shape s st c : shape st = shape s → leafAt st c = leafAt s c.
Proof.
  intros Hsh. unfold leafAt.
  destruct (st !! c) as [d'|] eqn:E'.
  - destruct (shape_lookup _ _ _ _ Hsh E') as (d & -> & Hc).
    unfold isLeaf. by rewrite Hc.
  - destruct (s !! c) as [d|] eqn:E; [|done].
    destruct (shape_lookup _ _ _ _ (eq_sym Hsh) E) as (d' & Hd' & _).
    congruence.
Qed.

Lemma allChildrenAreLeaves_shape s st d d' :
  shape st = shape s → children d' = children d →
  allChildrenAreLeaves st d' = allChildrenAreLeaves s d.
Proof.
  intros Hsh Hc. unfold allChildrenAreLeaves. rewrite Hc. clear Hc.
  induction (children d) as [|c cs IH]; cbn [forallb]; [done|].
  by rewrite IH, (leafAt_shape s st c Hsh).
Qed.

Lemma shape_alter (f : LNode → LNode) i st :
  (∀ d, children (f d) = children d) → shape (alter f i st) = shape st.
Proof.
  intros Hf. unfold shape. apply list_eq. intros k.
  rewrite !lookup_map, list_lookup_alter.
  destruct (decide (i = k)) as [->|]; [|done].
  destruct (st !! k); simpl; [|done]. by rewrite Hf.
Qed.

Section FoldAlter.
Context {A : Type} (f : A → LNode → LNode) (idx : A → nat).

Lemma alterAll_shape l st :
  (∀ a d, children (f a d) = children d) →
  shape (alterAll f idx l st) = shape st.
Proof.
  intros Hf. revert st. induction l as [|a l IH]; intros st; [reflexivity|].
  unfold alterAll in *. simpl. rewrite IH. by apply shape_alter.
Qed.

Lemma alterAll_other l st i :
  (∀ a, a ∈ l → idx a ≠ i) → alterAll f idx l st !! i = st !! i.
Proof.
  revert st. induction l as [|a l IH]; intros st Hl; [reflexivity|].
  unfold alterAll in *. simpl. rewrite IH.
  - apply list_lookup_alter_ne. apply Hl. by left.
  - intros b Hb. apply Hl. by right.
Qed.

End FoldAlter.

Lemma clusterNode_shape cfg st d : shape (clusterNode cfg st d) = shape st.
Proof.
  unfold clusterNode.
  destruct (negb (isLeaf d)); [|done].
  destruct (allChildrenAreLeaves st d); [|done].
  destruct (2 <? length (children d))%nat.
  - apply (alterAll_shape
             (λ ic, setXY (gridPosition cfg d (length (children d)) ic.1).1
                          (gridPosition cfg d (length (children d)) ic.1).2)
             snd). done.
  - apply (alterAll_shape
             (λ _ ch, setXY (x d + leafHorizontalOffset cfg * direction d)
                            (y ch) ch) id). done.
Qed.

Lemma clusterNode_other cfg st d i :
  i ∉ children d → clusterNode cfg st d !! i = st !! i.
Proof.
  intros Hi. unfold clusterNode.
  destruct (negb (isLeaf d)); [|done].
  destruct (allChildrenAreLeaves st d); [|done].
  destruct (2 <? length (children d))%nat.
  - apply (alterAll_other
             (λ ic, setXY (gridPosition cfg d (length (children d)) ic.1).1
                          (gridPosition cfg d (length (children d)) ic.1).2)
             snd).
    intros [k c] Hkc. simpl. intros ->.
    apply elem_of_lookup_imap_1 in Hkc as (k' & c' & [= -> ->] & Hc).
    apply Hi. by eapply list_elem_of_lookup_2.
  - apply (alterAll_other
             (λ _ ch, setXY (x d + leafHorizontalOffset cfg * direction d)
                            (y ch) ch) id).
    intros c Hc. simpl. by intros ->.
Qed.

Lemma clusterNode_skips cfg st d :
  allChildrenAreLeaves st d = false → clusterNode cfg st d = st.
Proof.
  intros H. unfold clusterNode. rewrite H. by destruct (negb (isLeaf d)).
Qed.

Lemma clusterStep_shape cfg st k : shape (clusterStep cfg st k) = shape st.
Proof.
  unfold clusterStep. destruct (st !! k); [|done]. apply clusterNode_shape.
Qed.

(** A run of clustering steps leaves a node alone when none of the
    visited parents clusters it. *)
Lemma clusterSteps_other cfg s i ks :
  (∀ k dk, k ∈ ks → s !! k = Some dk → i ∈ children dk →
           allChildrenAreLeaves s dk = false) →
  ∀ st, shape st = shape s →
  fold_left (clusterStep cfg) ks st !! i = st !! i
  ∧ shape (fold_left (clusterStep cfg) ks st) = shape s.
Proof.
  induction ks as [|k ks IH]; intros Hks st Hsh; [done|].
  simpl.
  assert (shape (clusterStep cfg st k) = shape s) as Hsh'
    by (by rewrite clusterStep_shape).
  destruct (IH (λ k' dk Hk', Hks k' dk (list_elem_of_further _ _ _ Hk'))
               _ Hsh') as [Hi Hshape].
  split; [|done]. rewrite Hi. unfold clusterStep.
  destruct (st !! k) as [dk'|] eqn:Ek; [|done].
  destruct (shape_lookup _ _ _ _ Hsh Ek) as (dk & Hdk & Hc).
  destruct (decide (i ∈ children dk')) as [Hin|Hout].
  - rewrite clusterNode_skips; [done|].
    rewrite (allChildrenAreLeaves_shape s st dk dk' Hsh Hc).
    apply (Hks k dk); [by left|done|by rewrite <- Hc].
  - by apply clusterNode_other.
Qed.

(** A node that no all-leaves parent lists is where the inversion left
    it. *)
Lemma clusterPass_notClustered cfg s i :
  notClustered s i → clusterPass cfg s !! i = s !! i.
Proof.
  intros Hn. unfold clusterPass.
  apply (clusterSteps_other cfg s i); [|done].
  intros k dk _ Hk Hin. by apply (Hn k dk).
Qed.

Lemma not_all_leaves s j cs :
  j ∈ cs → leafAt s j = false → forallb (leafAt s) cs = false.
Proof.
  intros Hin Hj. induction cs as [|c cs IH]; [by apply elem_of_nil in Hin|].
  cbn [forallb]. apply elem_of_cons in Hin as [<-|Hin].
  - by rewrite Hj.
  - rewrite IH by done. apply andb_false_r.
Qed.

Lemma placeInColumn_fold cfg d cs st i n :
  i ∈ cs → st !! i = Some n →
  fold_left (placeInColumn cfg d) cs st !! i = Some (toColumn cfg d n).
Proof.
  intros Hin. revert st n.
  induction cs as [|c cs IH]; intros st n Hn; [by apply elem_of_nil in Hin|].
  simpl. unfold placeInColumn at 2. fold (toColumn cfg d).
  destruct (decide (i = c)) as [->|Hne].
  - destruct (decide (c ∈ cs)) as [Hc|Hc].
    + rewrite (IH Hc _ (toColumn cfg d n)); [done|].
      by rewrite list_lookup_alter_eq, Hn.
    + change (fold_left (placeInColumn cfg d) cs)
        with (alterAll (λ _ : nat, toColumn cfg d) id cs).
      rewrite alterAll_other by (intros a Ha; simpl; by intros ->).
      by rewrite list_lookup_alter_eq, Hn.
  - apply elem_of_cons in Hin as [?|Hin]; [done|].
    apply (IH Hin). by rewrite list_lookup_alter_ne.
Qed.

(** A parent with at most two children, all leaves, puts each child in
    one column next to itself and keeps the child's cross-axis
    coordinate. *)
Lemma clusterPass_single_column cfg s j dj i n :
  s !! j = Some dj → s !! i = Some n →
  isLeaf dj = false → allChildrenAreLeaves s dj = true →
  (length (children dj) ≤ 2)%nat →
  i ∈ children dj → onlyParent s j i →
  clusterPass cfg s !! i = Some (toColumn cfg dj n).
Proof.
  intros Hj Hi Hleaf Hall Hlen Hin Honly.
  assert (leafAt s j = false) as Hlj by (unfold leafAt; by rewrite Hj).
  assert (j < length s)%nat as Hjlt by (by eapply lookup_lt_Some).
  unfold clusterPass.
  replace (seq 0 (length s))
    with (seq 0 j ++ j :: seq (S j) (length s - S j)).
  2:{ change (j :: seq (S j) (length s - S j))
        with (seq j (S (length s - S j))).
      rewrite <- seq_app. f_equal. lia. }
  rewrite fold_left_app. simpl.
  set (st1 := fold_left (clusterStep cfg) (seq 0 j) s).
  assert (∀ ks : list nat, j ∉ ks →
          ∀ k dk, k ∈ ks → s !! k = Some dk → i ∈ children dk →
                  allChildrenAreLeaves s dk = false) as Hother.
  { intros ks Hks k dk Hk Hdk Hik.
    rewrite (Honly k dk Hdk Hik) in Hk. done. }
  assert (j ∉ seq 0 j) as Hpre by (rewrite elem_of_seq; lia).
  assert (j ∉ seq (S j) (length s - S j)) as Hpost
    by (rewrite elem_of_seq; lia).
  destruct (clusterSteps_other cfg s i (seq 0 j) (Hother _ Hpre) s eq_refl)
    as [Hi1 Hsh1].
  destruct (clusterSteps_other cfg s j (seq 0 j)) with (st := s)
    as [Hj1 _]; [|done|].
  { intros k dk _ Hdk Hjk. unfold allChildrenAreLeaves.
    by apply (not_all_leaves s j). }
  fold st1 in Hi1, Hsh1, Hj1. rewrite Hi in Hi1. rewrite Hj in Hj1.
  assert (shape (clusterStep cfg st1 j) = shape s) as Hsh2
    by (by rewrite clusterStep_shape).
  destruct (clusterSteps_other cfg s i _ (Hother _ Hpost) _ Hsh2) as [-> _].
  unfold clusterStep. rewrite Hj1. unfold clusterNode.
  rewrite Hleaf. simpl.
  rewrite (allChildrenAreLeaves_shape s st1 dj dj Hsh1 eq_refl), Hall.
  destruct (2 <? length (children dj))%nat eqn:E.
  - apply Nat.ltb_lt in E. lia.
  - by apply placeInColumn_fold.
Qed.

Lemma invertedLayout_map s : invertedLayout s = map inverted s.
Proof.
  unfold invertedLayout, inversionPass, storeOriginalX, swapAxes.
  by rewrite !map_map.
Qed.

Lemma invertedLayout_lookup s i :
  invertedLayout s !! i = inverted <$> s !! i.
Proof. rewrite invertedLayout_map. apply lookup_map. Qed.

Lemma inverted_side d : getNodeSide (inverted d) = getNodeSide d.
Proof.
  unfold inverted, invertNode.
  by destruct (getNodeSide (setOriginalX (y d) (setXY (y d) (x d) d))) eqn:E.
Qed.

Lemma inverted_children d : children (inverted d) = children d.
Proof.
  unfold inverted, invertNode.
  by destruct (getNodeSide (setOriginalX (y d) (setXY (y d) (x d) d))).
Qed.

Lemma inverted_originalX d : originalX (inverted d) = y d.
Proof.
  unfold inverted, invertNode.
  by destruct (getNodeSide (setOriginalX (y d) (setXY (y d) (x d) d))).
Qed.

Lemma inverted_y d : y (inverted d) = x d.
Proof.
  unfold inverted, invertNode.
  by destruct (getNodeSide (setOriginalX (y d) (setXY (y d) (x d) d))).
Qed.

Lemma inverted_x d :
  x (inverted d) = match getNodeSide d with Left => - y d | Right => y d end.
Proof.
  unfold inverted, invertNode.
  change (getNodeSide (setOriginalX (y d) (setXY (y d) (x d) d)))
    with (getNodeSide d).
  by destruct (getNodeSide d).
Qed.

(** The inversion writes [-originalX], never [-x]: a second run finds
    the same [originalX] and writes the same value. *)
Lemma invertNode_again d : invertNode (invertNode d) = invertNode d.
Proof.
  unfold invertNode at 2.
  destruct (getNodeSide d) eqn:E; unfold invertNode.
  - change (getNodeSide (setXY (- originalX d) (y d) d)) with (getNodeSide d).
    by rewrite E.
  - by rewrite E.
Qed.

Lemma inversionPass_again s : inversionPass (inversionPass s) = inversionPass s.
Proof.
  unfold inversionPass. rewrite map_map. apply map_ext, invertNode_again.
Qed.

Lemma shape_inverted s : shape (invertedLayout s) = shape s.
Proof.
  rewrite invertedLayout_map. unfold shape. rewrite map_map.
  apply map_ext, inverted_children.
Qed.

Lemma sameLayout_shape s1 s2 : sameLayout s1 s2 → shape s1 = shape s2.
Proof.
  unfold shape. induction 1 as [|a b l1 l2 (_ & _ & Hc) _ IH]; [done|].
  simpl. by rewrite Hc, IH.
Qed.

Lemma notClustered_shape s1 s2 i :
  shape s1 = shape s2 → notClustered s1 i → notClustered s2 i.
Proof.
  intros Hsh Hn j d2 Hj Hin.
  destruct (shape_lookup s1 s2 j d2 (eq_sym Hsh) Hj) as (d1 & Hd1 & Hc).
  rewrite (allChildrenAreLeaves_shape s1 s2 d1 d2 (eq_sym Hsh) Hc).
  apply (Hn j d1 Hd1). by rewrite <- Hc.
Qed.

Lemma onlyParent_shape s1 s2 j i :
  shape s1 = shape s2 → onlyParent s1 j i → onlyParent s2 j i.
Proof.
  intros Hsh Ho k d2 Hk Hin.
  destruct (shape_lookup s1 s2 k d2 (eq_sym Hsh) Hk) as (d1 & Hd1 & Hc).
  apply (Ho k d1 Hd1). by rewrite <- Hc.
Qed.

(** The final position of a child in a single column, in terms of the
    tree layout's coordinates. *)
Lemma clusteredLayout_single_column cfg s j p i d :
  s !! j = Some p → s !! i = Some d →
  i ∈ children p → allChildrenAreLeaves s p = true →
  (length (children p) ≤ 2)%nat → onlyParent s j i →
  ∃ n, clusteredLayout cfg s !! i = Some n
       ∧ x n = x (inverted p)
               + leafHorizontalOffset cfg * direction p
       ∧ y n = x d.
Proof.
  intros Hj Hi Hin Hall Hlen Honly.
  pose proof (shape_inverted s) as Hsh.
  exists (toColumn cfg (inverted p) (inverted d)). split.
  - unfold clusteredLayout.
    apply (clusterPass_single_column cfg _ j).
    + by rewrite invertedLayout_lookup, Hj.
    + by rewrite invertedLayout_lookup, Hi.
    + unfold isLeaf. rewrite inverted_children.
      destruct (children p); [by apply elem_of_nil in Hin|done].
    + by rewrite (allChildrenAreLeaves_shape s _ p _ Hsh (inverted_children p)).
    + by rewrite inverted_children.
    + by rewrite inverted_children.
    + by apply (onlyParent_shape s).
  - unfold toColumn, direction. simpl. rewrite inverted_side, inverted_y. done.
Qed.

(** C3 on the failing input: a root with exactly three leaf children,
    laid out by the tree layout at cross-axis -100, 0 and 100.  The
    clustering pass takes the two-column branch: the children end at
    (350, -120), (650, -120) and (350, 120), so the cross-axis
    coordinates are rewritten and the children are not in one column. *)
Theorem three_leaf_children_put_in_grid :
  ∃ r a b c,
    clusteredLayout defaultConfig threeLeaves = [r; a; b; c]
    ∧ map children threeLeaves = [[1; 2; 3]; []; []; []]%nat
    ∧ map x threeLeaves = [0; -100; 0; 100]
    ∧ (x a == 350 ∧ y a == -120)
    ∧ (x b == 650 ∧ y b == -120)
    ∧ (x c == 350 ∧ y c == 120)
    ∧ ¬ y a == -100 ∧ ¬ x a == x b.
Proof.
  eexists _, _, _, _. split; [reflexivity|].
  split_and!; try reflexivity; by vm_compute.
Qed.

(** C4, as stated, fails on a node with four leaf children, which are
    put in the two-column grid: with the subtree on the left the first
    leaf ends at -1650, with the same subtree on the right at 1350. *)
Lemma final_x_not_mirrored_in_grid :
  (∃ nL nR,
     clusteredLayout defaultConfig (inheritancePass (sidedGroupOfFour "left"))
       !! 2%nat = Some nL
     ∧ clusteredLayout defaultConfig
         (inheritancePass (sidedGroupOfFour "right")) !! 2%nat = Some nR
     ∧ getNodeSide nL = Left ∧ getNodeSide nR = Right
     ∧ x nL == -1650 ∧ x nR == 1350)
  ∧ ¬ final_x_mirrored.
Proof.
  split.
  - eexists _, _. split_and!; reflexivity.
  - intros H.
    assert (sameLayout (inheritancePass (sidedGroupOfFour "left"))
                       (inheritancePass (sidedGroupOfFour "right"))) as Hsame
      by (repeat constructor).
    specialize (H defaultConfig (inheritancePass (sidedGroupOfFour "left"))
                  (inheritancePass (sidedGroupOfFour "right")) 2%nat _ _ _ _
                  Hsame eq_refl eq_refl eq_refl eq_refl eq_refl eq_refl).
    vm_compute in H. discriminate H.
Qed.

(** Two stores with the same tree and tree layout in which the node
    [i] has effective side left, resp. right: the inversion, and the
    clustering outside the grid. *)
Lemma mirrored_outside_grid cfg sL sR i dL dR :
  sameLayout sL sR →
  sL !! i = Some dL → sR !! i = Some dR →
  getNodeSide dL = Left → getNodeSide dR = Right →
  (∃ nL nR,
     invertedLayout sL !! i = Some nL ∧ invertedLayout sR !! i = Some nR
     ∧ originalX nL = originalX nR
     ∧ x nL = - originalX nL ∧ x nR = originalX nR
     ∧ x nL == - x nR)
  ∧ inversionPass (invertedLayout sL) = invertedLayout sL
  ∧ (notClustered sL i →
     ∃ nL nR,
       clusteredLayout cfg sL !! i = Some nL
       ∧ clusteredLayout cfg sR !! i = Some nR
       ∧ x nL == - x nR)
  ∧ (∀ j pL pR,
       sL !! j = Some pL → sR !! j = Some pR →
       getNodeSide pL = Left → getNodeSide pR = Right →
       i ∈ children pL → allChildrenAreLeaves sL pL = true →
       (length (children pL) ≤ 2)%nat → onlyParent sL j i →
       ∃ nL nR,
         clusteredLayout cfg sL !! i = Some nL
         ∧ clusteredLayout cfg sR !! i = Some nR
         ∧ x nL == - x nR
         ∧ y nL = x dL ∧ y nR = x dL).
Proof.
  intros Hsame HL HR HsL HsR.
  pose proof (sameLayout_shape _ _ Hsame) as Hsh.
  assert (∀ k a b, sL !! k = Some a → sR !! k = Some b →
                   x a = x b ∧ y a = y b ∧ children a = children b) as Hat.
  { intros k a b Ha Hb. exact (Forall2_lookup_lr _ sL sR k a b Hsame Ha Hb). }
  destruct (Hat i dL dR HL HR) as (Hx & Hy & _).
  assert (x (inverted dL) == - x (inverted dR)) as Hneg.
  { rewrite !inverted_x, HsL, HsR, Hy. lra. }
  split_and!.
  - exists (inverted dL), (inverted dR).
    rewrite !invertedLayout_lookup, HL, HR.
    rewrite !inverted_originalX, !inverted_x, HsL, HsR.
    split_and!; try done. rewrite Hy. lra.
  - unfold invertedLayout. apply inversionPass_again.
  - intros Hn. exists (inverted dL), (inverted dR).
    unfold clusteredLayout. rewrite !clusterPass_notClustered.
    + by rewrite !invertedLayout_lookup, HL, HR.
    + apply (notClustered_shape sL); [|done].
      by rewrite shape_inverted.
    + apply (notClustered_shape sL); [|done].
      by rewrite shape_inverted.
  - intros j pL pR HpL HpR HdL HdR Hin Hall Hlen Honly.
    destruct (Hat j pL pR HpL HpR) as (Hpx & Hpy & Hpc).
    destruct (clusteredLayout_single_column cfg sL j pL i dL)
      as (nL & HnL & HxL & HyL); try done.
    destruct (clusteredLayout_single_column cfg sR j pR i dR)
      as (nR & HnR & HxR & HyR); try done.
    { by rewrite <- Hpc. }
    { by rewrite (allChildrenAreLeaves_shape sL sR pL pR (eq_sym Hsh)
                    (eq_sym Hpc)). }
    { by rewrite <- Hpc. }
    { by apply (onlyParent_shape sL). }
    exists nL, nR. split_and!; try done.
    + rewrite HxL, HxR, !inverted_x. unfold direction.
      rewrite HdL, HdR, Hpy. lra.
    + by rewrite HyR, Hx.
Qed.

End ClusterFacts.

(** ** Bounding rectangles *)

Module BoundsFacts.
Import Layout Spec ExtremeFacts.

Lemma extend_fold ns e :
  minX (fold_left extend ns e) = fold_left jsMin (lefts ns) (minX e)
  ∧ maxX (fold_left extend ns e) = fold_left jsMax (rights ns) (maxX e)
  ∧ minY (fold_left extend ns e) = fold_left jsMin (tops ns) (minY e)
  ∧ maxY (fold_left extend ns e) = fold_left jsMax (bottoms ns) (maxY e).
Proof.
  revert e. induction ns as [|d ns IH]; intros e; [done|].
  simpl. destruct (IH (extend e d)) as (-> & -> & -> & ->). done.
Qed.

(** The rectangle of a non-empty list of nodes. *)
Lemma calculateCategoryBounds_cons d ns padding :
  ∃ mx Mx my My,
    fold_left jsMin (lefts ns) (Some (x d - nodeWidth d / 2)) = Some mx
    ∧ fold_left jsMax (rights ns) (Some (x d + nodeWidth d / 2)) = Some Mx
    ∧ fold_left jsMin (tops ns) (Some (y d - nodeHeight d / 2)) = Some my
    ∧ fold_left jsMax (bottoms ns) (Some (y d + nodeHeight d / 2)) = Some My
    ∧ my <= y d - nodeHeight d / 2 ∧ y d + nodeHeight d / 2 <= My
    ∧ calculateCategoryBounds (d :: ns) padding
      = Some {| rectX := mx - padding; rectY := my - padding;
                rectWidth := Mx - mx + 2 * padding;
                rectHeight := My - my + 2 * padding |}.
Proof.
  destruct (foldMin_Some (lefts ns) (x d - nodeWidth d / 2)) as (mx & Hmx & _).
  destruct (foldMax_Some (rights ns) (x d + nodeWidth d / 2)) as (Mx & HMx & _).
  destruct (foldMin_Some (tops ns) (y d - nodeHeight d / 2))
    as (my & Hmy & Hle & _).
  destruct (foldMax_Some (bottoms ns) (y d + nodeHeight d / 2))
    as (My & HMy & Hge & _).
  exists mx, Mx, my, My. split_and!; try done.
  unfold calculateCategoryBounds. cbn [fold_left].
  destruct (extend_fold ns (extend (mkExtremes None None None None) d))
    as (-> & -> & -> & ->).
  change (minX (extend (mkExtremes None None None None) d))
    with (Some (x d - nodeWidth d / 2)).
  change (maxX (extend (mkExtremes None None None None) d))
    with (Some (x d + nodeWidth d / 2)).
  change (minY (extend (mkExtremes None None None None) d))
    with (Some (y d - nodeHeight d / 2)).
  change (maxY (extend (mkExtremes None None None None) d))
    with (Some (y d + nodeHeight d / 2)).
  by rewrite Hmx, HMx, Hmy, HMy.
Qed.

Lemma calculateCategoryBounds_nil padding :
  calculateCategoryBounds [] padding = None.
Proof. reflexivity. Qed.

(** With footprints of non-negative height the rectangle is at least
    twice the padding high. *)
Lemma bounds_height ns padding b :
  Forall (λ d, 0 <= nodeHeight d) ns →
  calculateCategoryBounds ns padding = Some b →
  2 * padding <= rectHeight b.
Proof.
  destruct ns as [|d ns]; [done|].
  intros Hh%Forall_inv.
  destruct (calculateCategoryBounds_cons d ns padding)
    as (mx & Mx & my & My & _ & _ & _ & _ & Hlo & Hhi & ->).
  intros [= <-]. cbn [rectHeight]. cbv beta in Hh. halves. lra.
Qed.

(** Moving every node down by [offset] moves the rectangle down by
    [offset] and leaves its other three fields alone. *)
Lemma bounds_shift offset ns padding b :
  calculateCategoryBounds ns padding = Some b →
  ∃ b', calculateCategoryBounds (map (shiftY offset) ns) padding = Some b'
        ∧ rectY b' == rectY b + offset
        ∧ rectHeight b' == rectHeight b
        ∧ rectX b' = rectX b ∧ rectWidth b' = rectWidth b.
Proof.
  destruct ns as [|d ns]; [done|].
  destruct (calculateCategoryBounds_cons d ns padding)
    as (mx & Mx & my & My & Hmx & HMx & Hmy & HMy & _ & _ & ->).
  intros [= <-].
  change (map (shiftY offset) (d :: ns))
    with (shiftY offset d :: map (shiftY offset) ns).
  destruct (calculateCategoryBounds_cons (shiftY offset d)
              (map (shiftY offset) ns) padding)
    as (mx' & Mx' & my' & My' & Hmx' & HMx' & Hmy' & HMy' & _ & _ & ->).
  eexists. split; [reflexivity|]. cbn [rectX rectY rectWidth rectHeight].
  assert (lefts (map (shiftY offset) ns) = lefts ns) as El
    by (unfold lefts; by rewrite map_map).
  assert (rights (map (shiftY offset) ns) = rights ns) as Er
    by (unfold rights; by rewrite map_map).
  rewrite El in Hmx'. rewrite Er in HMx'.
  change (x (shiftY offset d)) with (x d) in Hmx', HMx'.
  change (nodeWidth (shiftY offset d)) with (nodeWidth d) in Hmx', HMx'.
  assert (mx' = mx) as -> by congruence.
  assert (Mx' = Mx) as -> by congruence.
  assert (my' == my + offset) as Hy.
  { eapply (foldMin_shift offset (tops ns) (tops (map (shiftY offset) ns)));
      [| |exact Hmy|exact Hmy'].
    - unfold tops. rewrite map_map. clear.
      induction ns as [|e ns IH]; constructor;
        [cbn [shiftY setXY y nodeHeight]; halves; lra|done].
    - cbn [shiftY setXY y nodeHeight]. halves. lra. }
  assert (My' == My + offset) as HY.
  { eapply (foldMax_shift offset (bottoms ns)
              (bottoms (map (shiftY offset) ns)));
      [| |exact HMy|exact HMy'].
    - unfold bottoms. rewrite map_map. clear.
      induction ns as [|e ns IH]; constructor;
        [cbn [shiftY setXY y nodeHeight]; halves; lra|done].
    - cbn [shiftY setXY y nodeHeight]. halves. lra. }
  split_and!; try done; lra.
Qed.

End BoundsFacts.

(** ** Root centering *)

Module CenteringFacts.
Import Layout Examples ExtremeFacts ListFacts.

Lemma rootCentering_no_categories s : rootCentering (s, []) = (s, []).
Proof. reflexivity. Qed.

(** What the pass does when there is a category: every node and every
    rectangle moves by the same offset.  The root lands on the midpoint
    the rectangles had before the pass, and the midpoint moves on by
    that offset. *)
Lemma rootCentering_effect s cb root center :
  s !! 0%nat = Some root →
  categoriesVerticalCenter cb = Some center →
  ∃ root' center',
    (rootCentering (s, cb)).1 !! 0%nat = Some root'
    ∧ categoriesVerticalCenter (rootCentering (s, cb)).2 = Some center'
    ∧ y root' == center
    ∧ center' == center + (center - y root).
Proof.
  intros Hroot Hc.
  destruct cb as [|kb cb]; [done|].
  unfold rootCentering. cbn [snd fst length Nat.ltb Nat.leb].
  rewrite Hroot, Hc. cbn [snd fst].
  set (off := center - y root).
  set (cb0 := kb :: cb) in *.
  unfold categoriesVerticalCenter in Hc.
  destruct (minOf (map (λ kb, rectY kb.2) cb0)) as [m|] eqn:Em; [|done].
  destruct (maxOf (map (λ kb, rectY kb.2 + rectHeight kb.2) cb0))
    as [M|] eqn:EM; [|done].
  simpl in Hc. injection Hc as <-.
  destruct (minOf_shift off (map (λ kb, rectY kb.2) cb0)
              (map (λ kb, rectY kb.2)
                   (map (λ kb, (kb.1, shiftRectY off kb.2)) cb0)) m)
    as (m' & Hm' & Hmm); [|exact Em|].
  { rewrite map_map. clear.
    induction cb0 as [|e l IH]; constructor; [simpl; lra|done]. }
  destruct (maxOf_shift off (map (λ kb, rectY kb.2 + rectHeight kb.2) cb0)
              (map (λ kb, rectY kb.2 + rectHeight kb.2)
                   (map (λ kb, (kb.1, shiftRectY off kb.2)) cb0)) M)
    as (M' & HM' & HMM); [|exact EM|].
  { rewrite map_map. clear.
    induction cb0 as [|e l IH]; constructor; [simpl; lra|done]. }
  exists (shiftY off root), ((m' + M') / 2). split_and!.
  - by rewrite lookup_map, Hroot.
  - unfold categoriesVerticalCenter. by rewrite Hm', HM'.
  - unfold off. cbn [shiftY setXY y]. lra.
  - unfold off in *. halves. lra.
Qed.

(** C2 on the failing input: a root with the leaf children "a" (in
    category "A") and "b".  Before the pass the root is at 0 and the
    rectangle of "A" spans -255.675 .. 155.675, midpoint -50.  The pass
    moves everything by -50: the root ends at -50 and the rectangle at
    -305.675 .. 105.675, midpoint -100.  The root is not on the midpoint
    of the rectangles as they stand after the pass. *)
Theorem root_centering_misses_moved_rectangles :
  ∃ s0 cb0 root0 center0 s cb root center,
    aggregate (clusteredLayout defaultConfig
                 (inheritancePass (sizingPass defaultConfig twoLeaves)))
    = Some (s0, cb0)
    ∧ s0 !! 0%nat = Some root0
    ∧ categoriesVerticalCenter cb0 = Some center0
    ∧ y root0 == 0 ∧ center0 == -50
    ∧ layoutPipeline defaultConfig twoLeaves = Some (s, cb)
    ∧ (s, cb) = rootCentering (s0, cb0)
    ∧ s !! 0%nat = Some root
    ∧ categoriesVerticalCenter cb = Some center
    ∧ y root == -50 ∧ center == -100
    ∧ ¬ y root == center.
Proof.
  eexists _, _, _, _, _, _, _, _.
  split; [vm_compute; reflexivity|].
  split; [reflexivity|].
  split; [vm_compute; reflexivity|].
  split; [reflexivity|]. split; [reflexivity|].
  split; [vm_compute; reflexivity|].
  split; [vm_compute; reflexivity|].
  split; [reflexivity|].
  split; [vm_compute; reflexivity|].
  split; [reflexivity|]. split; [reflexivity|].
  by vm_compute.
Qed.

End CenteringFacts.

(** ** Category groups *)

Module GroupFacts.
Import Js JsObject Layout Spec ListFacts.

Lemma goodRefs_mono n m refs : (n ≤ m)%nat → goodRefs n refs → goodRefs m refs.
Proof.
  intros Hnm (Hne & Hnd & Hlt). split_and!; [done..|].
  eapply Forall_impl; [exact Hlt|]. intros i Hi. simpl in Hi. lia.
Qed.

Lemma goodRefs_snoc n refs : goodRefs n refs → goodRefs (S n) (refs ++ [n]).
Proof.
  intros (Hne & Hnd & Hlt). split_and!.
  - by destruct refs.
  - apply NoDup_app. split_and!; [done| |apply NoDup_singleton].
    intros i Hi ->%list_elem_of_singleton.
    rewrite Forall_forall in Hlt. specialize (Hlt _ Hi). lia.
  - apply Forall_app. split.
    + eapply Forall_impl; [exact Hlt|]. intros i Hi. simpl in Hi. lia.
    + repeat constructor.
Qed.

Lemma pushGroup_key_in k c i groups :
  k ∈ map fst (pushGroup c i groups) → k = c ∨ k ∈ map fst groups.
Proof.
  induction groups as [|[k' members] rest IH]; simpl.
  - intros ->%list_elem_of_singleton. by left.
  - destruct (String.eqb_spec k' c) as [->|Hne]; simpl.
    + intros H. by right.
    + intros [->|H]%elem_of_cons.
      * right. by left.
      * destruct (IH H) as [->|?]; [by left|]. right. by right.
Qed.

Lemma pushGroup_good n c groups :
  goodGroups n groups → goodGroups (S n) (pushGroup c n groups).
Proof.
  intros [Hnd Hall]. induction groups as [|[k members] rest IH]; simpl.
  - split; [apply NoDup_singleton|].
    constructor; [|constructor].
    split_and!; [done|apply NoDup_singleton|].
    constructor; [simpl; lia|constructor].
  - apply NoDup_cons in Hnd as [Hk Hnd]. apply Forall_cons in Hall as [Hg Hall].
    destruct (String.eqb_spec k c) as [->|Hne].
    + split; [by apply NoDup_cons|].
      constructor; [by apply goodRefs_snoc|].
      eapply Forall_impl; [exact Hall|].
      intros g. by apply goodRefs_mono; lia.
    + destruct (IH Hnd Hall) as [Hnd' Hall']. split.
      * simpl. apply NoDup_cons. split; [|done].
        intros [->|?]%pushGroup_key_in; done.
      * constructor; [|done]. eapply goodRefs_mono; [|exact Hg]. lia.
Qed.

Lemma goodGroups_mono n m groups :
  (n ≤ m)%nat → goodGroups n groups → goodGroups m groups.
Proof.
  intros Hnm [Hnd Hall]. split; [done|].
  eapply Forall_impl; [exact Hall|]. intros g. by apply goodRefs_mono.
Qed.

Lemma groupStep_good n d groups groups' :
  groupStep groups (n, d) = Some groups' →
  goodGroups n groups → goodGroups (S n) groups'.
Proof.
  unfold groupStep. cbn [fst snd]. intros Hstep H.
  assert (goodGroups (S n) groups) as Hmono
    by (eapply goodGroups_mono; [|exact H]; lia).
  destruct (inheritedCategory d) as [c|]; [|by injection Hstep as <-].
  destruct (truthy (Some c)); [|by injection Hstep as <-].
  destruct (inherited c); [done|]. injection Hstep as <-.
  by apply pushGroup_good.
Qed.

Lemma empty_not_inherited : EmptyString ∉ objectPrototypeKeys.
Proof. apply (bool_decide_unpack _). by vm_compute. Qed.

(** The callback throws exactly on a category named like a property of
    the prototype. *)
Lemma groupStep_None groups n d :
  groupStep groups (n, d) = None
  ↔ ∃ c, inheritedCategory d = Some c ∧ c ∈ objectPrototypeKeys.
Proof.
  unfold groupStep, inherited. cbn [fst snd].
  destruct (inheritedCategory d) as [c|].
  - destruct (truthy (Some c)) eqn:Et.
    + case_bool_decide as Hin.
      * split; [|done]. intros _. by exists c.
      * split; [done|]. intros (c' & Heq & Hc).
        injection Heq as Heq. by subst c'.
    + split; [done|]. intros (c' & Heq & Hc).
      injection Heq as Heq. subst c'.
      simpl in Et. destruct (String.eqb_spec c "") as [E|]; [|done].
      rewrite E in Hc. by apply empty_not_inherited in Hc.
  - split; [done|]. by intros (c & [=] & _).
Qed.

Lemma categoryGroups_snoc (s : Store) d :
  categoryGroups (s ++ [d])
  = (groups ← categoryGroups s; groupStep groups (length s, d)).
Proof.
  unfold categoryGroups. rewrite imap_app, fold_left_app. simpl.
  by rewrite Nat.add_0_r.
Qed.

Lemma plainCategories_snoc (s : Store) d :
  plainCategories (s ++ [d])
  ↔ plainCategories s
    ∧ ∀ c, inheritedCategory d = Some c → c ∉ objectPrototypeKeys.
Proof. unfold plainCategories. by rewrite Forall_app, Forall_singleton. Qed.

(** If the grouping loop completes, no category is named like a
    property of the prototype, and the groups are good. *)
Lemma categoryGroups_inv (s : Store) gs :
  categoryGroups s = Some gs →
  plainCategories s ∧ goodGroups (length s) gs.
Proof.
  revert gs. induction s as [|d s IH] using rev_ind; intros gs.
  - intros [= <-]. split; [constructor|].
    split; [apply NoDup_nil_2|constructor].
  - rewrite categoryGroups_snoc.
    destruct (categoryGroups s) as [gs0|]; [|done].
    cbn [mbind option_bind]. intros Hstep.
    destruct (IH gs0 eq_refl) as [Hplain Hgood].
    split.
    + apply plainCategories_snoc. split; [done|]. intros c Hc Hin.
      assert (groupStep gs0 (length s, d) = None) as E
        by (apply groupStep_None; by exists c).
      congruence.
    + rewrite length_app. simpl. rewrite Nat.add_1_r.
      by eapply groupStep_good.
Qed.

(** The loop completes when no category is named like a property of
    the prototype. *)
Lemma categoryGroups_Some (s : Store) :
  plainCategories s →
  ∃ gs, categoryGroups s = Some gs ∧ goodGroups (length s) gs.
Proof.
  induction s as [|d s IH] using rev_ind.
  - intros _. exists []. split; [done|].
    split; [apply NoDup_nil_2|constructor].
  - intros [Hs Hd]%plainCategories_snoc.
    destruct (IH Hs) as (gs0 & Hgs0 & Hgood).
    rewrite categoryGroups_snoc, Hgs0. cbn [mbind option_bind].
    destruct (groupStep gs0 (length s, d)) as [gs|] eqn:Hstep.
    + exists gs. split; [done|].
      rewrite length_app. simpl. rewrite Nat.add_1_r.
      by eapply groupStep_good.
    + apply groupStep_None in Hstep as (c & Hc & Hin).
      by destruct (Hd c Hc).
Qed.

(** The grouping throws exactly when some category is named like a
    property of the prototype. *)
Lemma categoryGroups_None (s : Store) :
  categoryGroups s = None ↔ ¬ plainCategories s.
Proof.
  split.
  - intros E Hplain. destruct (categoryGroups_Some s Hplain) as (? & ? & _).
    congruence.
  - intros Hn. destruct (categoryGroups s) as [gs|] eqn:E; [|done].
    by destruct (categoryGroups_inv s gs E).
Qed.

(** [Object.entries] only reorders. *)
Lemma insertIndex_perm {A} n (e : string * A) l :
  insertIndex n e l ≡ₚ (n, e) :: l.
Proof.
  induction l as [|[m e'] l IH]; simpl; [done|].
  destruct (n <? m)%N; [done|]. rewrite IH. apply Permutation_swap.
Qed.

Lemma entries_perm {A} (o : Obj A) : entries o ≡ₚ o.
Proof.
  unfold entries. induction o as [|e o IH]; [done|].
  unfold indexed. cbn [foldr]. fold (indexed o).
  unfold isIndex at 1.
  destruct (arrayIndex e.1) as [n|] eqn:E.
  - rewrite filter_cons_False by (unfold isIndex; by rewrite E).
    change (map snd (insertIndex n e (indexed o)))
      with (snd <$> insertIndex n e (indexed o)).
    rewrite insertIndex_perm. cbn [fmap list_fmap snd app].
    by constructor.
  - rewrite filter_cons_True by (unfold isIndex; by rewrite E).
    rewrite <- Permutation_middle. by constructor.
Qed.

(** Keys that are array indices come first, by ascending index; a
    numeral with a leading zero is no array index. *)
Lemma entries_indices_first :
  map fst (entries [("b", 1); ("10", 2); ("9", 3); ("01", 4); ("a", 5)]%nat)
  = ["9"; "10"; "b"; "01"; "a"]%string.
Proof. reflexivity. Qed.

(** Valid references can all be read. *)
Lemma nodesAt_Some (s : Store) refs :
  Forall (λ i, (i < length s)%nat) refs →
  ∃ ns, nodesAt s refs = Some ns
        ∧ Forall2 (λ i d, s !! i = Some d) refs ns.
Proof.
  intros Hall.
  assert (∃ ns, Forall2 (λ i d, s !! i = Some d) refs ns) as [ns Hns].
  { induction Hall as [|i refs Hi _ [ns IH]]; [by exists []|].
    destruct (lookup_lt_is_Some_2 s i Hi) as [d Hd].
    exists (d :: ns). by constructor. }
  exists ns. split; [|done]. unfold nodesAt. by apply mapM_Some.
Qed.

Lemma mkCategory_Some (s : Store) g :
  goodRefs (length s) g.2 →
  ∃ c, mkCategory s g = Some c ∧ catName c = g.1 ∧ catNodes c = g.2.
Proof.
  intros (Hne & _ & Hlt).
  destruct (nodesAt_Some s g.2 Hlt) as (ns & Hns & Hall).
  unfold mkCategory. rewrite Hns. simpl.
  destruct ns as [|first ns].
  - apply Forall2_nil_inv_r in Hall. done.
  - simpl. by eexists.
Qed.

Lemma categoryData_of_groups (s : Store) groups :
  Forall (λ g, goodRefs (length s) g.2) groups →
  ∃ cd, mapM (mkCategory s) groups = Some cd
        ∧ map catName cd = map fst groups
        ∧ Forall (λ c, goodRefs (length s) (catNodes c)) cd.
Proof.
  induction 1 as [|g groups Hg _ (cd & Hcd & Hnames & Hgood)].
  - by exists [].
  - destruct (mkCategory_Some s g Hg) as (c & Hc & Hn & Hr).
    exists (c :: cd). split_and!.
    + apply mapM_Some. constructor; [done|]. by apply mapM_Some.
    + simpl. by rewrite Hn, Hnames.
    + constructor; [by rewrite Hr|done].
Qed.

(** When no category is named like a property of the prototype, the
    category records exist, have pairwise different names, and each
    lists at least one node, none twice. *)
Lemma categoryData_Some (s : Store) :
  plainCategories s →
  ∃ cd, categoryData s = Some cd
        ∧ NoDup (map catName cd)
        ∧ Forall (λ c, goodRefs (length s) (catNodes c)) cd.
Proof.
  intros Hplain.
  destruct (categoryGroups_Some s Hplain) as (gs & Hgs & Hnd & Hall).
  assert (Forall (λ g, goodRefs (length s) g.2) (entries gs)) as Hall'
    by (by rewrite entries_perm).
  destruct (categoryData_of_groups s _ Hall') as (cd & Hcd & Hnames & Hgood).
  exists cd. split_and!; [|rewrite Hnames|done].
  - unfold categoryData. by rewrite Hgs.
  - change (NoDup (fst <$> entries gs)). by rewrite entries_perm.
Qed.

(** The category records are the groups, one for one. *)
Lemma categoryData_inv (s : Store) cd :
  categoryData s = Some cd →
  ∃ gs, categoryGroups s = Some gs
        ∧ Forall2 (λ g c, mkCategory s g = Some c) (entries gs) cd.
Proof.
  unfold categoryData.
  destruct (categoryGroups s) as [gs|]; [|done]. cbn [mbind option_bind].
  intros Hcd%mapM_Some_1. by exists gs.
Qed.

(** The sort only reorders. *)
Lemma insertByAvgY_perm c l : insertByAvgY c l ≡ₚ c :: l.
Proof.
  induction l as [|h t IH]; simpl; [done|].
  destruct (Qle_bool (avgY c) (avgY h)); [done|].
  rewrite IH. apply Permutation_swap.
Qed.

Lemma sortByAvgY_perm l : sortByAvgY l ≡ₚ l.
Proof.
  induction l as [|c l IH]; simpl; [done|].
  rewrite insertByAvgY_perm. by rewrite IH.
Qed.

Lemma bucket_elem sd cd c :
  c ∈ sortByAvgY (onSide sd cd) → c ∈ cd ∧ catSide c = sd.
Proof.
  rewrite sortByAvgY_perm. unfold onSide.
  intros [Hs Hc]%list_elem_of_filter. split; [done|].
  by destruct (catSide c), sd.
Qed.

Lemma bucket_good n sd cd :
  NoDup (map catName cd) →
  Forall (λ c, goodRefs n (catNodes c)) cd →
  NoDup (map catName (sortByAvgY (onSide sd cd)))
  ∧ Forall (λ c, goodRefs n (catNodes c)) (sortByAvgY (onSide sd cd)).
Proof.
  intros Hnd Hall. split.
  - change (NoDup (catName <$> sortByAvgY (onSide sd cd))).
    rewrite sortByAvgY_perm.
    eapply (sublist_NoDup _ (catName <$> cd)); [exact Hnd|].
    apply fmap_sublist, sublist_filter.
  - rewrite sortByAvgY_perm. apply Forall_forall.
    intros c [_ Hc]%list_elem_of_filter.
    rewrite Forall_forall in Hall. by apply Hall.
Qed.

(** A category is in one bucket only. *)
Lemma buckets_disjoint cd a b :
  NoDup (map catName cd) →
  a ∈ leftCategories cd → b ∈ rightCategories cd →
  catName a ≠ catName b.
Proof.
  intros Hnd [Ha Hsa]%bucket_elem [Hb Hsb]%bucket_elem Hname.
  assert (a = b) as ->; [|congruence].
  apply list_elem_of_lookup in Ha as [i Hi].
  apply list_elem_of_lookup in Hb as [j Hj].
  assert (i = j) as ->; [|congruence].
  eapply NoDup_lookup; [exact Hnd| |].
  - by rewrite lookup_map, Hi.
  - rewrite lookup_map, Hj. simpl. by rewrite Hname.
Qed.

End GroupFacts.

(** ** The sweep of one side *)

Module SweepFacts.
Import Js Layout Spec ExtremeFacts BoundsFacts GroupFacts ListFacts.
Import ClusterFacts.

Lemma lookup_storeBounds_eq k b m : lookupBounds k (storeBounds k b m) = Some b.
Proof.
  induction m as [|[k' b'] m IH]; simpl.
  - by rewrite String.eqb_refl.
  - destruct (String.eqb_spec k' k) as [->|Hne]; simpl.
    + by rewrite String.eqb_refl.
    + by destruct (String.eqb_spec k' k).
Qed.

Lemma lookup_storeBounds_ne k k' b m :
  k ≠ k' → lookupBounds k' (storeBounds k b m) = lookupBounds k' m.
Proof.
  intros Hne. induction m as [|[k0 b0] m IH]; simpl.
  - by destruct (String.eqb_spec k k').
  - destruct (String.eqb_spec k0 k) as [->|Hk]; simpl.
    + by destruct (String.eqb_spec k k').
    + by rewrite IH.
Qed.

Lemma shiftNodes_length offset refs (s : Store) :
  length (shiftNodes offset refs s) = length s.
Proof.
  revert s. induction refs as [|r refs IH]; intros s; [done|].
  unfold shiftNodes in *. simpl. by rewrite IH, length_alter.
Qed.

Lemma shiftNodes_heights offset refs (s : Store) :
  Forall (λ d, 0 <= nodeHeight d) s →
  Forall (λ d, 0 <= nodeHeight d) (shiftNodes offset refs s).
Proof.
  revert s. induction refs as [|r refs IH]; intros s Hs; [done|].
  unfold shiftNodes in *. simpl. apply IH. by apply Forall_alter.
Qed.

Lemma shiftNodes_lookup offset refs (s : Store) i :
  NoDup refs → i ∈ refs →
  shiftNodes offset refs s !! i = shiftY offset <$> s !! i.
Proof.
  intros Hnd. revert s.
  induction Hnd as [|r refs Hr Hnd IH]; intros s Hi;
    [by apply elem_of_nil in Hi|].
  unfold shiftNodes in *. simpl.
  apply elem_of_cons in Hi as [->|Hi].
  - change (fold_left (λ st i, alter (shiftY offset) i st) refs)
      with (alterAll (λ _ : nat, shiftY offset) id refs).
    rewrite alterAll_other by (intros a Ha; simpl; by intros ->).
    apply list_lookup_alter_eq.
  - rewrite (IH _ Hi). rewrite list_lookup_alter_ne; [done|].
    by intros ->.
Qed.

Lemma nodesAt_Forall2 (s : Store) refs ns :
  nodesAt s refs = Some ns ↔ Forall2 (λ i d, s !! i = Some d) refs ns.
Proof. unfold nodesAt. apply mapM_Some. Qed.

(** After the shift the references read the shifted nodes. *)
Lemma nodesAt_shift offset refs (s : Store) ns :
  NoDup refs → nodesAt s refs = Some ns →
  nodesAt (shiftNodes offset refs s) refs = Some (map (shiftY offset) ns).
Proof.
  intros Hnd Hns%nodesAt_Forall2. apply nodesAt_Forall2.
  apply Forall2_same_length_lookup in Hns as [Hlen Hns].
  apply Forall2_same_length_lookup. split; [by rewrite length_map|].
  intros k i d' Hi Hd'.
  apply lookup_map_Some in Hd' as (d & Hd & ->).
  rewrite shiftNodes_lookup; [|done|by eapply list_elem_of_lookup_2].
  by rewrite (Hns k i d Hi Hd).
Qed.

(** One comparison with the last rectangle is enough to extend a stack:
    the earlier ones end above the last one's top edge. *)
Lemma stacked_snoc rs r :
  stacked rs → Forall (λ r, 0 <= rectHeight r) rs →
  (∀ l, last rs = Some l →
        rectY l + rectHeight l + categorySpacing <= rectY r) →
  stacked (rs ++ [r]).
Proof.
  intros Hst Htall Hlast i j ri rj Hij Hi Hj.
  assert (j < length (rs ++ [r]))%nat as Hjlt by (by eapply lookup_lt_Some).
  rewrite length_app in Hjlt. simpl in Hjlt.
  destruct (decide (j < length rs)%nat) as [Hj'|Hj'].
  - rewrite lookup_app_l in Hi by lia. rewrite lookup_app_l in Hj by lia.
    by apply (Hst i j).
  - assert (j = length rs) as -> by lia.
    rewrite lookup_app_l in Hi by lia.
    rewrite lookup_app_r, Nat.sub_diag in Hj by lia. injection Hj as <-.
    destruct (last rs) as [l|] eqn:El.
    2:{ apply last_None in El. subst rs. done. }
    specialize (Hlast l eq_refl).
    rewrite last_lookup in El.
    destruct (decide (i = pred (length rs))) as [->|Hne].
    + rewrite El in Hi. injection Hi as <-. done.
    + assert (rectY ri + rectHeight ri + categorySpacing <= rectY l) as H1
        by (apply (Hst i (pred (length rs))); [lia|done..]).
      assert (0 <= rectHeight l) as H2.
      { rewrite Forall_forall in Htall. apply Htall.
        by eapply list_elem_of_lookup_2. }
      unfold categorySpacing in *. lra.
Qed.

(** The offset after the growth puts the rectangle at least the
    spacing below the previous one. *)
Lemma grownOffset_spec cats st k bounds rs n cb0 :
  SweepInv n cats cb0 k st rs → (k ≤ length cats)%nat →
  ∃ offset, grownOffset cats st k bounds = Some offset
    ∧ ∀ l, last rs = Some l →
        rectY l + rectHeight l + categorySpacing <= rectY bounds + offset.
Proof.
  intros Inv Hk. unfold grownOffset.
  destruct k as [|k]; simpl.
  - eexists. split; [done|].
    intros l Hl. pose proof (inv_count _ _ _ _ _ _ Inv) as Hc.
    destruct rs; [done|discriminate Hc].
  - rewrite Nat.sub_0_r.
    destruct (lookup_lt_is_Some_2 cats k) as [prev Hprev]; [lia|].
    pose proof (inv_count _ _ _ _ _ _ Inv) as Hc.
    destruct (lookup_lt_is_Some_2 rs k) as [pr Hpr]; [lia|].
    rewrite Hprev. simpl.
    rewrite (inv_rects _ _ _ _ _ _ Inv k prev pr Hprev Hpr). simpl.
    assert (last rs = Some pr) as Hlast
      by (rewrite last_lookup, Hc; exact Hpr).
    destruct (Qle_bool (rectY pr + rectHeight pr + categorySpacing)
                       (rectY bounds + cumulativeOffset st)) eqn:E; simpl.
    + eexists. split; [done|]. intros l Hl.
      rewrite Hlast in Hl. injection Hl as <-. by apply Qle_bool_iff.
    + eexists. split; [done|]. intros l Hl.
      rewrite Hlast in Hl. injection Hl as <-. lra.
Qed.

Lemma nodesAt_heights (s : Store) refs ns :
  Forall (λ d, 0 <= nodeHeight d) s → nodesAt s refs = Some ns →
  Forall (λ d, 0 <= nodeHeight d) ns.
Proof.
  intros Hs Hns%nodesAt_Forall2. rewrite Forall_forall in *.
  intros d [k Hk]%list_elem_of_lookup.
  destruct (Forall2_lookup_r _ _ _ _ _ Hns Hk) as (i & _ & Hi).
  apply Hs. by eapply list_elem_of_lookup_2.
Qed.

(** One step of the sweep keeps the invariant and adds a rectangle. *)
Lemma sweepStep_inv n cats cb0 k st rs c :
  NoDup (map catName cats) → cats !! k = Some c →
  goodRefs n (catNodes c) → SweepInv n cats cb0 k st rs →
  ∃ st' r, sweepStep cats st k c = Some st'
           ∧ SweepInv n cats cb0 (S k) st' (rs ++ [r]).
Proof.
  intros Hnd Hc (Hne & Hrefs & Hlt) Inv.
  pose proof (inv_length _ _ _ _ _ _ Inv) as Hlen.
  pose proof (inv_heights _ _ _ _ _ _ Inv) as Hh.
  pose proof (inv_count _ _ _ _ _ _ Inv) as Hcount.
  rewrite <- Hlen in Hlt.
  destruct (nodesAt_Some _ _ Hlt) as (ns & Hns & Hall).
  pose proof (nodesAt_heights _ _ _ Hh Hns) as Hnsh.
  assert (∃ b, calculateCategoryBounds ns categoryPadding = Some b)
    as [b Hb].
  { destruct ns as [|d ns].
    - apply Forall2_nil_inv_r in Hall. done.
    - destruct (calculateCategoryBounds_cons d ns categoryPadding)
        as (? & ? & ? & ? & _ & _ & _ & _ & _ & _ & ->). by eexists. }
  pose proof (bounds_height _ _ _ Hnsh Hb) as Hbh.
  assert (k < length cats)%nat as Hk by (by eapply lookup_lt_Some).
  destruct (grownOffset_spec cats st k b rs n cb0 Inv) as (offset & Hoff & Hgap);
    [lia|].
  assert (∃ st' r,
            sweepStep cats st k c = Some st'
            ∧ length (nodes st') = n
            ∧ Forall (λ d, 0 <= nodeHeight d) (nodes st')
            ∧ categoryBounds st'
              = storeBounds (catName c) r (categoryBounds st)
            ∧ rectY r == rectY b + offset
            ∧ rectHeight r == rectHeight b) as
    (st' & r & Hstep & Hlen' & Hh' & Hcb & Hry & Hrh).
  { unfold sweepStep. rewrite Hns. simpl. rewrite Hb. simpl.
    rewrite Hoff. simpl.
    destruct (Qeq_bool offset 0) eqn:E; simpl.
    - apply Qeq_bool_iff in E.
      eexists _, b. split; [reflexivity|]. simpl.
      split_and!; try done; lra.
    - rewrite (nodesAt_shift offset _ _ _ Hrefs Hns). simpl.
      destruct (bounds_shift offset _ _ _ Hb) as (b' & -> & Hy & Hhh & _).
      simpl. eexists _, b'. split; [reflexivity|]. simpl.
      split_and!; try done.
      + by rewrite shiftNodes_length.
      + by apply shiftNodes_heights. }
  exists st', r. split; [done|].
  assert (0 <= rectHeight r) as Hr0
    by (unfold categoryPadding in Hbh; lra).
  constructor; try done.
  - rewrite length_app. simpl. lia.
  - intros i a r0 Ha Hr. rewrite Hcb.
    apply lookup_app_Some in Hr as [Hr|[Hge Hr]].
    + assert (i < k)%nat
        by (rewrite <- Hcount; by eapply lookup_lt_Some).
      rewrite lookup_storeBounds_ne.
      * by eapply (inv_rects _ _ _ _ _ _ Inv).
      * intros Hname. assert (k = i); [|lia].
        eapply NoDup_lookup; [exact Hnd| |].
        -- by rewrite lookup_map, Hc.
        -- rewrite lookup_map, Ha. simpl. by rewrite Hname.
    + rewrite Hcount in Hge, Hr.
      assert (i = k) as ->.
      { apply lookup_lt_Some in Hr. simpl in Hr. lia. }
      rewrite Nat.sub_diag in Hr. injection Hr as <-.
      rewrite Hc in Ha. injection Ha as <-.
      apply lookup_storeBounds_eq.
  - apply stacked_snoc.
    + by eapply inv_stacked.
    + by eapply inv_tall.
    + intros l Hl. specialize (Hgap l Hl). lra.
  - apply Forall_app. split; [by eapply inv_tall|]. by repeat constructor.
  - intros name Hname. rewrite Hcb.
    rewrite (take_S_r _ _ _ Hc) in Hname.
    change (map catName (take k cats ++ [c]))
      with (catName <$> (take k cats ++ [c])) in Hname.
    rewrite fmap_app in Hname.
    apply not_elem_of_app in Hname as [Hpre Hlast].
    rewrite lookup_storeBounds_ne.
    + by apply (inv_frame _ _ _ _ _ _ Inv).
    + intros <-. apply Hlast. simpl. by left.
Qed.

Lemma sweepFrom_inv n cats cb0 :
  NoDup (map catName cats) →
  Forall (λ c, goodRefs n (catNodes c)) cats →
  ∀ todo k st rs,
    drop k cats = todo → (k ≤ length cats)%nat →
    SweepInv n cats cb0 k st rs →
    ∃ st' rs', sweepFrom cats k todo st = Some st'
               ∧ SweepInv n cats cb0 (length cats) st' rs'.
Proof.
  intros Hnd Hgood.
  induction todo as [|c todo IH]; intros k st rs Hdrop Hk Inv.
  - exists st, rs. split; [done|].
    assert (k = length cats) as <-; [|done].
    apply (f_equal length) in Hdrop. rewrite length_drop in Hdrop.
    simpl in Hdrop. lia.
  - assert (cats !! k = Some c) as Hc.
    { rewrite <- (Nat.add_0_r k), <- lookup_drop, Hdrop. done. }
    assert (goodRefs n (catNodes c)) as Hgc.
    { rewrite Forall_forall in Hgood. apply Hgood.
      by eapply list_elem_of_lookup_2. }
    destruct (sweepStep_inv n cats cb0 k st rs c Hnd Hc Hgc Inv)
      as (st1 & r & Hstep & Inv1).
    simpl. rewrite Hstep. simpl.
    apply (IH (S k) st1 (rs ++ [r])); [|by eapply lookup_lt_Some|done].
    rewrite (drop_S _ _ _ Hc) in Hdrop. by injection Hdrop.
Qed.

(** The sweep of one side succeeds, stacks the rectangles of its bucket
    and touches no other rectangle. *)
Lemma processSide_spec cats (s : Store) cb :
  NoDup (map catName cats) →
  Forall (λ c, goodRefs (length s) (catNodes c)) cats →
  Forall (λ d, 0 <= nodeHeight d) s →
  ∃ s' cb', processSide cats s cb = Some (s', cb')
    ∧ length s' = length s
    ∧ Forall (λ d, 0 <= nodeHeight d) s'
    ∧ separated categorySpacing cb' cats
    ∧ (∀ name, name ∉ map catName cats →
               lookupBounds name cb' = lookupBounds name cb).
Proof.
  intros Hnd Hgood Hh.
  destruct (sweepFrom_inv (length s) cats cb Hnd Hgood cats 0
              (mkSweep s 0 cb) []) as (st' & rs & Hsweep & Inv).
  - done.
  - lia.
  - by constructor.
  - exists (nodes st'), (categoryBounds st').
    unfold processSide. rewrite Hsweep. simpl.
    split_and!; try done.
    + by eapply inv_length.
    + by eapply inv_heights.
    + intros i j a b Hij Ha Hb.
      pose proof (inv_count _ _ _ _ _ _ Inv) as Hc.
      destruct (lookup_lt_is_Some_2 rs i) as [ra Hra].
      { rewrite Hc. by eapply lookup_lt_Some. }
      destruct (lookup_lt_is_Some_2 rs j) as [rb Hrb].
      { rewrite Hc. by eapply lookup_lt_Some. }
      exists ra, rb. split_and!.
      * by eapply (inv_rects _ _ _ _ _ _ Inv).
      * by eapply (inv_rects _ _ _ _ _ _ Inv).
      * by apply (inv_stacked _ _ _ _ _ _ Inv i j).
    + intros name Hname. apply (inv_frame _ _ _ _ _ _ Inv).
      by rewrite firstn_all.
Qed.

End SweepFacts.

(** ** Category aggregation *)

Module AggregateFacts.
Import Js JsObject Layout Spec Examples ListFacts.
Import SizingFacts ClusterFacts GroupFacts SweepFacts.

Lemma sizeNode_tall cfg d : 0 <= nodeScale cfg → tall (sizeNode cfg d).
Proof.
  intros Hns. pose proof (pow085_pos (depth d)) as Hp.
  assert (0 <= nodeScale cfg * 0.85 ^ Z.of_nat (depth d)) as Hnp
    by (apply Qmult_le_0_compat; lra).
  unfold tall, sizeNode, depthScaleOf, LEAF_HEIGHT, NODE_SIZE.
  revert Hnp. generalize (0.85 ^ Z.of_nat (depth d)). intros p Hnp.
  destruct (isLeaf d); cbn [nodeHeight setSize].
  - eapply Qle_trans; [|apply Q.le_max_l]. lra.
  - lra.
Qed.

Lemma sizingPass_tall cfg s : 0 <= nodeScale cfg → Forall tall (sizingPass cfg s).
Proof.
  intros Hns. unfold sizingPass. apply Forall_forall.
  intros d' [i Hi]%list_elem_of_lookup.
  apply lookup_map_Some in Hi as (d & _ & ->).
  by apply sizeNode_tall.
Qed.

Lemma map_tall (f : LNode → LNode) s :
  (∀ d, nodeHeight (f d) = nodeHeight d) → Forall tall s → Forall tall (map f s).
Proof.
  intros Hf Hs. apply Forall_forall.
  intros d' [i Hi]%list_elem_of_lookup.
  apply lookup_map_Some in Hi as (d & Hd & ->).
  unfold tall. rewrite Hf. rewrite Forall_forall in Hs.
  apply Hs. by eapply list_elem_of_lookup_2.
Qed.

Lemma inverted_height d : nodeHeight (inverted d) = nodeHeight d.
Proof.
  unfold inverted, invertNode.
  by destruct (getNodeSide (setOriginalX (y d) (setXY (y d) (x d) d))).
Qed.

Lemma alterAll_tall {A} (f : A → LNode → LNode) (idx : A → nat) l st :
  (∀ a d, nodeHeight (f a d) = nodeHeight d) →
  Forall tall st → Forall tall (alterAll f idx l st).
Proof.
  intros Hf. revert st. induction l as [|a l IH]; intros st Hst; [done|].
  unfold alterAll in *. simpl. apply IH. apply Forall_alter; [done|].
  intros d _ Hd. unfold tall. by rewrite Hf.
Qed.

Lemma clusterNode_tall cfg st d : Forall tall st → Forall tall (clusterNode cfg st d).
Proof.
  intros Hst. unfold clusterNode.
  destruct (negb (isLeaf d)); [|done].
  destruct (allChildrenAreLeaves st d); [|done].
  destruct (2 <? length (children d))%nat.
  - by apply (alterAll_tall
                (λ ic, setXY (gridPosition cfg d (length (children d)) ic.1).1
                             (gridPosition cfg d (length (children d)) ic.1).2)
                snd).
  - by apply (alterAll_tall
                (λ _ ch, setXY (x d + leafHorizontalOffset cfg * direction d)
                               (y ch) ch) id).
Qed.

Lemma clusterPass_tall cfg s : Forall tall s → Forall tall (clusterPass cfg s).
Proof.
  unfold clusterPass. generalize (seq 0 (length s)). intros ks. revert s.
  induction ks as [|k ks IH]; intros s Hs; [done|].
  simpl. apply IH. unfold clusterStep.
  destruct (s !! k); [|done]. by apply clusterNode_tall.
Qed.

(** Every footprint the aggregation sees has a non-negative height. *)
Lemma laidOut_tall cfg s : 0 <= nodeScale cfg → Forall tall (laidOut cfg s).
Proof.
  intros Hns. unfold laidOut, clusteredLayout.
  apply clusterPass_tall. rewrite invertedLayout_map.
  apply map_tall; [apply inverted_height|].
  unfold inheritancePass. apply map_tall; [done|].
  by apply sizingPass_tall.
Qed.

Lemma separated_weaken gap cb bucket :
  0 <= gap → separated gap cb bucket → separated 0 cb bucket.
Proof.
  intros Hgap Hsep i j a b Hij Ha Hb.
  destruct (Hsep i j a b Hij Ha Hb) as (ra & rb & Hra & Hrb & Hle).
  exists ra, rb. split_and!; [done..|]. lra.
Qed.

(** A walk up the tree returns a category carried by a node. *)
Lemma walkUp_carried field (s : Store) fuel a v :
  walkUp field s fuel a = Some v →
  ∃ n, n ∈ s ∧ field (data n) = Some v.
Proof.
  revert a. induction fuel as [|fuel IH]; intros a; simpl; [done|].
  destruct a as [a|]; [|done].
  destruct (s !! a) as [n|] eqn:En; [|done].
  destruct (truthy (field (data n))).
  - intros Hv. exists n. split; [by eapply list_elem_of_lookup_2|done].
  - apply IH.
Qed.

Lemma inherit_carried field (s : Store) d current v :
  inherit field s d current = Some v →
  current = Some v ∨ ∃ n, (n = d ∨ n ∈ s) ∧ field (data n) = Some v.
Proof.
  unfold inherit.
  destruct (negb (truthy (field (data d))) && bool_decide (is_Some (parent d))).
  - destruct (walkUp field s (length s) (parent d)) as [w|] eqn:Ew.
    + intros [= <-]. right.
      destruct (walkUp_carried _ _ _ _ _ Ew) as (n & Hn & Hv).
      exists n. split; [by right|done].
    + by left.
  - destruct (truthy (field (data d))).
    + intros Hv. right. exists d. split; [by left|done].
    + by left.
Qed.

Lemma inverted_category d : inheritedCategory (inverted d) = inheritedCategory d.
Proof.
  unfold inverted, invertNode.
  by destruct (getNodeSide (setOriginalX (y d) (setXY (y d) (x d) d))).
Qed.

Lemma sizeNode_fields cfg d :
  data (sizeNode cfg d) = data d
  ∧ inheritedCategory (sizeNode cfg d) = inheritedCategory d.
Proof. unfold sizeNode. by destruct (isLeaf d). Qed.

Lemma alterAll_plain {A} (f : A → LNode → LNode) (idx : A → nat) l st :
  (∀ a d, inheritedCategory (f a d) = inheritedCategory d) →
  plainCategories st → plainCategories (alterAll f idx l st).
Proof.
  intros Hf. revert st. induction l as [|a l IH]; intros st Hst; [done|].
  unfold alterAll in *. simpl. apply IH. apply Forall_alter; [done|].
  intros d _ Hd c. rewrite Hf. apply Hd.
Qed.

Lemma clusterNode_plain cfg st d :
  plainCategories st → plainCategories (clusterNode cfg st d).
Proof.
  intros Hst. unfold clusterNode.
  destruct (negb (isLeaf d)); [|done].
  destruct (allChildrenAreLeaves st d); [|done].
  destruct (2 <? length (children d))%nat.
  - by apply (alterAll_plain
                (λ ic, setXY (gridPosition cfg d (length (children d)) ic.1).1
                             (gridPosition cfg d (length (children d)) ic.1).2)
                snd).
  - by apply (alterAll_plain
                (λ _ ch, setXY (x d + leafHorizontalOffset cfg * direction d)
                               (y ch) ch) id).
Qed.

Lemma clusterPass_plain cfg s :
  plainCategories s → plainCategories (clusterPass cfg s).
Proof.
  unfold clusterPass. generalize (seq 0 (length s)). intros ks. revert s.
  induction ks as [|k ks IH]; intros s Hs; [done|].
  simpl. apply IH. unfold clusterStep.
  destruct (s !! k); [|done]. by apply clusterNode_plain.
Qed.

(** The passes before the aggregation write no category that the input
    does not carry. *)
Lemma laidOut_plain cfg (s : Store) :
  plainInput s → plainCategories (laidOut cfg s).
Proof.
  intros Hin. unfold plainInput in Hin. rewrite Forall_forall in Hin.
  assert (∀ n, n ∈ sizingPass cfg s →
               (∀ c, Normalizer.category (data n) = Some c →
                     c ∉ JsObject.objectPrototypeKeys)
               ∧ (∀ c, inheritedCategory n = Some c →
                       c ∉ JsObject.objectPrototypeKeys)) as Hsized.
  { intros n [i Hi]%list_elem_of_lookup. unfold sizingPass in Hi.
    apply lookup_map_Some in Hi as (n0 & Hn0 & ->).
    destruct (sizeNode_fields cfg n0) as [-> ->].
    apply Hin. by eapply list_elem_of_lookup_2. }
  unfold laidOut, clusteredLayout.
  apply clusterPass_plain. rewrite invertedLayout_map.
  apply Forall_forall. intros d' [i Hi]%list_elem_of_lookup.
  apply lookup_map_Some in Hi as (d2 & Hd2 & ->). rewrite inverted_category.
  unfold inheritancePass in Hd2.
  apply lookup_map_Some in Hd2 as (d3 & Hd3 & ->).
  cbn [resolveNode setInherited inheritedCategory].
  assert (d3 ∈ sizingPass cfg s) as Hd3in by (by eapply list_elem_of_lookup_2).
  intros c Hc.
  destruct (inherit_carried _ _ _ _ _ Hc) as [Hcur|(n & [->|Hn] & Hv)].
  - by apply (proj2 (Hsized d3 Hd3in)).
  - by apply (proj1 (Hsized d3 Hd3in)).
  - by apply (proj1 (Hsized n Hn)).
Qed.

(** The aggregation of any store with footprints of non-negative
    height and no category named like a property of the prototype:
    both sweeps succeed and stack their rectangles. *)
Lemma aggregate_separated (s : Store) :
  Forall tall s → plainCategories s →
  ∃ cd s' cb,
    categoryData s = Some cd
    ∧ aggregate s = Some (s', cb)
    ∧ NoDup (map catName cd)
    ∧ separated categorySpacing cb (leftCategories cd)
    ∧ separated categorySpacing cb (rightCategories cd).
Proof.
  intros Hs Hplain.
  destruct (categoryData_Some s Hplain) as (cd & Hcd & Hnd & Hgood).
  destruct (bucket_good (length s) Left cd Hnd Hgood) as [HndL HgoodL].
  destruct (bucket_good (length s) Right cd Hnd Hgood) as [HndR HgoodR].
  fold (leftCategories cd) in HndL, HgoodL.
  fold (rightCategories cd) in HndR, HgoodR.
  destruct (processSide_spec (leftCategories cd) s [] HndL HgoodL Hs)
    as (s1 & cb1 & Hleft & Hlen1 & Hs1 & HsepL & _).
  rewrite <- Hlen1 in HgoodR.
  destruct (processSide_spec (rightCategories cd) s1 cb1 HndR HgoodR Hs1)
    as (s2 & cb2 & Hright & _ & _ & HsepR & Hframe).
  exists cd, s2, cb2. split_and!; try done.
  - unfold aggregate. rewrite Hcd. simpl. rewrite Hleft. simpl. done.
  - intros i j a b Hij Ha Hb.
    destruct (HsepL i j a b Hij Ha Hb) as (ra & rb & Hra & Hrb & Hle).
    exists ra, rb.
    assert (∀ c, c ∈ leftCategories cd →
                 catName c ∉ map catName (rightCategories cd)) as Hout.
    { intros c Hc Hin.
      change (catName c ∈ catName <$> rightCategories cd) in Hin.
      apply list_elem_of_fmap in Hin as (c' & Hname & Hc').
      by apply (buckets_disjoint cd c c' Hnd Hc Hc'). }
    rewrite !Hframe; [done|..].
    + apply Hout. by eapply list_elem_of_lookup_2.
    + apply Hout. by eapply list_elem_of_lookup_2.
Qed.

(** The grouping loop throws on a category named like a property of
    the prototype, and with it the whole aggregation. *)
Lemma aggregate_throws (s : Store) :
  ¬ plainCategories s → aggregate s = None.
Proof.
  intros Hn%categoryGroups_None. unfold aggregate, categoryData.
  by rewrite Hn.
Qed.

Lemma prototype_category_throws :
  aggregate (laidOut defaultConfig prototypeCategory) = None.
Proof. reflexivity. Qed.

(** A plain input, decided node by node. *)
Lemma plainInput_decide (s : Store) :
  forallb (λ d,
             match Normalizer.category (data d) with
             | Some c => negb (inherited c)
             | None => true
             end
             && match inheritedCategory d with
                | Some c => negb (inherited c)
                | None => true
                end) s = true →
  plainInput s.
Proof.
  induction s as [|d s IH]; [constructor|].
  cbn [forallb]. intros [Hd Hs]%andb_prop. constructor; [|by apply IH].
  apply andb_prop in Hd as [H1 H2]. split; intros c Hc.
  - rewrite Hc in H1. unfold inherited in H1.
    by case_bool_decide.
  - rewrite Hc in H2. unfold inherited in H2.
    by case_bool_decide.
Qed.

Lemma twoCategories_plain : plainInput twoCategories.
Proof. apply plainInput_decide. reflexivity. Qed.

(** C1, as stated, fails for a configuration with a negative node
    scale.  With [nodeScale: -10] the inner node "b" has the height
    -3400 and the rectangle of its category "B" the height -3100, at
    1630.  The sweep on the right takes "A", "B", "C" in this order and
    compares each rectangle with its predecessor only: "B" starts far
    below "A", and "C", at -117.32375, is below the bottom edge of "B",
    which lies at -1470.  Nothing is moved, and "C" starts above the
    bottom edge of "A", which is at 125.675. *)
Lemma negative_scale_rectangles_overlap :
  (∃ cd s' cb a b c ra rb rc,
     categoryData (laidOut negativeScale threeCategories) = Some cd
     ∧ aggregate (laidOut negativeScale threeCategories) = Some (s', cb)
     ∧ rightCategories cd = [a; b; c]
     ∧ map catName [a; b; c] = ["A"; "B"; "C"]%string
     ∧ lookupBounds "A" cb = Some ra
     ∧ lookupBounds "B" cb = Some rb
     ∧ lookupBounds "C" cb = Some rc
     ∧ rectY ra + rectHeight ra == 125.675
     ∧ rectY rb == 1630 ∧ rectHeight rb == -3100
     ∧ rectY rc == -117.32375)
  ∧ ¬ same_side_never_overlap.
Proof.
  split.
  - eexists _, _, _, _, _, _, _, _, _.
    split; [reflexivity|]. split; [reflexivity|]. split; [reflexivity|].
    split; [reflexivity|]. split; [reflexivity|]. split; [reflexivity|].
    split; [reflexivity|]. split_and!; by vm_compute.
  - intros H.
    destruct (H negativeScale threeCategories _ _ _ eq_refl eq_refl)
      as [_ HR].
    destruct (HR 0%nat 2%nat _ _ ltac:(lia) eq_refl eq_refl)
      as (ra & rc & Hra & Hrc & Hle).
    vm_compute in Hra. vm_compute in Hrc.
    injection Hra as <-. injection Hrc as <-.
    vm_compute in Hle. by apply Hle.
Qed.

(** C1, amended: for every tree (a store of nodes with the coordinates
    of the tree layout) in which no category is named like a property
    of [Object.prototype], and every configuration with a non-negative
    node scale, the category aggregation succeeds and, on each side,
    the rectangle of a category that comes later in the sweep order
    starts at or below the bottom edge of every earlier one, in fact at
    least the category spacing of 300 below it.  The single forward
    sweep establishes this for every pair, not only for neighbours. *)
Theorem same_side_rectangles_do_not_overlap cfg (s : Store) :
  0 <= nodeScale cfg → plainInput s →
  ∃ cd s' cb,
    categoryData (laidOut cfg s) = Some cd
    ∧ aggregate (laidOut cfg s) = Some (s', cb)
    ∧ NoDup (map catName cd)
    ∧ separated 0 cb (leftCategories cd)
    ∧ separated 0 cb (rightCategories cd)
    ∧ separated categorySpacing cb (leftCategories cd)
    ∧ separated categorySpacing cb (rightCategories cd).
Proof.
  intros Hns Hplain.
  destruct (aggregate_separated (laidOut cfg s) (laidOut_tall cfg s Hns)
              (laidOut_plain cfg s Hplain))
    as (cd & s' & cb & Hcd & Hagg & Hnd & HL & HR).
  exists cd, s', cb.
  assert (0 <= categorySpacing) by (unfold categorySpacing; lra).
  split_and!; try done; by eapply separated_weaken.
Qed.

Lemma same_side_rectangles_do_not_overlap_witness :
  ∃ cd s' cb,
    categoryData (laidOut defaultConfig twoCategories) = Some cd
    ∧ aggregate (laidOut defaultConfig twoCategories) = Some (s', cb)
    ∧ separated 0 cb (rightCategories cd).
Proof.
  destruct (same_side_rectangles_do_not_overlap defaultConfig twoCategories
              ltac:(discriminate) twoCategories_plain)
    as (cd & s' & cb & Hcd & Hagg & _ & _ & HR & _).
  exists cd, s', cb. split; [exact Hcd|]. split; [exact Hagg|exact HR].
Defined.

End AggregateFacts.

(** ** Text wrapping *)

Module TextFacts.
Import Text TextNotions.

Lemma append_assoc (a b c : string) : (a +:+ b) +:+ c = a +:+ (b +:+ c).
Proof.
  induction a as [|ch a IH]; [reflexivity|].
  change (String ch ((a +:+ b) +:+ c) = String ch (a +:+ (b +:+ c))).
  by rewrite IH.
Qed.

Lemma append_nonempty (a b : string) :
  a ≠ EmptyString → a +:+ b ≠ EmptyString.
Proof. by destruct a. Qed.

Lemma joinSpace_cons w rest :
  rest ≠ [] → joinSpace (w :: rest) = w +:+ " " +:+ joinSpace rest.
Proof. by destruct rest. Qed.

(** Gluing two neighbouring words with a space does not change the
    joined text. *)
Lemma joinSpace_glue (l : list string) (a b : string) (r : list string) :
  joinSpace (l ++ (a +:+ " " +:+ b) :: r) = joinSpace (l ++ a :: b :: r).
Proof.
  induction l as [|w l IH].
  - simpl. destruct r as [|w' r]; [done|].
    by rewrite !append_assoc.
  - change ((w :: l) ++ ?k) with (w :: (l ++ k)).
    rewrite !joinSpace_cons by (by destruct l). by rewrite IH.
Qed.

Lemma wrapLoop_join maxWidth ws lines cur :
  joinSpace (wrapLoop maxWidth ws lines cur) = joinSpace (lines ++ cur :: ws).
Proof.
  revert lines cur. induction ws as [|w rest IH]; intros lines cur; [done|].
  cbn [wrapLoop].
  destruct (negb _ && _).
  - rewrite IH. by rewrite <- app_assoc.
  - rewrite IH. apply joinSpace_glue.
Qed.

(** X1: wrapping loses no word, adds none and keeps the order: the lines
    joined by single spaces are the words joined by single spaces. *)
Theorem wrapText_keeps_words (text : string) (maxWidth : Q) :
  joinSpace (wrapText text maxWidth) = joinSpace (split text).
Proof.
  unfold wrapText. destruct (split text) as [|w0 ws] eqn:E; [done|].
  apply (wrapLoop_join maxWidth ws [] w0).
Qed.

Lemma splitWs_nonempty s cur inWs : splitWs s cur inWs ≠ [].
Proof.
  revert cur inWs. induction s as [|c s IH]; intros cur inWs; simpl; [done|].
  destruct (isSpace c); [destruct inWs|]; [apply IH|done|apply IH].
Qed.

Lemma wrapLoop_length maxWidth ws lines cur :
  (length lines + 1 ≤ length (wrapLoop maxWidth ws lines cur)
   ≤ length lines + 1 + length ws)%nat.
Proof.
  revert lines cur. induction ws as [|w rest IH]; intros lines cur.
  - simpl. rewrite length_app. simpl. lia.
  - cbn [wrapLoop length]. destruct (negb _ && _).
    + specialize (IH (lines ++ [cur]) w).
      rewrite length_app in IH. simpl in IH. lia.
    + specialize (IH lines (cur +:+ " " +:+ w)). lia.
Qed.

(** X2: there is at least one line, also for the empty text, and never
    more lines than words. *)
Theorem wrapText_line_count (text : string) (maxWidth : Q) :
  (1 ≤ length (wrapText text maxWidth) ≤ length (split text))%nat
  ∧ wrapText EmptyString maxWidth = [EmptyString].
Proof.
  split; [|done].
  unfold wrapText. destruct (split text) as [|w0 ws] eqn:E.
  - by apply splitWs_nonempty in E.
  - pose proof (wrapLoop_length maxWidth ws [] w0). simpl in *. lia.
Qed.

Lemma innerNonEmpty_cons w rest :
  rest ≠ [] → innerNonEmpty (w :: rest) ↔ (w ≠ EmptyString ∧ innerNonEmpty rest).
Proof. by destruct rest. Qed.

(** The pieces of [split]: only the first and the last can be empty. *)
Lemma splitWs_inner s :
  (∀ cur, cur ≠ EmptyString →
          innerNonEmpty (splitWs s cur false)
          ∧ hd EmptyString (splitWs s cur false) ≠ EmptyString)
  ∧ innerNonEmpty (splitWs s EmptyString true).
Proof.
  induction s as [|c s [IHw IHg]]; [by split|].
  split.
  - intros cur Hcur. simpl. destruct (isSpace c).
    + split; [|done].
      apply innerNonEmpty_cons; [apply splitWs_nonempty|done].
    + apply IHw. by apply append_nonempty.
  - simpl. destruct (isSpace c); [done|].
    by apply IHw.
Qed.

Lemma split_inner text w0 ws :
  noLeadingSpace text → split text = w0 :: ws →
  innerNonEmpty ws ∧ (ws ≠ [] → w0 ≠ EmptyString).
Proof.
  unfold split. destruct text as [|c s]; simpl.
  - intros _ [= <- <-]. done.
  - intros ->. intros E.
    destruct (splitWs_inner s) as [Hw _].
    destruct (Hw (String c EmptyString)) as [Hin Hhd]; [done|].
    change (EmptyString +:+ String c EmptyString) with (String c EmptyString) in E.
    rewrite E in Hin, Hhd. simpl in Hhd.
    destruct ws as [|w1 ws]; [done|].
    apply innerNonEmpty_cons in Hin as [_ Hin]; done.
Qed.

Lemma wrapLoop_fits maxWidth (words ws lines : list string) cur :
  let P := λ line, line ∈ words ∨ fits maxWidth line in
  Forall P lines → P cur →
  (ws ≠ [] → cur ≠ EmptyString) →
  innerNonEmpty ws → ws ⊆ words →
  Forall P (wrapLoop maxWidth ws lines cur).
Proof.
  intros P. revert lines cur.
  induction ws as [|w rest IH]; intros lines cur Hlines Hcur Hne Hinner Hsub.
  - simpl. apply Forall_app. split; [done|]. by constructor.
  - cbn [wrapLoop].
    assert (cur ≠ EmptyString) as Hc by (by apply Hne).
    assert ((0 <? String.length cur)%nat = true) as ->
      by (destruct cur; [done|by apply Nat.ltb_lt; simpl; lia]).
    rewrite andb_true_r.
    assert (innerNonEmpty rest ∧ (rest ≠ [] → w ≠ EmptyString)) as [Hin' Hw].
    { destruct rest as [|w' rest]; [done|].
      apply innerNonEmpty_cons in Hinner as [? ?]; done. }
    assert (rest ⊆ words) as Hsub'
      by (intros v Hv; apply Hsub; by right).
    destruct (Qle_bool _ maxWidth) eqn:E; simpl.
    + apply IH; try done.
      * right. unfold fits. by apply Qle_bool_iff.
      * intros _. by apply append_nonempty.
    + apply IH; try done.
      * apply Forall_app. split; [done|]. by constructor.
      * left. apply Hsub. by left.
Qed.

(** X3: a line is never wider than the budget, by the measure of the
    wrapper, unless it is a single word of the text; this needs a text
    that does not start with white space, since an empty first piece
    takes the next word whatever its width. *)
Theorem wrapText_lines_fit (text : string) (maxWidth : Q) :
  noLeadingSpace text →
  Forall (λ line, line ∈ split text ∨ fits maxWidth line)
         (wrapText text maxWidth).
Proof.
  intros Hlead. unfold wrapText.
  destruct (split text) as [|w0 ws] eqn:E; [by apply splitWs_nonempty in E|].
  destruct (split_inner text w0 ws Hlead E) as [Hinner Hw0].
  apply (wrapLoop_fits maxWidth (w0 :: ws) ws [] w0); try done.
  - left. by left.
  - intros v Hv. by right.
Qed.

Lemma wrapText_lines_fit_witness :
  Forall (λ line, line ∈ split "ship the new parser" ∨ fits 300 line)
         (wrapText "ship the new parser" 300).
Proof. apply (wrapText_lines_fit "ship the new parser" 300). reflexivity. Defined.

(** Without the hypothesis the property fails: after a leading blank
    the first line takes the first word with the blank in front. *)
Lemma wrapText_leading_space :
  wrapText " abcdefghijkl" 300 = [" abcdefghijkl"]
  ∧ ¬ fits 300 " abcdefghijkl"
  ∧ " abcdefghijkl"%string ∉ split " abcdefghijkl".
Proof.
  split; [reflexivity|]. split.
  - unfold fits. by vm_compute.
  - vm_compute. intros H. apply elem_of_cons in H as [H|H]; [done|].
    apply elem_of_cons in H as [H|H]; [done|]. by apply elem_of_nil in H.
Qed.

End TextFacts.

(** ** The normalised tree *)

Module NormalizerTreeFacts.
Import Js JsFacts Normalizer NormalizerNotions NormalizerFacts.

(** Induction on an item with the hypothesis for every element of its
    [items] array. *)
Lemma RawItem_nested_ind (P : RawItem → Prop) :
  P RawNull →
  (∀ nm st ln lns cat sd vis its,
     (∀ l, its = Some l → Forall P l) →
     P (RawObj nm st ln lns cat sd vis its)) →
  ∀ item, P item.
Proof.
  intros Hnull Hobj. fix IH 1.
  intros [|nm st ln lns cat sd vis its]; [exact Hnull|].
  apply Hobj. destruct its as [l|]; intros l' E; [|discriminate E].
  injection E as <-.
  induction l as [|a l IHl]; constructor; [apply IH|exact IHl].
Qed.

Lemma normalField_orNull v : normalField (orNull v).
Proof.
  unfold normalField. destruct (truthy v) eqn:E.
  - right. by rewrite truthy_orNull.
  - left. by apply orNull_falsy.
Qed.

Lemma mapFilter_describes l :
  Forall describes l →
  fst (mapFilter l) = flat_map skipped l
  ∧ flat_map nodeNames (snd (mapFilter l)) = flat_map keptNames l
  ∧ foldr (λ k rest, wellFormed k ∧ rest) True (snd (mapFilter l)).
Proof.
  induction 1 as [|c l [Hw Hn] _ (IHw & IHn & IHwf)]; [done|].
  simpl. destruct (createHierarchy c) as [w1 o].
  destruct (mapFilter l) as [w2 ks]. simpl in *.
  rewrite Hw, IHw. split; [done|].
  destruct o as [k|].
  - destruct Hn as [Hn Hwf]. simpl. rewrite Hn, IHn. done.
  - rewrite Hn. done.
Qed.

Lemma createHierarchy_describes item : describes item.
Proof.
  induction item as [|nm st ln lns cat sd vis its IH]
    using RawItem_nested_ind; [done|].
  unfold describes.
  destruct (truthy nm) eqn:Hnm.
  - rewrite (createHierarchy_named _ _ _ _ _ _ _ _ Hnm).
    destruct (truthy_Some _ Hnm) as (n & -> & Hn).
    cbn -[truthy orNull or]. rewrite Hnm.
    destruct its as [l|].
    + destruct (mapFilter_describes l (IH l eq_refl)) as (Hw & Hnames & Hwf).
      destruct (mapFilter l) as [w ks]. cbn -[orNull or truthy] in *.
      split; [done|]. split.
      * destruct ks; simpl; [by rewrite <- Hnames|by rewrite <- Hnames].
      * split_and!; try apply normalField_orNull; [done|].
        destruct ks; done.
    + cbn -[orNull or truthy]. split; [done|]. split; [done|].
      split_and!; try apply normalField_orNull; done.
  - cbn -[truthy]. rewrite Hnm. done.
Qed.

(** X4: the warnings are the nameless items whose ancestors are all
    named, in document order; the names of the tree, in document order,
    are the names of the items that are named together with all their
    ancestors, after ["Root"] when the synthetic root is added. *)
Theorem transformData_keeps_named_items (data : RawData) :
  fst (transformData data) = flat_map skipped (dataItems data)
  ∧ match snd (transformData data) with
    | Some n =>
      nodeNames n
      = (if addsRoot data then ["Root"%string] else [])
          ++ flat_map keptNames (dataItems data)
    | None =>
      addsRoot data = false ∧ flat_map keptNames (dataItems data) = []
    end.
Proof.
  assert (∀ item,
            fst (createHierarchy item) = flat_map skipped [item]
            ∧ match snd (createHierarchy item) with
              | Some n => nodeNames n = [] ++ flat_map keptNames [item]
              | None => false = false ∧ flat_map keptNames [item] = []
              end) as Hone.
  { intros item. destruct (createHierarchy_describes item) as [Hw Hn].
    simpl. rewrite !app_nil_r. split; [done|].
    destruct (snd (createHierarchy item)); [apply Hn|done]. }
  assert (∀ elems,
            fst (mapFilter elems) = flat_map skipped elems
            ∧ flat_map nodeNames (snd (mapFilter elems))
              = flat_map keptNames elems) as Hmany.
  { intros elems.
    destruct (mapFilter_describes elems) as (? & ? & _); [|done].
    apply Forall_forall. intros item _. apply createHierarchy_describes. }
  destruct data as [[|e1 [|e2 elems]]|item]; try apply Hone.
  - done.
  - cbn [transformData dataItems addsRoot].
    destruct (Hmany (e1 :: e2 :: elems)) as [Hw Hn].
    destruct (mapFilter (e1 :: e2 :: elems)) as [w ks].
    cbn [fst snd] in *. split; [done|].
    cbn [nodeNames syntheticRoot name children]. by rewrite Hn.
Qed.

(** X5: every node [createHierarchy] returns, at any depth, has a
    non-empty name, optional fields that are absent or truthy, and no
    empty [children] array; the tree [transformData] returns is such a
    node or the synthetic root over such nodes. *)
Theorem normalised_tree_well_formed (data : RawData) (n : Node) :
  snd (transformData data) = Some n →
  wellFormed n
  ∨ ∃ kids, n = syntheticRoot kids ∧ Forall wellFormed kids.
Proof.
  assert (∀ item, snd (createHierarchy item) = Some n → wellFormed n) as Hone.
  { intros item E. destruct (createHierarchy_describes item) as [_ H].
    rewrite E in H. apply H. }
  assert (∀ elems, Forall wellFormed (snd (mapFilter elems))) as Hmany.
  { intros elems.
    destruct (mapFilter_describes elems) as (_ & _ & Hwf).
    - apply Forall_forall. intros item _. apply createHierarchy_describes.
    - revert Hwf. generalize (snd (mapFilter elems)). intros ks.
      induction ks as [|k ks IH]; [constructor|].
      intros [? ?]. constructor; [done|by apply IH]. }
  destruct data as [[|e1 [|e2 elems]]|item].
  - intros [= <-]. right. exists []. by split.
  - intros E. left. by apply (Hone e1).
  - cbn [transformData].
    pose proof (Hmany (e1 :: e2 :: elems)) as Hwf.
    destruct (mapFilter (e1 :: e2 :: elems)) as [w ks].
    intros [= <-]. right. exists ks. by split.
  - intros E. left. by apply (Hone item).
Qed.

Lemma normalised_tree_well_formed_witness :
  wellFormed (leafNamed "root")
  ∨ ∃ kids, leafNamed "root" = syntheticRoot kids ∧ Forall wellFormed kids.
Proof.
  exact (normalised_tree_well_formed (DataObject rootWithNamelessChild)
           (leafNamed "root") eq_refl).
Defined.

End NormalizerTreeFacts.

(** ** Inheritance, seen from the parent *)

Module TopDownFacts.
Import Js JsFacts Layout Spec Examples ListFacts InheritanceFacts.

Section Field.
Variable field : Normalizer.Node → option string.
Variable s : Store.
Hypothesis parents : parentsFirst s.

(** With enough fuel the result of the walk does not depend on the
    fuel. *)
Lemma walkUp_fuel f1 f2 a :
  (∀ i, a = Some i → (i < f1)%nat) → (∀ i, a = Some i → (i < f2)%nat) →
  walkUp field s f1 a = walkUp field s f2 a.
Proof.
  intros H1 H2.
  destruct (walkUp field s f1 a) as [v|] eqn:E1.
  - apply walkUp_sound in E1. symmetry. by apply walkUp_complete.
  - destruct (walkUp field s f2 a) as [v|] eqn:E2; [|done].
    apply walkUp_sound in E2.
    rewrite (walkUp_complete field s a v parents E2 f1 H1) in E1. done.
Qed.

Lemma walkUp_truthy fuel a v :
  walkUp field s fuel a = Some v → truthy (Some v) = true.
Proof.
  revert a. induction fuel as [|fuel IH]; intros a; cbn [walkUp]; [done|].
  destruct a as [a|]; [|done].
  destruct (s !! a) as [n|]; [|done].
  destruct (truthy (field (data n))) eqn:E; [|apply IH].
  intros Hv. by rewrite <- Hv.
Qed.

(** The value a block of the resolver gives a fresh node is absent or
    truthy. *)
Lemma inherit_normal d :
  inherit field s d None = None ∨ truthy (inherit field s d None) = true.
Proof.
  unfold inherit.
  destruct (truthy (field (data d))) eqn:E; simpl.
  - by right.
  - destruct (parent d) as [p|]; simpl; [|by left].
    destruct (walkUp field s (length s) (Some p)) as [v|] eqn:Ew; [|by left].
    right. by eapply walkUp_truthy.
Qed.

(** A node without an explicit value gets what its parent gets. *)
Lemma inherit_from_parent i d p dp :
  s !! i = Some d → parent d = Some p → s !! p = Some dp →
  truthy (field (data d)) = false →
  inherit field s d None = inherit field s dp None.
Proof.
  intros Hd Hp Hdp Hown.
  pose proof (parents i d p Hd Hp) as Hpi.
  pose proof (lookup_lt_Some _ _ _ Hd) as Hi.
  unfold inherit at 1. rewrite Hown, Hp. cbn -[walkUp truthy].
  destruct (length s) as [|f] eqn:Hlen; [lia|].
  cbn [walkUp]. rewrite Hdp.
  unfold inherit. rewrite Hlen.
  destruct (truthy (field (data dp))) eqn:Et; cbn -[walkUp truthy].
  - destruct (field (data dp)); done.
  - destruct (parent dp) as [q|] eqn:Hq; cbn -[walkUp truthy].
    + pose proof (parents p dp q Hdp Hq) as Hqp.
      rewrite (walkUp_fuel f (S f) (Some q)).
      * by destruct (walkUp field s (S f) (Some q)).
      * intros ? [= <-]. lia.
      * intros ? [= <-]. lia.
    + by destruct f.
Qed.

End Field.

Lemma getNodeSide_inherited d v :
  inheritedSide d = v → truthy v = true →
  getNodeSide d = match v with
                  | Some sd => if String.eqb sd "left" then Left else Right
                  | None => Right
                  end.
Proof. intros <- Ht. unfold getNodeSide, or. by rewrite Ht. Qed.

Lemma getNodeSide_default d :
  inheritedSide d = None → truthy (Normalizer.side (data d)) = false →
  getNodeSide d = Right.
Proof.
  intros Hi Hs. unfold getNodeSide, or. rewrite Hi. simpl.
  destruct (Normalizer.side (data d)) as [sd|]; [|done].
  simpl in Hs. apply negb_false_iff in Hs.
  apply String.eqb_eq in Hs as ->. done.
Qed.

(** X6: the upward walks of the resolver amount to a top-down
    propagation.  In a fresh tree a node gets, for each of category,
    side and visibility, its own explicit value if it has one and
    otherwise exactly the value its parent gets; a node without an
    explicit side is on the same side as its parent. *)
Theorem inheritance_is_top_down s i d p dp :
  parentsFirst s →
  s !! i = Some d → parent d = Some p → s !! p = Some dp →
  unresolved d → unresolved dp →
  ∃ d' dp',
    inheritancePass s !! i = Some d' ∧ inheritancePass s !! p = Some dp'
    ∧ inheritedCategory d'
      = (if truthy (Normalizer.category (data d))
         then Normalizer.category (data d) else inheritedCategory dp')
    ∧ inheritedSide d'
      = (if truthy (Normalizer.side (data d))
         then Normalizer.side (data d) else inheritedSide dp')
    ∧ inheritedVisibility d'
      = (if truthy (Normalizer.visibility (data d))
         then Normalizer.visibility (data d) else inheritedVisibility dp')
    ∧ (truthy (Normalizer.side (data d)) = false →
       getNodeSide d' = getNodeSide dp').
Proof.
  intros Hpf Hd Hp Hdp (Hc & Hs & Hv) (Hpc & Hps & Hpv).
  exists (resolveNode s d), (resolveNode s dp).
  assert (∀ field,
            inherit field s d None
            = if truthy (field (data d)) then field (data d)
              else inherit field s dp None) as Hfield.
  { intros field. destruct (truthy (field (data d))) eqn:E.
    - unfold inherit. by rewrite E.
    - by apply (inherit_from_parent field s Hpf i d p dp). }
  unfold inheritancePass. rewrite !lookup_map, Hd, Hdp.
  cbn [resolveNode setInherited inheritedCategory inheritedSide
       inheritedVisibility fmap option_fmap option_map].
  rewrite Hc, Hs, Hv, Hpc, Hps, Hpv.
  split_and!; try apply Hfield; try done.
  intros Hown.
  pose proof (Hfield Normalizer.side) as Hside. rewrite Hown in Hside.
  assert (inheritedSide (resolveNode s d) = inherit Normalizer.side s dp None)
    as Hd' by (cbn [resolveNode setInherited inheritedSide]; by rewrite Hs).
  assert (inheritedSide (resolveNode s dp) = inherit Normalizer.side s dp None)
    as Hp' by (cbn [resolveNode setInherited inheritedSide]; by rewrite Hps).
  destruct (inherit_normal Normalizer.side s dp) as [Hnone|Htruthy].
  - assert (truthy (Normalizer.side (data dp)) = false) as Hpown.
    { destruct (truthy (Normalizer.side (data dp))) eqn:E; [|done].
      unfold inherit in Hnone. rewrite E in Hnone. cbn -[truthy] in Hnone.
      rewrite Hnone in E. done. }
    rewrite (getNodeSide_default (resolveNode s d));
      [|by rewrite Hd'|exact Hown].
    by rewrite (getNodeSide_default (resolveNode s dp));
      [|by rewrite Hp'|exact Hpown].
  - rewrite (getNodeSide_inherited _ _ Hd' Htruthy).
    by rewrite (getNodeSide_inherited _ _ Hp' Htruthy).
Qed.

Lemma inheritance_is_top_down_witness :
  ∃ d' dp',
    inheritancePass (sidedGroup "left") !! 2%nat = Some d'
    ∧ inheritancePass (sidedGroup "left") !! 1%nat = Some dp'
    ∧ getNodeSide d' = getNodeSide dp'.
Proof.
  destruct (inheritance_is_top_down (sidedGroup "left") 2%nat _ 1%nat _
              (parentsFirst_sidedGroup "left") eq_refl eq_refl eq_refl
              (conj eq_refl (conj eq_refl eq_refl))
              (conj eq_refl (conj eq_refl eq_refl)))
    as (d' & dp' & H1 & H2 & _ & _ & _ & Hside).
  exists d', dp'. split; [exact H1|]. split; [exact H2|].
  apply Hside. reflexivity.
Defined.

End TopDownFacts.

(** ** Leaf clustering: what moves and where to *)

Module GridFacts.
Import Js Layout Spec LayoutNotions Examples ListFacts ClusterFacts.
Import ExtremeFacts.

Lemma movedFrom_refl d : movedFrom d d.
Proof. by destruct d. Qed.

Lemma movedFrom_setXY d d' a b : movedFrom d d' → movedFrom d (setXY a b d').
Proof. done. Qed.

Lemma alterAll_movedFrom {A} (f : A → LNode → LNode) (idx : A → nat) l s st :
  (∀ a d, ∃ vx vy, f a d = setXY vx vy d) →
  Forall2 movedFrom s st → Forall2 movedFrom s (alterAll f idx l st).
Proof.
  intros Hf. revert st. induction l as [|a l IH]; intros st Hst; [done|].
  unfold alterAll in *. simpl. apply IH. apply Forall2_alter_r; [done|].
  intros d d' _ _ Hdd'. destruct (Hf a d') as (vx & vy & ->).
  by apply movedFrom_setXY.
Qed.

Lemma clusterNode_movedFrom cfg s st d :
  Forall2 movedFrom s st → Forall2 movedFrom s (clusterNode cfg st d).
Proof.
  intros Hst. unfold clusterNode.
  destruct (negb (isLeaf d)); [|done].
  destruct (allChildrenAreLeaves st d); [|done].
  destruct (2 <? length (children d))%nat.
  - apply (alterAll_movedFrom
             (λ ic, setXY (gridPosition cfg d (length (children d)) ic.1).1
                          (gridPosition cfg d (length (children d)) ic.1).2)
             snd); [|done].
    intros a e. by eexists _, _.
  - apply (alterAll_movedFrom
             (λ _ ch, setXY (x d + leafHorizontalOffset cfg * direction d)
                            (y ch) ch) id); [|done].
    intros a e. by eexists _, _.
Qed.

Lemma clusterPass_movedFrom cfg s : Forall2 movedFrom s (clusterPass cfg s).
Proof.
  unfold clusterPass.
  assert (Forall2 movedFrom s s) as H0.
  { apply Forall2_same_length_lookup. split; [done|].
    intros i d d' Hd Hd'. rewrite Hd in Hd'. injection Hd' as <-.
    apply movedFrom_refl. }
  revert H0. generalize (seq 0 (length s)). generalize s at 2 4.
  intros st ks. revert st. induction ks as [|k ks IH]; intros st Hst; [done|].
  simpl. apply IH. unfold clusterStep.
  destruct (st !! k); [|done]. by apply clusterNode_movedFrom.
Qed.

Lemma inner_notClustered s i d :
  s !! i = Some d → isLeaf d = false → notClustered s i.
Proof.
  intros Hd Hleaf j dj Hj Hin. unfold allChildrenAreLeaves.
  apply (not_all_leaves s i); [done|]. unfold leafAt. by rewrite Hd.
Qed.

(** X7: the clustering pass writes nothing but coordinates, and it moves
    only leaves all of whose siblings are leaves: a node that has
    children, and a leaf that no all-leaves parent lists, stay where
    they are. *)
Theorem clustering_moves_only_clustered_leaves cfg (s : Store) :
  length (clusterPass cfg s) = length s
  ∧ Forall2 movedFrom s (clusterPass cfg s)
  ∧ ∀ i d, s !! i = Some d →
           isLeaf d = false ∨ notClustered s i →
           clusterPass cfg s !! i = Some d.
Proof.
  pose proof (clusterPass_movedFrom cfg s) as H.
  split_and!; [by apply Forall2_length in H|done|].
  intros i d Hd [Hleaf|Hn].
  - rewrite clusterPass_notClustered; [done|]. by eapply inner_notClustered.
  - by rewrite clusterPass_notClustered.
Qed.

Lemma snd_imap_pair (cs : list nat) : map snd (imap pair cs) = cs.
Proof.
  apply list_eq. intros k. rewrite lookup_map, list_lookup_imap.
  by destruct (cs !! k).
Qed.

(** The two-column loop writes the grid position of its index to each
    child, when no child is listed twice. *)
Lemma placeInGrid_fold cfg d m (ics : list (nat * nat)) st k i n :
  NoDup (map snd ics) → (k, i) ∈ ics → st !! i = Some n →
  fold_left (placeInGrid cfg d m) ics st !! i
  = Some (setXY (gridPosition cfg d m k).1 (gridPosition cfg d m k).2 n).
Proof.
  intros Hnd. revert st n.
  induction ics as [|[k' i'] ics IH]; intros st n Hin Hn;
    [by apply elem_of_nil in Hin|].
  simpl in Hnd. apply NoDup_cons in Hnd as [Hi' Hnd].
  cbn [fold_left]. unfold placeInGrid at 2. cbn [fst snd].
  apply elem_of_cons in Hin as [[= -> ->]|Hin].
  - change (fold_left (placeInGrid cfg d m) ics)
      with (alterAll
              (λ ic : nat * nat,
                 setXY (gridPosition cfg d m ic.1).1
                       (gridPosition cfg d m ic.1).2) snd ics).
    rewrite alterAll_other.
    + by rewrite list_lookup_alter_eq, Hn.
    + intros [k2 i2] H2. cbn [snd]. intros ->. apply Hi'.
      exact (list_elem_of_fmap_2 snd ics (k2, i') H2).
  - apply (IH Hnd); [done|].
    rewrite list_lookup_alter_ne; [done|].
    intros ->. apply Hi'.
    exact (list_elem_of_fmap_2 snd ics (k, i) Hin).
Qed.

(** The clustering pass, seen from one child [i] of the parent [j]:
    the child's final place is the one the callback on [j] gives it. *)
Lemma clusterPass_child cfg s j dj i n :
  s !! j = Some dj → s !! i = Some n →
  i ∈ children dj → onlyParent s j i →
  ∃ st, shape st = shape s ∧ st !! i = Some n
        ∧ clusterPass cfg s !! i = clusterNode cfg st dj !! i.
Proof.
  intros Hj Hi Hin Honly.
  assert (isLeaf dj = false) as Hleaf
    by (unfold isLeaf; destruct (children dj);
        [by apply elem_of_nil in Hin|done]).
  assert (leafAt s j = false) as Hlj
    by (unfold leafAt; by rewrite Hj).
  assert (j < length s)%nat as Hjlt by (by eapply lookup_lt_Some).
  unfold clusterPass.
  replace (seq 0 (length s))
    with (seq 0 j ++ j :: seq (S j) (length s - S j)).
  2:{ change (j :: seq (S j) (length s - S j))
        with (seq j (S (length s - S j))).
      rewrite <- seq_app. f_equal. lia. }
  rewrite fold_left_app. simpl.
  set (st1 := fold_left (clusterStep cfg) (seq 0 j) s).
  assert (∀ ks : list nat, j ∉ ks →
          ∀ k dk, k ∈ ks → s !! k = Some dk → i ∈ children dk →
                  allChildrenAreLeaves s dk = false) as Hother.
  { intros ks Hks k dk Hk Hdk Hik.
    rewrite (Honly k dk Hdk Hik) in Hk. done. }
  assert (j ∉ seq 0 j) as Hpre by (rewrite elem_of_seq; lia).
  assert (j ∉ seq (S j) (length s - S j)) as Hpost
    by (rewrite elem_of_seq; lia).
  destruct (clusterSteps_other cfg s i (seq 0 j) (Hother _ Hpre) s eq_refl)
    as [Hi1 Hsh1].
  destruct (clusterSteps_other cfg s j (seq 0 j)) with (st := s)
    as [Hj1 _]; [|done|].
  { intros k dk _ Hdk Hjk. unfold allChildrenAreLeaves.
    by apply (not_all_leaves s j). }
  fold st1 in Hi1, Hsh1, Hj1. rewrite Hi in Hi1. rewrite Hj in Hj1.
  assert (shape (clusterStep cfg st1 j) = shape s) as Hsh2
    by (by rewrite clusterStep_shape).
  destruct (clusterSteps_other cfg s i _ (Hother _ Hpost) _ Hsh2) as [-> _].
  exists st1. split_and!; [done..|].
  unfold clusterStep. by rewrite Hj1.
Qed.

Lemma gridRows_last (m : nat) : (0 < m)%nat → ((m - 1) / 2 = gridRows m - 1)%nat.
Proof.
  intros Hm. unfold gridRows.
  replace (m + 1)%nat with ((m - 1) + 1 * 2)%nat by lia.
  rewrite Nat.div_add by done. lia.
Qed.

(** The final place of the child at index [k] of a grid. *)
Lemma clusterPass_grid_child cfg s j dj k i n :
  s !! j = Some dj → s !! i = Some n →
  allChildrenAreLeaves s dj = true →
  (2 < length (children dj))%nat → NoDup (children dj) →
  children dj !! k = Some i → onlyParent s j i →
  clusterPass cfg s !! i
  = Some (setXY (gridPosition cfg dj (length (children dj)) k).1
                (gridPosition cfg dj (length (children dj)) k).2 n).
Proof.
  intros Hj Hi Hall Hlen Hnd Hk Honly.
  assert (i ∈ children dj) as Hin by (by eapply list_elem_of_lookup_2).
  destruct (clusterPass_child cfg s j dj i n Hj Hi Hin Honly)
    as (st & Hsh & Hsti & ->).
  unfold clusterNode.
  assert (isLeaf dj = false) as ->
    by (unfold isLeaf; destruct (children dj);
        [by apply elem_of_nil in Hin|done]).
  rewrite (allChildrenAreLeaves_shape s st dj dj Hsh eq_refl), Hall.
  apply Nat.ltb_lt in Hlen as Hlt. rewrite Hlt. cbn [negb].
  apply (placeInGrid_fold cfg dj _ _ st k i n); [|by apply
    (elem_of_lookup_imap_2 pair)|done].
  by rewrite snd_imap_pair.
Qed.

Lemma column_of_index (k : nat) : (k mod 2 =? 0)%nat = Nat.even k.
Proof.
  destruct (Nat.even k) eqn:Ek.
  - apply Nat.eqb_eq. apply Nat.even_spec in Ek as [h ->].
    rewrite Nat.mul_comm. by apply Nat.Div0.mod_mul.
  - apply Nat.eqb_neq. intros Hm.
    apply Nat.Div0.mod_divides in Hm as [h ->].
    rewrite Nat.even_mul in Ek. done.
Qed.

(** X8: the grid under a parent with more than two children, all
    leaves.  The child at index [k] ends in row [k / 2]; the rows are
    1.2 times the vertical spacing apart and centred on the parent's
    cross-axis coordinate (the first row is as far above it as the
    last row, which has index [rows - 1], is below it); children with
    an even index end 0.15 times the horizontal spacing to the left of
    the centre line of the grid, those with an odd index as much to
    its right, and the centre line is half the horizontal spacing from
    the parent, on the parent's side. *)
Theorem grid_rows_centred_columns_symmetric cfg s j dj k i n :
  s !! j = Some dj → s !! i = Some n →
  allChildrenAreLeaves s dj = true →
  (2 < length (children dj))%nat → NoDup (children dj) →
  children dj !! k = Some i → onlyParent s j i →
  ∃ n',
    clusterPass cfg s !! i = Some n'
    ∧ y n' == y dj
              + (ofNat (k / 2) - (ofNat (gridRows (length (children dj))) - 1) / 2)
                * (nodeSpacingVertical cfg * 1.2)
    ∧ x n' == gridCentreX cfg dj
              + (if Nat.even k then -0.15 else 0.15) * nodeSpacingHorizontal cfg
    ∧ gridCentreX cfg dj
      == x dj + (match getNodeSide dj with Left => -0.5 | Right => 0.5 end)
                * nodeSpacingHorizontal cfg
    ∧ ((length (children dj) - 1) / 2
       = gridRows (length (children dj)) - 1)%nat.
Proof.
  intros Hj Hi Hall Hlen Hnd Hk Honly.
  assert (i ∈ children dj) as Hin by (by eapply list_elem_of_lookup_2).
  destruct (clusterPass_child cfg s j dj i n Hj Hi Hin Honly)
    as (st & Hsh & Hsti & ->).
  unfold clusterNode.
  assert (isLeaf dj = false) as ->
    by (unfold isLeaf; destruct (children dj);
        [by apply elem_of_nil in Hin|done]).
  rewrite (allChildrenAreLeaves_shape s st dj dj Hsh eq_refl), Hall.
  apply Nat.ltb_lt in Hlen as Hlt. rewrite Hlt. cbn [negb].
  rewrite (placeInGrid_fold cfg dj _ _ st k i n); [| |by apply
    (elem_of_lookup_imap_2 pair)|done].
  2:{ by rewrite snd_imap_pair. }
  eexists. split; [reflexivity|].
  cbn [x y setXY]. unfold gridPosition, gridCentreX, leafHorizontalOffset,
    direction, gridRows. cbn [fst snd].
  split_and!.
  - halves. lra.
  - destruct (Nat.even k) eqn:Ek.
    + assert ((k mod 2 =? 0)%nat = true) as ->.
      { apply Nat.eqb_eq. apply Nat.even_spec in Ek as [h ->].
        rewrite Nat.mul_comm. by apply Nat.Div0.mod_mul. }
      halves. lra.
    + assert ((k mod 2 =? 0)%nat = false) as ->.
      { apply Nat.eqb_neq. intros Hm.
        apply Nat.Div0.mod_divides in Hm as [h ->].
        rewrite Nat.even_mul in Ek. done. }
      halves. lra.
  - destruct (getNodeSide dj); lra.
  - apply gridRows_last. lia.
Qed.

Lemma grid_rows_centred_columns_symmetric_witness :
  ∃ n', clusterPass defaultConfig (invertedLayout threeLeaves) !! 3%nat
        = Some n'
        ∧ y n' == 120 ∧ x n' == 350.
Proof.
  destruct (grid_rows_centred_columns_symmetric defaultConfig
              (invertedLayout threeLeaves) 0%nat _ 2%nat 3%nat _
              eq_refl eq_refl eq_refl)
    as (n' & Hn' & Hy & Hx & _).
  - simpl. lia.
  - change (NoDup [1; 2; 3]%nat).
    apply (bool_decide_unpack (NoDup [1; 2; 3]%nat)). by vm_compute.
  - reflexivity.
  - intros k d Hk Hin.
    destruct k as [|[|[|[|k]]]]; [done|..];
      try (injection Hk as <-; by apply elem_of_nil in Hin).
    discriminate Hk.
  - exists n'. split; [exact Hn'|].
    injection Hn' as <-. split; reflexivity.
Defined.

End GridFacts.

(** ** Side inversion and the places of clustered leaves *)

Module MirrorFacts.
Import Js Layout Spec Examples ListFacts ClusterFacts GridFacts.

(** The depth-axis coordinate of the child at index [k] of a grid, in
    terms of the tree layout's coordinates. *)
Lemma clusteredLayout_grid cfg s j p k i d :
  s !! j = Some p → s !! i = Some d →
  allChildrenAreLeaves s p = true →
  (2 < length (children p))%nat → NoDup (children p) →
  children p !! k = Some i → onlyParent s j i →
  ∃ n, clusteredLayout cfg s !! i = Some n
       ∧ x n == x (inverted p) + leafHorizontalOffset cfg * direction p
                + (if Nat.even k then -0.15 else 0.15)
                  * nodeSpacingHorizontal cfg.
Proof.
  intros Hj Hi Hall Hlen Hnd Hk Honly.
  pose proof (shape_inverted s) as Hsh.
  eexists. split.
  - unfold clusteredLayout.
    apply (clusterPass_grid_child cfg _ j (inverted p) k i (inverted d)).
    + by rewrite invertedLayout_lookup, Hj.
    + by rewrite invertedLayout_lookup, Hi.
    + by rewrite (allChildrenAreLeaves_shape s _ p _ Hsh (inverted_children p)).
    + by rewrite inverted_children.
    + by rewrite inverted_children.
    + by rewrite inverted_children.
    + by apply (onlyParent_shape s).
  - cbn [x setXY]. unfold gridPosition, direction. cbn [fst].
    rewrite inverted_side, column_of_index.
    destruct (Nat.even k); unfold Qdiv; change (/ 2) with (1 # 2); ring.
Qed.

(** C4, amended.  Take two stores with the same tree and tree layout in
    which the node [i] has effective side left, resp. right.
    - After the inversion pass the node's depth-axis coordinates are
      exact negations of each other: [-originalX] and [originalX], with
      the same [originalX], captured once before the inversion; running
      the inversion again changes nothing.
    - After leaf clustering this still holds if no all-leaves parent
      lists the node.
    - If the node is one of the one or two leaf children of its parent,
      which are placed in a single column, its final coordinate is the
      parent's plus or minus half the horizontal spacing, by the
      parent's side: the two final coordinates are negations of each
      other when the parent is on the left in one store and on the
      right in the other, and the cross-axis coordinate is the tree
      layout's.
    - If the node is one of four or more leaf children of its parent,
      which are placed in the two-column grid, the shift to its column
      is the same on both sides: the two final coordinates add up to
      twice that shift, -0.3 times the horizontal spacing for a child
      with an even index and +0.3 times for one with an odd index, and
      are negations of each other only for a spacing of zero. *)
Theorem inversion_mirrors_depth_axis cfg sL sR i dL dR :
  sameLayout sL sR →
  sL !! i = Some dL → sR !! i = Some dR →
  getNodeSide dL = Left → getNodeSide dR = Right →
  (∃ nL nR,
     invertedLayout sL !! i = Some nL ∧ invertedLayout sR !! i = Some nR
     ∧ originalX nL = originalX nR
     ∧ x nL = - originalX nL ∧ x nR = originalX nR
     ∧ x nL == - x nR)
  ∧ inversionPass (invertedLayout sL) = invertedLayout sL
  ∧ (notClustered sL i →
     ∃ nL nR,
       clusteredLayout cfg sL !! i = Some nL
       ∧ clusteredLayout cfg sR !! i = Some nR
       ∧ x nL == - x nR)
  ∧ (∀ j pL pR,
       sL !! j = Some pL → sR !! j = Some pR →
       getNodeSide pL = Left → getNodeSide pR = Right →
       i ∈ children pL → allChildrenAreLeaves sL pL = true →
       (length (children pL) ≤ 2)%nat → onlyParent sL j i →
       ∃ nL nR,
         clusteredLayout cfg sL !! i = Some nL
         ∧ clusteredLayout cfg sR !! i = Some nR
         ∧ x nL == - x nR
         ∧ y nL = x dL ∧ y nR = x dL)
  ∧ (∀ j pL pR k,
       sL !! j = Some pL → sR !! j = Some pR →
       getNodeSide pL = Left → getNodeSide pR = Right →
       children pL !! k = Some i → NoDup (children pL) →
       allChildrenAreLeaves sL pL = true →
       (4 ≤ length (children pL))%nat → onlyParent sL j i →
       ∃ nL nR,
         clusteredLayout cfg sL !! i = Some nL
         ∧ clusteredLayout cfg sR !! i = Some nR
         ∧ x nL + x nR
           == (if Nat.even k then -0.3 else 0.3) * nodeSpacingHorizontal cfg
         ∧ (x nL == - x nR ↔ nodeSpacingHorizontal cfg == 0)).
Proof.
  intros Hsame HL HR HsL HsR.
  destruct (mirrored_outside_grid cfg sL sR i dL dR Hsame HL HR HsL HsR)
    as (Hinv & Hagain & Hout & Hcolumn).
  split_and!; [done..|].
  intros j pL pR k HpL HpR HdL HdR Hk Hnd Hall Hlen Honly.
  pose proof (sameLayout_shape _ _ Hsame) as Hsh.
  destruct (Forall2_lookup_lr _ sL sR j pL pR Hsame HpL HpR)
    as (Hpx & Hpy & Hpc).
  destruct (clusteredLayout_grid cfg sL j pL k i dL)
    as (nL & HnL & HxL); try done; [lia|].
  destruct (clusteredLayout_grid cfg sR j pR k i dR)
    as (nR & HnR & HxR); try done.
  { by rewrite (allChildrenAreLeaves_shape sL sR pL pR (eq_sym Hsh)
                  (eq_sym Hpc)). }
  { rewrite <- Hpc. lia. }
  { by rewrite <- Hpc. }
  { by rewrite <- Hpc. }
  { by apply (onlyParent_shape sL). }
  exists nL, nR. split; [done|]. split; [done|].
  assert (x nL + x nR
          == (if Nat.even k then -0.3 else 0.3) * nodeSpacingHorizontal cfg)
    as Hsum.
  { rewrite HxL, HxR, !inverted_x. unfold direction.
    rewrite HdL, HdR, Hpy. destruct (Nat.even k); ring. }
  split; [exact Hsum|].
  revert Hsum. generalize (x nL) (x nR) (nodeSpacingHorizontal cfg).
  intros a b h Hsum. destruct (Nat.even k); split; intros H; lra.
Qed.

Lemma inversion_mirrors_depth_axis_witness :
  ∃ nL nR,
    invertedLayout (inheritancePass (sidedGroupOfFour "left")) !! 1%nat
    = Some nL
    ∧ invertedLayout (inheritancePass (sidedGroupOfFour "right")) !! 1%nat
      = Some nR
    ∧ x nL == - x nR.
Proof.
  assert (sameLayout (inheritancePass (sidedGroupOfFour "left"))
                     (inheritancePass (sidedGroupOfFour "right"))) as Hsame
    by (repeat constructor).
  destruct (inversion_mirrors_depth_axis defaultConfig
              (inheritancePass (sidedGroupOfFour "left"))
              (inheritancePass (sidedGroupOfFour "right")) 1%nat _ _
              Hsame eq_refl eq_refl eq_refl eq_refl)
    as ((nL & nR & HL & HR & _ & _ & _ & Hneg) & _).
  by exists nL, nR.
Defined.

End MirrorFacts.

(** ** Category groups are a partition; rectangles are bounding boxes *)

Module PartitionFacts.
Import Js JsObject Layout Spec LayoutNotions ListFacts ExtremeFacts.
Import BoundsFacts.
Import GroupFacts.

Lemma pushGroup_member c n g c' i :
  (∃ m, (c', m) ∈ pushGroup c n g ∧ i ∈ m)
  ↔ ((∃ m, (c', m) ∈ g ∧ i ∈ m) ∨ (c' = c ∧ i = n)).
Proof.
  induction g as [|[k mem] rest IH]; simpl.
  - split.
    + intros (m & Hm & Hi). apply list_elem_of_singleton in Hm.
      injection Hm as -> ->. apply list_elem_of_singleton in Hi. by right.
    + intros [(m & Hm%elem_of_nil & _)|[-> ->]]; [done|].
      exists [n]. split; by apply list_elem_of_singleton.
  - destruct (String.eqb_spec k c) as [->|Hne].
    + split.
      * intros (m & [[= -> ->]|Hm]%elem_of_cons & Hi).
        -- apply elem_of_app in Hi as [Hi|Hi].
           ++ left. exists mem. split; [by left|done].
           ++ apply list_elem_of_singleton in Hi. by right.
        -- left. exists m. split; [by right|done].
      * intros [(m & [[= -> ->]|Hm]%elem_of_cons & Hi)|[-> ->]].
        -- exists (mem ++ [n]). split; [by left|].
           apply elem_of_app. by left.
        -- exists m. split; [by right|done].
        -- exists (mem ++ [n]). split; [by left|].
           apply elem_of_app. right. by apply list_elem_of_singleton.
    + split.
      * intros (m & [[= -> ->]|Hm]%elem_of_cons & Hi).
        -- left. exists mem. split; [by left|done].
        -- destruct (proj1 IH) as [(m' & Hm' & Hi')|Hnew]; [by exists m| |].
           ++ left. exists m'. split; [by right|done].
           ++ by right.
      * intros [(m & [[= -> ->]|Hm]%elem_of_cons & Hi)|Hnew].
        -- exists mem. split; [by left|done].
        -- destruct (proj2 IH) as (m' & Hm' & Hi'); [left; by exists m|].
           exists m'. split; [by right|done].
        -- destruct (proj2 IH) as (m' & Hm' & Hi'); [by right|].
           exists m'. split; [by right|done].
Qed.

Lemma truthy_Some_ne c : truthy (Some c) = true ↔ c ≠ EmptyString.
Proof.
  simpl. destruct (String.eqb_spec c EmptyString) as [->|Hne]; simpl.
  - split; [done|]. by intros H.
  - by split.
Qed.

Lemma categoryGroups_member (s : Store) gs i c :
  categoryGroups s = Some gs →
  (∃ m, (c, m) ∈ gs ∧ i ∈ m)
  ↔ (∃ d, s !! i = Some d ∧ inheritedCategory d = Some c ∧ c ≠ EmptyString).
Proof.
  revert gs i c. induction s as [|e s IH] using rev_ind; intros gs i c.
  - intros [= <-]. split.
    + by intros (m & Hm%elem_of_nil & _).
    + intros (d & Hd & _). by rewrite lookup_nil in Hd.
  - rewrite categoryGroups_snoc.
    destruct (categoryGroups s) as [gs0|]; [|done].
    cbn [mbind option_bind]. intros Hstep.
    assert ((∃ d, (s ++ [e]) !! i = Some d ∧ inheritedCategory d = Some c
                  ∧ c ≠ EmptyString)
            ↔ ((∃ d, s !! i = Some d ∧ inheritedCategory d = Some c
                     ∧ c ≠ EmptyString)
               ∨ (i = length s ∧ inheritedCategory e = Some c
                  ∧ c ≠ EmptyString))) as ->.
    { split.
      - intros (d & Hd & Hc).
        apply lookup_app_Some in Hd as [Hd|[Hge Hd]].
        + left. by exists d.
        + right. destruct (i - length s)%nat eqn:E; [|done].
          injection Hd as <-. split; [lia|done].
      - intros [(d & Hd & Hc)|(-> & Hc)].
        + exists d. split; [|done]. by apply lookup_app_l_Some.
        + exists e. split; [|done].
          by rewrite lookup_app_r, Nat.sub_diag. }
    rewrite <- (IH gs0 i c eq_refl).
    unfold groupStep in Hstep. cbn [fst snd] in Hstep.
    destruct (inheritedCategory e) as [c0|] eqn:Ec.
    + destruct (truthy (Some c0)) eqn:Et.
      * destruct (inherited c0); [done|]. injection Hstep as <-.
        rewrite pushGroup_member. apply truthy_Some_ne in Et.
        split; (intros [H|H]; [by left|right]).
        -- destruct H as [-> ->]. done.
        -- destruct H as (-> & [= ->] & _). done.
      * injection Hstep as <-.
        split; [by left|]. intros [H|(_ & [= ->] & Hne)]; [done|].
        apply truthy_Some_ne in Hne. congruence.
    + injection Hstep as <-.
      split; [by left|]. by intros [H|(_ & [=] & _)].
Qed.

(** The grouping throws exactly when a node is in a category named like
    a property of the prototype. *)
Lemma categoryGroups_throws (s : Store) :
  categoryGroups s = None
  ↔ ∃ d c, d ∈ s ∧ inheritedCategory d = Some c ∧ c ∈ objectPrototypeKeys.
Proof.
  induction s as [|e s IH] using rev_ind.
  - split; [done|]. by intros (d & c & Hd%elem_of_nil & _).
  - rewrite categoryGroups_snoc.
    destruct (categoryGroups s) as [gs0|]; cbn [mbind option_bind].
    + rewrite groupStep_None. split.
      * intros (c & Hc & Hin). exists e, c. split; [|done].
        apply elem_of_app. right. by apply list_elem_of_singleton.
      * intros (d & c & [Hd|Hd]%elem_of_app & Hc & Hin).
        -- assert (@None (Obj (list nat)) = Some gs0) as E; [|done].
           symmetry. apply IH. by exists d, c.
        -- apply list_elem_of_singleton in Hd as ->. by exists c.
    + split; [|done]. intros _.
      destruct (proj1 IH eq_refl) as (d & c & Hd & Hc).
      exists d, c. split; [|done]. apply elem_of_app. by left.
Qed.

(** X9: the grouping by category.  The loop throws exactly when a node
    is in a category named like a property of [Object.prototype]
    (["constructor"], ["toString"], ...).  Otherwise the category
    groups are a partition of the nodes that have a category: a node is
    a member of the group named [c] exactly when its inherited category
    is the non-empty string [c]; a node without category is in no
    group; no name has two groups and no group lists a node twice or is
    empty. *)
Theorem categoryGroups_partition (s : Store) :
  (categoryGroups s = None
   ↔ ∃ d c, d ∈ s ∧ inheritedCategory d = Some c
            ∧ c ∈ objectPrototypeKeys)
  ∧ ∀ gs, categoryGroups s = Some gs →
      (∀ i c, (∃ m, (c, m) ∈ gs ∧ i ∈ m)
              ↔ (∃ d, s !! i = Some d ∧ inheritedCategory d = Some c
                      ∧ c ≠ EmptyString))
      ∧ NoDup (map fst gs)
      ∧ Forall (λ g, g.2 ≠ [] ∧ NoDup g.2) gs
      ∧ (∀ i c1 m1 c2 m2,
           (c1, m1) ∈ gs → (c2, m2) ∈ gs →
           i ∈ m1 → i ∈ m2 → c1 = c2 ∧ m1 = m2).
Proof.
  split; [apply categoryGroups_throws|]. intros gs Hgs.
  destruct (categoryGroups_inv s gs Hgs) as [_ [Hnd Hgood]].
  split_and!; [intros i c; by apply categoryGroups_member|done| |].
  - eapply Forall_impl; [exact Hgood|]. intros g (? & ? & _). done.
  - intros i c1 m1 c2 m2 H1 H2 Hi1 Hi2.
    destruct (proj1 (categoryGroups_member s gs i c1 Hgs))
      as (d1 & Hd1 & Hc1 & _); [by exists m1|].
    destruct (proj1 (categoryGroups_member s gs i c2 Hgs))
      as (d2 & Hd2 & Hc2 & _); [by exists m2|].
    assert (c1 = c2) as -> by congruence. split; [done|].
    apply list_elem_of_lookup in H1 as [k1 Hk1].
    apply list_elem_of_lookup in H2 as [k2 Hk2].
    assert (k1 = k2) as ->; [|congruence].
    eapply NoDup_lookup; [exact Hnd| |].
    + by rewrite lookup_map, Hk1.
    + by rewrite lookup_map, Hk2.
Qed.

(** The running minimum is its start value or one of the elements. *)
Lemma foldMin_attained (vs : list Q) (a m : Q) :
  fold_left jsMin vs (Some a) = Some m → m = a ∨ m ∈ vs.
Proof.
  revert a. induction vs as [|v vs IH]; intros a; simpl.
  - intros [= <-]. by left.
  - intros H. destruct (IH _ H) as [->|Hin]; [|right; by right].
    destruct (Qmin_cases a v) as [[_ ->]|[_ ->]]; [by left|right; by left].
Qed.

Lemma foldMax_attained (vs : list Q) (a m : Q) :
  fold_left jsMax vs (Some a) = Some m → m = a ∨ m ∈ vs.
Proof.
  revert a. induction vs as [|v vs IH]; intros a; simpl.
  - intros [= <-]. by left.
  - intros H. destruct (IH _ H) as [->|Hin]; [|right; by right].
    destruct (Qmax_cases a v) as [[_ ->]|[_ ->]]; [right; by left|by left].
Qed.

Lemma attained_in (f : LNode → Q) d ns m :
  m = f d ∨ m ∈ map f ns → ∃ e, e ∈ d :: ns ∧ f e = m.
Proof.
  intros [->|Hin].
  - exists d. split; [by left|done].
  - change (m ∈ f <$> ns) in Hin.
    apply list_elem_of_fmap in Hin as (e & -> & He).
    exists e. split; [by right|done].
Qed.

Lemma bounds_hold_and_tight ns padding b :
  calculateCategoryBounds ns padding = Some b →
  Forall (holds padding b) ns ∧ tight padding b ns.
Proof.
  destruct ns as [|d ns]; [done|].
  destruct (calculateCategoryBounds_cons d ns padding)
    as (mx & Mx & my & My & Hmx & HMx & Hmy & HMy & _ & _ & ->).
  intros [= <-].
  destruct (foldMin_Some (lefts ns) (x d - nodeWidth d / 2))
    as (mx' & Hmx' & Hlx & Hallx).
  destruct (foldMax_Some (rights ns) (x d + nodeWidth d / 2))
    as (Mx' & HMx' & Hrx & HallX).
  destruct (foldMin_Some (tops ns) (y d - nodeHeight d / 2))
    as (my' & Hmy' & Hly & Hally).
  destruct (foldMax_Some (bottoms ns) (y d + nodeHeight d / 2))
    as (My' & HMy' & Hry & HallY).
  assert (mx' = mx) as -> by congruence.
  assert (Mx' = Mx) as -> by congruence.
  assert (my' = my) as -> by congruence.
  assert (My' = My) as -> by congruence.
  split.
  - constructor.
    + unfold holds. cbn [rectX rectY rectWidth rectHeight]. lra.
    + unfold lefts, rights, tops, bottoms in *.
      apply Forall_forall. intros e He.
      rewrite Forall_forall in Hallx. rewrite Forall_forall in HallX.
      rewrite Forall_forall in Hally. rewrite Forall_forall in HallY.
      assert (∀ f : LNode → Q, f e ∈ map f ns) as Hmem
        by (intros f; exact (list_elem_of_fmap_2 f ns e He)).
      specialize (Hallx _ (Hmem _)). specialize (HallX _ (Hmem _)).
      specialize (Hally _ (Hmem _)). specialize (HallY _ (Hmem _)).
      cbv beta in *.
      unfold holds. cbn [rectX rectY rectWidth rectHeight]. lra.
  - apply foldMin_attained in Hmx. apply foldMax_attained in HMx.
    apply foldMin_attained in Hmy. apply foldMax_attained in HMy.
    destruct (attained_in (λ d, x d - nodeWidth d / 2) d ns mx Hmx)
      as (e1 & He1 & Hv1).
    destruct (attained_in (λ d, x d + nodeWidth d / 2) d ns Mx HMx)
      as (e2 & He2 & Hv2).
    destruct (attained_in (λ d, y d - nodeHeight d / 2) d ns my Hmy)
      as (e3 & He3 & Hv3).
    destruct (attained_in (λ d, y d + nodeHeight d / 2) d ns My HMy)
      as (e4 & He4 & Hv4).
    cbv beta in *.
    unfold tight. cbn [rectX rectY rectWidth rectHeight].
    split_and!; [exists e1|exists e2|exists e3|exists e4];
      (split; [done|]); rewrite ?Hv1, ?Hv2, ?Hv3, ?Hv4; lra.
Qed.

(** X10: [calculateCategoryBounds] returns the minimal rectangle around
    the footprints, inflated by the padding: every footprint is inside
    with the padding to spare, each of the four sides is touched, less
    the padding, by some footprint, and an empty array of nodes gives no
    finite rectangle. *)
Theorem bounds_are_minimal_padded_box ns padding :
  (ns = [] ↔ calculateCategoryBounds ns padding = None)
  ∧ ∀ b, calculateCategoryBounds ns padding = Some b →
         Forall (holds padding b) ns ∧ tight padding b ns.
Proof.
  split; [|apply bounds_hold_and_tight].
  destruct ns as [|d ns]; [done|].
  destruct (calculateCategoryBounds_cons d ns padding)
    as (? & ? & ? & ? & _ & _ & _ & _ & _ & _ & ->).
  done.
Qed.

End PartitionFacts.

(** ** What the sweeps do to the nodes *)

Module SweepEffectFacts.
Import Js JsObject Layout Spec LayoutNotions Examples ListFacts.
Import ExtremeFacts.
Import BoundsFacts ClusterFacts GroupFacts SweepFacts AggregateFacts.
Import PartitionFacts GridFacts.

Lemma grownOffset_ge cats st k bounds offset :
  grownOffset cats st k bounds = Some offset → cumulativeOffset st <= offset.
Proof.
  unfold grownOffset. destruct (0 <? k)%nat; [|intros [= <-]; lra].
  destruct (cats !! (k - 1)%nat) as [prev|]; [|done]. simpl.
  destruct (lookupBounds (catName prev) (categoryBounds st)) as [pb|]; [|done].
  simpl.
  destruct (Qle_bool (rectY pb + rectHeight pb + categorySpacing)
                     (rectY bounds + cumulativeOffset st)) eqn:E; simpl.
  - intros [= <-]. lra.
  - intros [= <-].
    assert (¬ rectY pb + rectHeight pb + categorySpacing
              <= rectY bounds + cumulativeOffset st) as Hn.
    { intros H. apply Qle_bool_iff in H. congruence. }
    lra.
Qed.

(** What a successful step of the sweep has done. *)
Lemma sweepStep_effect cats st k c st' :
  sweepStep cats st k c = Some st' →
  ∃ offset ns' r,
    cumulativeOffset st <= offset ∧ cumulativeOffset st' = offset
    ∧ (nodes st' = nodes st
       ∨ nodes st' = shiftNodes offset (catNodes c) (nodes st))
    ∧ nodesAt (nodes st') (catNodes c) = Some ns'
    ∧ calculateCategoryBounds ns' categoryPadding = Some r
    ∧ categoryBounds st'
      = storeBounds (catName c) r (categoryBounds st).
Proof.
  unfold sweepStep.
  destruct (nodesAt (nodes st) (catNodes c)) as [ns|] eqn:Hns; [|done].
  cbn [mbind option_bind].
  destruct (calculateCategoryBounds ns categoryPadding) as [b|] eqn:Hb;
    [|done].
  cbn [mbind option_bind].
  destruct (grownOffset cats st k b) as [offset|] eqn:Hoff; [|done].
  cbn [mbind option_bind].
  pose proof (grownOffset_ge _ _ _ _ _ Hoff) as Hge.
  destruct (negb (Qeq_bool offset 0)).
  - destruct (nodesAt (shiftNodes offset (catNodes c) (nodes st))
                      (catNodes c)) as [ns'|] eqn:Hns'; [|done].
    cbn [mbind option_bind].
    destruct (calculateCategoryBounds ns' categoryPadding) as [b'|] eqn:Hb';
      [|done].
    cbn [mbind option_bind]. intros [= <-].
    exists offset, ns', b'. cbn [nodes cumulativeOffset categoryBounds].
    split_and!; try done. by right.
  - intros [= <-]. exists offset, ns, b.
    cbn [nodes cumulativeOffset categoryBounds].
    split_and!; try done. by left.
Qed.

Lemma movedDown_refl d : movedDown d d.
Proof. split_and!; [apply movedFrom_refl|done|lra]. Qed.

Lemma shiftNodes_movedDown offset refs (s0 st : Store) :
  0 <= offset →
  Forall2 movedDown s0 st → Forall2 movedDown s0 (shiftNodes offset refs st).
Proof.
  intros Hoff. revert st. induction refs as [|r refs IH]; intros st Hst; [done|].
  unfold shiftNodes in *. simpl. apply IH. apply Forall2_alter_r; [done|].
  intros d d' _ _ (Hfrom & Hx & Hy). split_and!; [done|done|].
  cbn [shiftY setXY y]. lra.
Qed.

Lemma sweepFrom_movedDown (s0 : Store) cats todo k st st' :
  sweepFrom cats k todo st = Some st' →
  0 <= cumulativeOffset st → Forall2 movedDown s0 (nodes st) →
  Forall2 movedDown s0 (nodes st').
Proof.
  revert k st. induction todo as [|c todo IH]; intros k st.
  - by intros [= <-].
  - cbn [sweepFrom].
    destruct (sweepStep cats st k c) as [st1|] eqn:Hstep; [|done].
    cbn [mbind option_bind]. intros Hrest Hoff Hst.
    destruct (sweepStep_effect _ _ _ _ _ Hstep)
      as (offset & ns' & r & Hge & Hoff1 & Hnodes & _).
    apply (IH _ _ Hrest); [rewrite Hoff1; lra|].
    destruct Hnodes as [->| ->]; [done|].
    apply shiftNodes_movedDown; [lra|done].
Qed.

Lemma sweepFrom_untouched cats todo k st st' i :
  sweepFrom cats k todo st = Some st' →
  (∀ c, c ∈ todo → i ∉ catNodes c) →
  nodes st' !! i = nodes st !! i.
Proof.
  revert k st. induction todo as [|c todo IH]; intros k st.
  - by intros [= <-].
  - cbn [sweepFrom].
    destruct (sweepStep cats st k c) as [st1|] eqn:Hstep; [|done].
    cbn [mbind option_bind]. intros Hrest Hout.
    destruct (sweepStep_effect _ _ _ _ _ Hstep)
      as (offset & ns' & r & _ & _ & Hnodes & _).
    rewrite (IH _ _ Hrest) by (intros c' Hc'; apply Hout; by right).
    destruct Hnodes as [->| ->]; [done|].
    apply (alterAll_other (λ _ : nat, shiftY offset) id).
    intros a Ha. simpl. intros ->. by apply (Hout c); [left|].
Qed.

Lemma processSide_Some cats s cb s' cb' :
  processSide cats s cb = Some (s', cb') →
  ∃ st', sweepFrom cats 0 cats (mkSweep s 0 cb) = Some st'
         ∧ s' = nodes st' ∧ cb' = categoryBounds st'.
Proof.
  unfold processSide.
  destruct (sweepFrom cats 0 cats (mkSweep s 0 cb)) as [st'|]; [|done].
  cbn [mbind option_bind]. intros [= <- <-]. exists st'.
  split; [reflexivity|]. split; reflexivity.
Qed.

Lemma aggregate_Some s s' cb :
  aggregate s = Some (s', cb) →
  ∃ cd s1 cb1,
    categoryData s = Some cd
    ∧ processSide (leftCategories cd) s [] = Some (s1, cb1)
    ∧ processSide (rightCategories cd) s1 cb1 = Some (s', cb).
Proof.
  unfold aggregate.
  destruct (categoryData s) as [cd|]; [|done]. cbn [mbind option_bind].
  destruct (processSide (leftCategories cd) s []) as [[s1 cb1]|] eqn:HL;
    [|done].
  cbn [mbind option_bind fst snd]. intros H. exists cd, s1, cb1.
  split; [reflexivity|]. split; [exact HL|exact H].
Qed.

(** Every category record is one of the groups. *)
Lemma categoryData_groups (s : Store) cd c :
  categoryData s = Some cd → c ∈ cd →
  ∃ gs, categoryGroups s = Some gs ∧ (catName c, catNodes c) ∈ gs.
Proof.
  intros (gs & Hgs & Hcd)%categoryData_inv Hc. exists gs. split; [done|].
  apply list_elem_of_lookup in Hc as [k Hk].
  destruct (Forall2_lookup_r _ _ _ _ _ Hcd Hk) as ([nm refs] & Hg & Hmk).
  unfold mkCategory in Hmk. cbn [fst snd] in Hmk.
  destruct (nodesAt s refs) as [ns|]; [|done]. cbn [mbind option_bind] in Hmk.
  destruct (head ns); [|done]. cbn [mbind option_bind] in Hmk.
  injection Hmk as <-. cbn [catName catNodes].
  rewrite <- (entries_perm gs). by eapply list_elem_of_lookup_2.
Qed.

(** The members of a category record are the nodes of that category. *)
Lemma categoryData_member (s : Store) cd c i :
  categoryData s = Some cd → c ∈ cd → i ∈ catNodes c →
  ∃ d, s !! i = Some d ∧ inheritedCategory d = Some (catName c)
       ∧ catName c ≠ EmptyString.
Proof.
  intros Hcd Hc Hi.
  destruct (categoryData_groups s cd c Hcd Hc) as (gs & Hgs & Hin).
  apply (proj1 (categoryGroups_member s gs i (catName c) Hgs)).
  by exists (catNodes c).
Qed.

Lemma categoryData_goodRefs (s : Store) cd c :
  categoryData s = Some cd → c ∈ cd → goodRefs (length s) (catNodes c).
Proof.
  intros Hcd Hc.
  destruct (categoryData_groups s cd c Hcd Hc) as (gs & Hgs & Hin).
  destruct (categoryGroups_inv s gs Hgs) as [_ [_ Hg]].
  rewrite Forall_forall in Hg. exact (Hg _ Hin).
Qed.

Lemma bucket_in_cd cd c :
  c ∈ leftCategories cd ∨ c ∈ rightCategories cd → c ∈ cd.
Proof. intros [H|H]; by apply bucket_elem in H as [? _]. Qed.

Lemma cd_in_bucket cd c :
  c ∈ cd → c ∈ leftCategories cd ∨ c ∈ rightCategories cd.
Proof.
  intros Hc. unfold leftCategories, rightCategories.
  rewrite !sortByAvgY_perm. unfold onSide.
  destruct (catSide c) eqn:E; [left|right];
    apply list_elem_of_filter; by rewrite E.
Qed.

(** Both sweeps together. *)
Lemma aggregate_movedDown (s s' : Store) cb :
  aggregate s = Some (s', cb) → Forall2 movedDown s s'.
Proof.
  intros Hagg.
  destruct (aggregate_Some _ _ _ Hagg) as (cd & s1 & cb1 & Hcd & HL & HR).
  destruct (processSide_Some _ _ _ _ _ HL) as (stL & HsL & -> & ->).
  destruct (processSide_Some _ _ _ _ _ HR) as (stR & HsR & -> & ->).
  apply (sweepFrom_movedDown s _ _ _ _ _ HsR); [simpl; lra|].
  apply (sweepFrom_movedDown s _ _ _ _ _ HsL); [simpl; lra|].
  apply Forall2_same_length_lookup. split; [done|].
  intros i d d' Hd Hd'. simpl in Hd'. rewrite Hd in Hd'.
  injection Hd' as <-. apply movedDown_refl.
Qed.

(** X11: the sweeps move nodes straight down and nothing else.  For
    footprints of non-negative height and no category named like a
    property of [Object.prototype] the aggregation succeeds, and after
    it every node has its old [x], a [y] that is not smaller, and all
    other fields unchanged; a node without category stays where it
    is. *)
Theorem aggregation_only_moves_nodes_down (s : Store) :
  Forall tall s → plainCategories s →
  ∃ s' cb,
    aggregate s = Some (s', cb)
    ∧ Forall2 movedDown s s'
    ∧ ∀ i d, s !! i = Some d → truthy (inheritedCategory d) = false →
             s' !! i = Some d.
Proof.
  intros Htall Hplain.
  destruct (aggregate_separated s Htall Hplain)
    as (cd & s' & cb & Hcd & Hagg & _).
  exists s', cb. split; [done|].
  split; [by eapply aggregate_movedDown|].
  destruct (aggregate_Some _ _ _ Hagg) as (cd' & s1 & cb1 & Hcd' & HL & HR).
  assert (cd' = cd) as -> by congruence.
  destruct (processSide_Some _ _ _ _ _ HL) as (stL & HsL & -> & ->).
  destruct (processSide_Some _ _ _ _ _ HR) as (stR & HsR & -> & ->).
  intros i d Hd Hcat.
  assert (∀ c, c ∈ cd → i ∉ catNodes c) as Hout.
  { intros c Hc Hi.
    destruct (categoryData_member s cd c i Hcd Hc Hi)
      as (d' & Hd' & Hc' & Hne).
    rewrite Hd in Hd'. injection Hd' as <-.
    rewrite Hc' in Hcat. apply truthy_Some_ne in Hne. congruence. }
  assert (nodes stR !! i = nodes stL !! i) as ER.
  { apply (sweepFrom_untouched _ _ _ _ _ i HsR).
    intros c Hc. apply Hout, bucket_in_cd. by right. }
  assert (nodes stL !! i = s !! i) as EL.
  { apply (sweepFrom_untouched _ _ _ _ _ i HsL).
    intros c Hc. apply Hout, bucket_in_cd. by left. }
  by rewrite ER, EL.
Qed.

Lemma aggregation_only_moves_nodes_down_witness :
  ∃ s' cb,
    aggregate (laidOut defaultConfig twoCategories) = Some (s', cb)
    ∧ Forall2 movedDown (laidOut defaultConfig twoCategories) s'.
Proof.
  destruct (aggregation_only_moves_nodes_down
              (laidOut defaultConfig twoCategories)
              (laidOut_tall defaultConfig twoCategories ltac:(discriminate))
              (laidOut_plain defaultConfig twoCategories twoCategories_plain))
    as (s' & cb & Hagg & Hdown & _).
  exists s', cb. split; [exact Hagg|exact Hdown].
Defined.

Lemma nodesAt_other offset refs' refs (s : Store) :
  (∀ i, i ∈ refs → i ∉ refs') →
  nodesAt (shiftNodes offset refs' s) refs = nodesAt s refs.
Proof.
  intros Hdis. unfold nodesAt.
  induction refs as [|i refs IH]; [done|].
  cbn [mapM].
  rewrite IH by (intros j Hj; apply Hdis; by right).
  replace (shiftNodes offset refs' s !! i) with (s !! i); [done|].
  symmetry. apply (alterAll_other (λ _ : nat, shiftY offset) id).
  intros a Ha. simpl. intros ->. by apply (Hdis i); [left|].
Qed.

Lemma sweepStep_bounded_self cats st k c st' :
  sweepStep cats st k c = Some st' →
  bounded (nodes st') (categoryBounds st') c.
Proof.
  intros Hstep.
  destruct (sweepStep_effect _ _ _ _ _ Hstep)
    as (offset & ns' & r & _ & _ & _ & Hns & Hb & ->).
  exists ns', r. split_and!; [done..|]. apply lookup_storeBounds_eq.
Qed.

Lemma sweepStep_bounded_other cats st k c st' a :
  sweepStep cats st k c = Some st' →
  catName a ≠ catName c → (∀ i, i ∈ catNodes a → i ∉ catNodes c) →
  bounded (nodes st) (categoryBounds st) a →
  bounded (nodes st') (categoryBounds st') a.
Proof.
  intros Hstep Hname Hdis (ns & r & Hns & Hb & Hl).
  destruct (sweepStep_effect _ _ _ _ _ Hstep)
    as (offset & ns' & r' & _ & _ & Hnodes & _ & _ & ->).
  exists ns, r. split_and!; [|done|].
  - destruct Hnodes as [->| ->]; [done|]. by rewrite nodesAt_other.
  - rewrite lookup_storeBounds_ne; [done|]. by intros E.
Qed.

Lemma sweepFrom_bounded cats todo k st st' :
  sweepFrom cats k todo st = Some st' →
  NoDup (map catName todo) →
  (∀ a b, a ∈ todo → b ∈ todo → catName a ≠ catName b → apart a b) →
  (∀ a, bounded (nodes st) (categoryBounds st) a →
        (∀ c, c ∈ todo → apart a c) →
        bounded (nodes st') (categoryBounds st') a)
  ∧ (∀ c, c ∈ todo → bounded (nodes st') (categoryBounds st') c).
Proof.
  revert k st. induction todo as [|c todo IH]; intros k st.
  - intros [= <-] _ _. split; [done|]. by intros c Hc%elem_of_nil.
  - cbn [sweepFrom].
    destruct (sweepStep cats st k c) as [st1|] eqn:Hstep; [|done].
    cbn [mbind option_bind]. intros Hrest Hnd Hapart.
    simpl in Hnd. apply NoDup_cons in Hnd as [Hc Hnd].
    destruct (IH _ _ Hrest Hnd) as [IHout IHin].
    { intros a b Ha Hb. apply Hapart; by right. }
    split.
    + intros a Ha Hfar. apply IHout.
      * destruct (Hfar c) as [? ?]; [by left|].
        by apply (sweepStep_bounded_other cats st k c).
      * intros c' Hc'. apply Hfar. by right.
    + intros c' [->|Hc']%elem_of_cons; [|by apply IHin].
      apply IHout; [by eapply sweepStep_bounded_self|].
      intros c' Hc'. apply Hapart; [by left|by right|].
      intros E. apply Hc. rewrite E.
      exact (list_elem_of_fmap_2 catName todo c' Hc').
Qed.

(** The aggregation succeeds, stacks the rectangles of each side and
    leaves every category with the rectangle computed from its nodes as
    they stand at the end. *)
Lemma aggregate_bounded (s : Store) :
  Forall tall s → plainCategories s →
  ∃ cd s' cb,
    categoryData s = Some cd
    ∧ aggregate s = Some (s', cb)
    ∧ separated categorySpacing cb (leftCategories cd)
    ∧ separated categorySpacing cb (rightCategories cd)
    ∧ ∀ c, c ∈ cd → bounded s' cb c.
Proof.
  intros Htall Hplain.
  destruct (aggregate_separated s Htall Hplain)
    as (cd & s' & cb & Hcd & Hagg & Hnd & HsepL & HsepR).
  exists cd, s', cb. split_and!; try done.
  destruct (aggregate_Some _ _ _ Hagg) as (cd' & s1 & cb1 & Hcd' & HL & HR).
  assert (cd' = cd) as -> by congruence.
  destruct (processSide_Some _ _ _ _ _ HL) as (stL & HsL & -> & ->).
  destruct (processSide_Some _ _ _ _ _ HR) as (stR & HsR & -> & ->).
  assert (∀ a b, a ∈ cd → b ∈ cd → catName a ≠ catName b → apart a b)
    as Hapart.
  { intros a b Ha Hb Hne. split; [done|]. intros i Hia Hib.
    destruct (categoryData_member s cd a i Hcd Ha Hia)
      as (da & Hda & Hca & _).
    destruct (categoryData_member s cd b i Hcd Hb Hib)
      as (db & Hdb & Hcb & _).
    congruence. }
  destruct (bucket_good (length s) Left cd Hnd) as [HndL _].
  { apply Forall_forall. intros c Hc. by eapply categoryData_goodRefs. }
  destruct (bucket_good (length s) Right cd Hnd) as [HndR _].
  { apply Forall_forall. intros c Hc. by eapply categoryData_goodRefs. }
  destruct (sweepFrom_bounded _ _ _ _ _ HsL HndL) as [_ HinL].
  { intros a b Ha Hb. apply Hapart; apply bucket_in_cd; by left. }
  destruct (sweepFrom_bounded _ _ _ _ _ HsR HndR) as [HoutR HinR].
  { intros a b Ha Hb. apply Hapart; apply bucket_in_cd; by right. }
  intros c Hc.
  destruct (cd_in_bucket cd c Hc) as [HcL|HcR]; [|by apply HinR].
  apply HoutR; [by apply HinL|].
  intros c' Hc'. apply Hapart; [done|apply bucket_in_cd; by right|].
  by apply (buckets_disjoint cd).
Qed.

(** X12: for footprints of non-negative height and no category named
    like a property of [Object.prototype], the aggregation succeeds and
    after both sweeps the rectangle stored for a category is still the
    padded bounding rectangle of the category's nodes where they
    ended: the later shifts of other categories move neither its nodes
    nor its rectangle.  In particular every node's footprint lies
    inside its category's rectangle with the padding to spare. *)
Theorem rectangles_bound_their_nodes_after_sweeps (s : Store) :
  Forall tall s → plainCategories s →
  ∃ cd s' cb,
    categoryData s = Some cd
    ∧ aggregate s = Some (s', cb)
    ∧ ∀ c, c ∈ cd →
        ∃ ns r,
          nodesAt s' (catNodes c) = Some ns
          ∧ calculateCategoryBounds ns categoryPadding = Some r
          ∧ lookupBounds (catName c) cb = Some r
          ∧ Forall (holds categoryPadding r) ns.
Proof.
  intros Htall Hplain.
  destruct (aggregate_bounded s Htall Hplain)
    as (cd & s' & cb & Hcd & Hagg & _ & _ & Hb).
  exists cd, s', cb. split; [done|]. split; [done|].
  intros c Hc. destruct (Hb c Hc) as (ns & r & Hns & Hr & Hl).
  exists ns, r. split_and!; try done.
  by apply (bounds_hold_and_tight ns categoryPadding r).
Qed.

Lemma rectangles_bound_their_nodes_after_sweeps_witness :
  ∃ cd s' cb,
    categoryData (laidOut defaultConfig twoCategories) = Some cd
    ∧ aggregate (laidOut defaultConfig twoCategories) = Some (s', cb).
Proof.
  destruct (rectangles_bound_their_nodes_after_sweeps
              (laidOut defaultConfig twoCategories)
              (laidOut_tall defaultConfig twoCategories ltac:(discriminate))
              (laidOut_plain defaultConfig twoCategories twoCategories_plain))
    as (cd & s' & cb & Hcd & Hagg & _).
  exists cd, s', cb. split; [exact Hcd|exact Hagg].
Defined.

End SweepEffectFacts.

(** ** The initial view *)

Module ViewportFacts.
Import Js Layout Spec Render RenderNotions LayoutNotions.
Import ListFacts ExtremeFacts FitFacts.

(** The arithmetic of the centring along one axis: [v] is a coordinate
    between the extremes [lo] and [hi], [q] is [size / scale]. *)
Lemma centred_inside (size scale fit lo hi v q : Q) :
  0 < size → 0 < scale → scale <= fit * 0.9 →
  fit * (hi - lo + 100 * 2) == size → q * scale == size →
  lo <= v → v <= hi →
  0.05 * size <= (v + ((q - (hi - lo)) / 2 - lo)) * scale
  ∧ (v + ((q - (hi - lo)) / 2 - lo)) * scale <= (1 - 0.05) * size.
Proof.
  intros Hsize Hscale Hfit Hden Hq Hlo Hhi.
  assert (0 <= (v - lo) * scale) as H1 by (apply Qmult_le_0_compat; lra).
  assert (0 <= (hi - v) * scale) as H2 by (apply Qmult_le_0_compat; lra).
  assert (0 <= (hi - lo) * (fit * 0.9 - scale)) as H3
    by (apply Qmult_le_0_compat; lra).
  assert ((v + ((q - (hi - lo)) / 2 - lo)) * scale
          == (v - lo) * scale + (q * scale - (hi - lo) * scale) / 2) as ->
    by (halves; ring).
  rewrite Hq. halves. split; nra.
Qed.

Lemma div_mul (a b : Q) : ¬ b == 0 → a / b * b == a.
Proof. intros Hb. field. exact Hb. Qed.

Lemma initialTransform_applyX scale v :
  scale <= 1 → applyX (initialTransform scale) v == v * scale.
Proof.
  intros Hle. unfold initialTransform.
  destruct (Qle_bool 1 scale) eqn:E; unfold applyX; simpl.
  - apply Qle_bool_iff in E. assert (scale == 1) as Hs by lra.
    rewrite Hs. ring.
  - ring.
Qed.

Lemma initialTransform_applyY scale v :
  scale <= 1 → applyY (initialTransform scale) v == v * scale.
Proof.
  intros Hle. unfold initialTransform.
  destruct (Qle_bool 1 scale) eqn:E; unfold applyY; simpl.
  - apply Qle_bool_iff in E. assert (scale == 1) as Hs by lra.
    rewrite Hs. ring.
  - ring.
Qed.

(** What the viewport fit computes on a tree, with the facts about the
    numbers that the properties below need. *)
Lemma viewportFit_numbers (width height : Q) (root : LNode) (rest : Store) :
  0 < width → 0 < height →
  ∃ lox hix loy hiy fitX fitY scale qx qy,
    Forall (λ d, lox <= x d ∧ x d <= hix ∧ loy <= y d ∧ y d <= hiy)
           (root :: rest)
    ∧ viewportScale width height (root :: rest) = Some scale
    ∧ viewportOffsets width height (root :: rest)
      = Some ((qx - (hix - lox)) / 2 - lox, (qy - (hiy - loy)) / 2 - loy)
    ∧ 0 < scale ∧ scale <= 1
    ∧ scale <= fitX * 0.9 ∧ scale <= fitY * 0.9
    ∧ fitX * (hix - lox + 100 * 2) == width
    ∧ fitY * (hiy - loy + 100 * 2) == height
    ∧ qx * scale == width ∧ qy * scale == height.
Proof.
  intros Hw Hh.
  destruct (treeExtent_cons x root rest) as (lox & hix & Hex & Hax & Htx).
  destruct (treeExtent_cons y root rest) as (loy & hiy & Hey & Hay & Hty).
  assert (lox <= hix) as Hx by (apply Forall_inv in Hax; lra).
  assert (loy <= hiy) as Hy by (apply Forall_inv in Hay; lra).
  unfold viewportPadding in *.
  set (tw := hix - lox + 100 * 2) in *.
  set (th := hiy - loy + 100 * 2) in *.
  assert (0 < tw) as Htw by (unfold tw; lra).
  assert (0 < th) as Hth by (unfold th; lra).
  assert (0 < width / tw) as Ha by (apply Qlt_shift_div_l; lra).
  assert (0 < height / th) as Hb by (apply Qlt_shift_div_l; lra).
  set (scale := Qmin 1 (Qmin (width / tw) (height / th) * 0.9)).
  assert (0 < scale ∧ scale <= 1 ∧ scale <= width / tw * 0.9
          ∧ scale <= height / th * 0.9) as (Hs0 & Hs1 & Hsa & Hsb).
  { unfold scale. revert Ha Hb. generalize (width / tw) (height / th).
    clear. intros a b Ha Hb.
    destruct (Qmin_cases a b) as [[? ->]|[? ->]]; minmax; split_and!; lra. }
  assert (viewportScale width height (root :: rest) = Some scale) as Hscale.
  { unfold viewportScale. rewrite Htx, Hty. simpl.
    by rewrite !jsDiv_nonzero by lra. }
  exists lox, hix, loy, hiy, (width / tw), (height / th), scale,
    (width / scale), (height / scale).
  split_and!; try done.
  - rewrite Forall_forall in *. intros d Hd.
    specialize (Hax d Hd). specialize (Hay d Hd). tauto.
  - unfold viewportOffsets. rewrite Hscale. simpl. rewrite Hex, Hey. simpl.
    by rewrite !jsDiv_nonzero by lra.
  - apply div_mul. unfold tw in Htw. lra.
  - apply div_mul. unfold th in Hth. lra.
  - apply div_mul. lra.
  - apply div_mul. lra.
Qed.

(** X13: on a viewport of positive size the fit is defined and the
    initial view shows the whole tree: every node centre is drawn
    inside the viewport, at least 5% of its width away from the left
    and right edges and 5% of its height from the top and bottom. *)
Theorem initial_view_shows_every_node
    (width height : Q) (root : LNode) (rest : Store) (cb : BoundsMap) :
  0 < width → 0 < height →
  ∃ scale s' cb',
    viewportScale width height (root :: rest) = Some scale
    ∧ viewportCentering width height (root :: rest, cb) = Some (s', cb')
    ∧ length s' = length (root :: rest)
    ∧ Forall (λ d, onScreen 0.05 width height (initialTransform scale)
                            (x d) (y d)) s'.
Proof.
  intros Hw Hh.
  destruct (viewportFit_numbers width height root rest Hw Hh)
    as (lox & hix & loy & hiy & fitX & fitY & scale & qx & qy
        & Hall & Hscale & Hoff & Hs0 & Hs1 & Hsa & Hsb & Hfx & Hfy & Hqx & Hqy).
  eexists scale, _, _. split; [done|].
  unfold viewportCentering. cbn [fst snd]. rewrite Hoff. cbn [mbind option_bind fst snd].
  split; [reflexivity|]. split; [by rewrite length_map|].
  apply Forall_forall. intros d' [i Hi]%list_elem_of_lookup.
  apply lookup_map_Some in Hi as (d & Hd & ->).
  rewrite Forall_forall in Hall.
  destruct (Hall d) as (Hx1 & Hx2 & Hy1 & Hy2);
    [by eapply list_elem_of_lookup_2|].
  unfold onScreen.
  rewrite initialTransform_applyX, initialTransform_applyY by done.
  cbn [shiftXY setXY x y].
  destruct (centred_inside width scale fitX lox hix (x d) qx) as [? ?];
    try done.
  destruct (centred_inside height scale fitY loy hiy (y d) qy) as [? ?];
    try done.
Qed.

Lemma initial_view_shows_every_node_witness :
  ∃ scale s' cb',
    viewportScale 1920 1080 Examples.twoCategories = Some scale
    ∧ viewportCentering 1920 1080 (Examples.twoCategories, [])
      = Some (s', cb').
Proof.
  destruct (initial_view_shows_every_node 1920 1080
              (Examples.hnode "root" None None 0 None [1%nat; 2%nat] 0 0)
              (tail Examples.twoCategories) []
              ltac:(reflexivity) ltac:(reflexivity))
    as (scale & s' & cb' & Hscale & Hcentre & _).
  exists scale, s', cb'. split; [exact Hscale|exact Hcentre].
Defined.

End ViewportFacts.

(** ** Click on a category rectangle *)

Module ZoomFacts.
Import Js Layout Render RenderNotions ExtremeFacts FitFacts ViewportFacts.

Lemma categoryTransform_Some (width height : Q) (bounds : Bounds) :
  ¬ rectWidth bounds == 0 → ¬ rectHeight bounds == 0 →
  ∃ scaleX scaleY,
    scaleX * rectWidth bounds == width - 2 * 30
    ∧ scaleY * rectHeight bounds == height - 2 * 30
    ∧ categoryTransform width height bounds
      = Some (scaleT
                (translateT zoomIdentity
                   (width / 2
                    - (rectX bounds + rectWidth bounds / 2) * Qmin scaleX scaleY)
                   (height / 2
                    - (rectY bounds + rectHeight bounds / 2) * Qmin scaleX scaleY))
                (Qmin scaleX scaleY)).
Proof.
  intros Hw Hh.
  exists ((width - 2 * 30) / rectWidth bounds),
         ((height - 2 * 30) / rectHeight bounds).
  split; [by apply div_mul|]. split; [by apply div_mul|].
  unfold categoryTransform, zoomMargin.
  by rewrite !jsDiv_nonzero by done.
Qed.

(** X14: a click on the rectangle of a category that is not zoomed in
    gives a transform under which the rectangle is drawn centred in
    the viewport, with at least the margin of 30 on every side, and
    with exactly that margin along its limiting dimension. *)
Theorem category_zoom_centres_and_fits (width height : Q) (bounds : Bounds) :
  0 < rectWidth bounds → 0 < rectHeight bounds →
  60 < width → 60 < height →
  ∃ t,
    categoryTransform width height bounds = Some t
    ∧ 0 < zoomK t
    ∧ 30 <= applyX t (rectX bounds)
    ∧ applyX t (rectX bounds + rectWidth bounds) <= width - 30
    ∧ 30 <= applyY t (rectY bounds)
    ∧ applyY t (rectY bounds + rectHeight bounds) <= height - 30
    ∧ applyX t (rectX bounds) + applyX t (rectX bounds + rectWidth bounds)
      == width
    ∧ applyY t (rectY bounds) + applyY t (rectY bounds + rectHeight bounds)
      == height
    ∧ (applyX t (rectX bounds) == 30 ∨ applyY t (rectY bounds) == 30).
Proof.
  intros Hw Hh HW HH.
  destruct (categoryTransform_Some width height bounds)
    as (sx & sy & Hsx & Hsy & ->); [lra..|].
  eexists. split; [reflexivity|].
  unfold applyX, applyY. cbn [scaleT translateT zoomIdentity zoomK zoomX zoomY].
  revert Hw Hh Hsx Hsy.
  generalize (rectX bounds) (rectY bounds) (rectWidth bounds)
    (rectHeight bounds).
  intros bx by' bw bh Hw Hh Hsx Hsy.
  assert (0 < sx) as Hsx0.
  { destruct (Qlt_le_dec 0 sx) as [|Hn]; [done|].
    assert (sx * bw <= 0) by nra. lra. }
  assert (0 < sy) as Hsy0.
  { destruct (Qlt_le_dec 0 sy) as [|Hn]; [done|].
    assert (sy * bh <= 0) by nra. lra. }
  halves.
  destruct (Qmin_cases sx sy) as [[Hle ->]|[Hlt ->]].
  - assert (sx * bh <= sy * bh) by nra.
    split_and!; nra.
  - assert (sy * bw <= sx * bw) by nra.
    split_and!; nra.
Qed.

Lemma category_zoom_centres_and_fits_witness :
  ∃ t, categoryTransform 1920 1080 (mkBounds 100 200 800 600) = Some t
       ∧ 0 < zoomK t.
Proof.
  destruct (category_zoom_centres_and_fits 1920 1080 (mkBounds 100 200 800 600)
              ltac:(reflexivity) ltac:(reflexivity)
              ltac:(reflexivity) ltac:(reflexivity))
    as (t & Ht & Hk & _).
  exists t. split; [exact Ht|exact Hk].
Defined.

(** X15: the click handler is a toggle on the clicked category: a click
    on a rectangle that is not the zoomed one records its category, and
    a second click on the same rectangle puts the initial transform
    back and clears the record, whatever the view was before the first
    click. *)
Theorem second_click_restores_initial_view
    (width height : Q) (initial : Transform) (d : string * Bounds)
    (v v1 : View) :
  isZoomedOn v d.1 = false →
  clickCategory width height initial d v = Some v1 →
  categoryTransform width height d.2 = Some (transform v1)
  ∧ zoomedCategory v1 = Some d.1
  ∧ clickCategory width height initial d v1
    = Some {| transform := initial; zoomedCategory := None |}.
Proof.
  intros Hnot. unfold clickCategory at 1. rewrite Hnot.
  destruct (categoryTransform width height d.2) as [t|]; [|done].
  cbn [mbind option_bind]. intros [= <-]. cbn [transform zoomedCategory].
  split; [done|]. split; [done|].
  unfold clickCategory, isZoomedOn. cbn [zoomedCategory].
  by rewrite String.eqb_refl.
Qed.

Lemma second_click_restores_initial_view_witness :
  clickCategory 1920 1080 (initialTransform 0.5)
    ("A", mkBounds 100 200 800 600)
    {| transform :=
         scaleT (translateT zoomIdentity
                   (1920 / 2 - (100 + 800 / 2) * Qmin (1860 / 800) (1020 / 600))
                   (1080 / 2 - (200 + 600 / 2) * Qmin (1860 / 800) (1020 / 600)))
                (Qmin (1860 / 800) (1020 / 600));
       zoomedCategory := Some "A" |}
  = Some {| transform := initialTransform 0.5; zoomedCategory := None |}.
Proof.
  apply (second_click_restores_initial_view 1920 1080 (initialTransform 0.5)
           ("A", mkBounds 100 200 800 600)
           {| transform := initialTransform 0.5; zoomedCategory := None |});
    reflexivity.
Defined.

End ZoomFacts.

(** ** Colours *)

Module ColourFacts.
Import Js JsObject Layout Render RenderNotions.

Lemma ownProperty_value table key v :
  ownProperty table key = Some v → v ∈ map snd table.
Proof.
  induction table as [|[k w] table IH]; [done|]. simpl.
  destruct (String.eqb k key).
  - intros [= ->]. by left.
  - intros H. right. by apply IH.
Qed.

(** A key that is not on the prototype reads the table's colour or,
    failing that, the fallback. *)
Lemma orProperty_default table key (fallback : string) :
  key ∉ objectPrototypeKeys →
  Forall (λ v, v ≠ EmptyString) (map snd table) →
  orProperty (getProperty table key) (Own fallback)
  = Own (default fallback (ownProperty table key)).
Proof.
  intros Hkey Hne. unfold getProperty.
  destruct (ownProperty table key) as [v|] eqn:E.
  - simpl. rewrite Forall_forall in Hne.
    specialize (Hne v (ownProperty_value _ _ _ E)).
    by destruct (String.eqb_spec v "").
  - by rewrite bool_decide_eq_false_2.
Qed.

Lemma statusColors_values :
  Forall (λ v, v ≠ EmptyString ∧ v ∈ palette ∧ v ≠ BLUE)
         (map snd statusColors).
Proof.
  unfold statusColors. cbn [map snd].
  repeat (apply Forall_cons; split;
          [split_and!; [discriminate| |discriminate];
           apply (bool_decide_unpack _); by vm_compute|]).
  apply Forall_nil_2.
Qed.

Lemma visibilityColors_values :
  Forall (λ v, v ≠ EmptyString ∧ (v = BLUE ∨ v = GREY))
         (map snd visibilityColors).
Proof.
  apply Forall_cons. split; [split; [discriminate|by left]|].
  apply Forall_cons. split; [split; [discriminate|by right]|].
  apply Forall_nil_2.
Qed.

Lemma GREY_in_palette : GREY ∈ palette.
Proof. apply (bool_decide_unpack _). by vm_compute. Qed.

Lemma BLUE_in_palette : BLUE ∈ palette.
Proof. apply (bool_decide_unpack _). by vm_compute. Qed.

(** X16: the fill of a node is a colour of the palette: the colour the
    table has for the deciding field in lower case (the status, or the
    inherited or own visibility in the mode ["visibility"]), and grey
    when the field is missing or empty or not a key of the table; it
    is blue or grey in the mode ["visibility"] and never blue in any
    other mode.  The one exception is excluded by the hypothesis: a
    value that in lower case names a property of [Object.prototype]
    reads that property instead of a colour. *)
Theorem node_colour_is_from_palette (colorMode : string) (d : LNode) :
  (∀ v, colourKey colorMode d = Some v →
        toLowerCase v ∉ objectPrototypeKeys) →
  ∃ c, nodeColor colorMode d = Own c
       ∧ c ∈ palette
       ∧ (truthy (colourKey colorMode d) = false → c = GREY)
       ∧ (∀ v, colourKey colorMode d = Some v → v ≠ EmptyString →
               c = default GREY (ownProperty (colourTable colorMode)
                                             (toLowerCase v)))
       ∧ (colorMode = "visibility" → c = BLUE ∨ c = GREY)
       ∧ (colorMode ≠ "visibility" → c ≠ BLUE).
Proof.
  unfold colourKey, nodeColor, colourTable.
  destruct (String.eqb_spec colorMode "visibility") as [->|Hmode].
  - intros Hkey.
    destruct (or (inheritedVisibility d) (Normalizer.visibility (data d)))
      as [v|].
    + destruct (truthy (Some v)) eqn:Ht.
      * change (getProperty visibilityColors "internal") with (Own GREY).
        rewrite orProperty_default; [|by apply Hkey|].
        2:{ eapply Forall_impl; [apply visibilityColors_values|].
            by intros ? [? _]. }
        eexists. split; [reflexivity|].
        assert (default GREY (ownProperty visibilityColors (toLowerCase v))
                = BLUE
                ∨ default GREY (ownProperty visibilityColors (toLowerCase v))
                  = GREY) as Hbg.
        { destruct (ownProperty visibilityColors (toLowerCase v)) as [c|] eqn:E;
            [|by right].
          pose proof visibilityColors_values as Hall.
          rewrite Forall_forall in Hall.
          by destruct (Hall c (ownProperty_value _ _ _ E)). }
        split_and!; [|done|by intros ? [= <-] _|done|done].
        destruct Hbg as [-> | ->];
          [apply BLUE_in_palette|apply GREY_in_palette].
      * exists GREY. split; [reflexivity|].
        split_and!; [apply GREY_in_palette|done| |by right|done].
        intros ? [= <-] Hne. apply PartitionFacts.truthy_Some_ne in Hne.
        congruence.
    + exists GREY. split; [reflexivity|].
      split_and!; [apply GREY_in_palette|done|done|by right|done].
  - intros Hkey.
    destruct (Normalizer.status (data d)) as [v|].
    + destruct (truthy (Some v)) eqn:Ht.
      * change (getProperty statusColors "default") with (Own GREY).
        rewrite orProperty_default; [|by apply Hkey|].
        2:{ eapply Forall_impl; [apply statusColors_values|].
            by intros ? [? _]. }
        eexists. split; [reflexivity|].
        assert (default GREY (ownProperty statusColors (toLowerCase v))
                ∈ palette
                ∧ default GREY (ownProperty statusColors (toLowerCase v))
                  ≠ BLUE) as [Hp Hb].
        { destruct (ownProperty statusColors (toLowerCase v)) as [c|] eqn:E;
            [|split; [apply GREY_in_palette|done]].
          pose proof statusColors_values as Hall.
          rewrite Forall_forall in Hall.
          by destruct (Hall c (ownProperty_value _ _ _ E)) as (_ & ? & ?). }
        split_and!; [done|done|by intros ? [= <-] _|done|done].
      * exists GREY. split; [reflexivity|].
        split_and!; [apply GREY_in_palette|done| |done|done].
        intros ? [= <-] Hne. apply PartitionFacts.truthy_Some_ne in Hne.
        congruence.
    + exists GREY. split; [reflexivity|].
      split_and!; [apply GREY_in_palette|done|done|done|done].
Qed.

Lemma node_colour_is_from_palette_witness :
  ∃ c, nodeColor "status" (RenderExamples.withStatus "Ready") = Own c
       ∧ c ∈ palette.
Proof.
  destruct (node_colour_is_from_palette "status"
              (RenderExamples.withStatus "Ready"))
    as (c & Hc & Hp & _).
  - intros v [= <-]. apply (bool_decide_unpack _). by vm_compute.
  - exists c. split; [exact Hc|exact Hp].
Defined.

(** Without the hypothesis the fill need not be a colour: the status
    ["Constructor"] reads [Object.prototype.constructor]. *)
Lemma status_constructor_reads_prototype (d : LNode) :
  Normalizer.status (data d) = Some "Constructor" →
  nodeColor "status" d = FromPrototype.
Proof. intros H. unfold nodeColor. cbn -[statusColors]. rewrite H. reflexivity. Qed.

Lemma toLowerCase_length s : String.length (toLowerCase s) = String.length s.
Proof. induction s as [|c s IH]; simpl; congruence. Qed.

(** X17: the colour does not depend on the case of the letters of the
    deciding field: two nodes whose fields agree in lower case get the
    same fill. *)
Theorem node_colour_ignores_case (colorMode : string) (d d' : LNode) v v' :
  colourKey colorMode d = Some v → colourKey colorMode d' = Some v' →
  toLowerCase v = toLowerCase v' →
  nodeColor colorMode d = nodeColor colorMode d'.
Proof.
  unfold colourKey, nodeColor. intros Hv Hv' Hlow.
  assert (truthy (Some v) = truthy (Some v')) as Ht.
  { pose proof (toLowerCase_length v) as L. rewrite Hlow in L.
    rewrite toLowerCase_length in L. simpl.
    destruct v, v'; simpl in L; done. }
  destruct (String.eqb colorMode "visibility");
    rewrite Hv, Hv', Ht, Hlow; reflexivity.
Qed.

Lemma node_colour_ignores_case_witness :
  nodeColor "status" (RenderExamples.withStatus "READY")
  = nodeColor "status" (RenderExamples.withStatus "ready").
Proof.
  apply (node_colour_ignores_case "status"
           (RenderExamples.withStatus "READY")
           (RenderExamples.withStatus "ready") "READY" "ready");
    reflexivity.
Defined.

End ColourFacts.

(** ** Hidden leaves *)

Module HiddenLeavesFacts.
Import Js Layout Render RenderNotions ListFacts.

Lemma descendants_elem (s : Store) i : i ∈ descendants s ↔ (i < length s)%nat.
Proof. unfold descendants. rewrite elem_of_seq. lia. Qed.

Lemma links_elem (s : Store) p i :
  (p, i) ∈ links s ↔ ∃ d, s !! i = Some d ∧ parent d = Some p.
Proof.
  unfold links. rewrite list_elem_of_omap. split.
  - intros (j & _ & Hj).
    destruct (s !! j) as [d|] eqn:Hd; [|done]. cbn [mbind option_bind] in Hj.
    destruct (parent d) as [q|] eqn:Hq; [|done]. cbn [mbind option_bind] in Hj.
    injection Hj as <- <-. by exists d.
  - intros (d & Hd & Hp). exists i. split.
    + apply descendants_elem. by eapply lookup_lt_Some.
    + rewrite Hd. cbn [mbind option_bind]. rewrite Hp. reflexivity.
Qed.

Lemma visibleNodes_elem hide (s : Store) i :
  i ∈ visibleNodes hide s
  ↔ (i < length s)%nat ∧ (hide = true → hasChildren s i = true).
Proof.
  unfold visibleNodes. destruct hide.
  - rewrite list_elem_of_filter, descendants_elem. tauto.
  - rewrite descendants_elem. split; [by intros ?|by intros [? _]].
Qed.

Lemma visibleLinks_elem hide (s : Store) p i :
  (p, i) ∈ visibleLinks hide s
  ↔ (p, i) ∈ links s ∧ (hide = true → hasChildren s i = true).
Proof.
  unfold visibleLinks. destruct hide.
  - rewrite list_elem_of_filter. cbn [snd]. tauto.
  - split; [by intros ?|by intros [? _]].
Qed.

(** X18: with or without [hideLeaves], the links drawn are exactly the
    parent links between the nodes drawn: both ends of a drawn link are
    drawn nodes, and every drawn node that has a parent has its link
    drawn.  Hiding the leaves leaves no link dangling. *)
Theorem drawn_links_join_drawn_nodes (hideLeaves : bool) (s : Store) :
  familyTies s →
  (∀ p i, (p, i) ∈ visibleLinks hideLeaves s →
          p ∈ visibleNodes hideLeaves s ∧ i ∈ visibleNodes hideLeaves s)
  ∧ (∀ i d p, i ∈ visibleNodes hideLeaves s →
              s !! i = Some d → parent d = Some p →
              (p, i) ∈ visibleLinks hideLeaves s).
Proof.
  intros Hties. split.
  - intros p i [Hl Hshown]%visibleLinks_elem.
    apply links_elem in Hl as (d & Hd & Hp).
    destruct (Hties i d p Hd Hp) as (dp & Hdp & Hin).
    split; apply visibleNodes_elem.
    + split; [by eapply lookup_lt_Some|]. intros _.
      unfold hasChildren, isLeaf. rewrite Hdp.
      destruct (children dp); [by apply elem_of_nil in Hin|done].
    + split; [by eapply lookup_lt_Some|done].
  - intros i d p [_ Hshown]%visibleNodes_elem Hd Hp.
    apply visibleLinks_elem. split; [|done].
    apply links_elem. by exists d.
Qed.

Lemma twoCategories_familyTies : familyTies Examples.twoCategories.
Proof.
  intros i d p Hd Hp.
  do 5 (destruct i as [|i];
        [injection Hd as <-; simpl in Hp;
         first [discriminate Hp
               |injection Hp as <-; eexists; split;
                [reflexivity|apply (bool_decide_unpack _); by vm_compute]]|]).
  done.
Qed.

Lemma drawn_links_join_drawn_nodes_witness :
  familyTies Examples.twoCategories
  ∧ 0%nat ∈ visibleNodes true Examples.twoCategories
  ∧ 1%nat ∈ visibleNodes true Examples.twoCategories.
Proof.
  split; [exact twoCategories_familyTies|].
  apply (proj1 (drawn_links_join_drawn_nodes true Examples.twoCategories
                  twoCategories_familyTies) 0%nat 1%nat).
  apply (bool_decide_unpack _). by vm_compute.
Defined.

End HiddenLeavesFacts.

(** ** Label lines *)

Module LabelFacts.
Import Js Layout Text Render RenderNotions ExtremeFacts SizingFacts TextFacts.

Lemma ofNat_le (a b : nat) : (a ≤ b)%nat → ofNat a <= ofNat b.
Proof. intros H. unfold ofNat. rewrite <- Zle_Qle. lia. Qed.

Lemma ofNat_S (a : nat) : ofNat (S a) == ofNat a + 1.
Proof.
  unfold ofNat. rewrite Nat2Z.inj_succ, <- Z.add_1_r, inject_Z_plus. reflexivity.
Qed.

Lemma ofNat_mirror (n i : nat) :
  (i < n)%nat → ofNat (n - 1 - i) == ofNat n - 1 - ofNat i.
Proof.
  intros H. unfold ofNat.
  replace (Z.of_nat (n - 1 - i)) with (Z.of_nat n + - (1) + - Z.of_nat i)%Z
    by lia.
  rewrite !inject_Z_plus, !inject_Z_opp. reflexivity.
Qed.

(** The arithmetic of the offsets: [n] lines are drawn in a rectangle
    sized for [N] lines. *)
Lemma dy_inside (n N i : nat) (lh pad minH : Q) :
  (1 ≤ n)%nat → (n ≤ N)%nat → (i < n)%nat → 0 <= lh →
  - (Qmax minH (ofNat N * lh + pad * 2) / 2) + pad + lh / 2
    <= (- (ofNat n - 1) * lh) / 2 + ofNat i * lh
  ∧ (- (ofNat n - 1) * lh) / 2 + ofNat i * lh
    <= Qmax minH (ofNat N * lh + pad * 2) / 2 - pad - lh / 2
  ∧ ((- (ofNat n - 1) * lh) / 2 + ofNat i * lh)
    + ((- (ofNat n - 1) * lh) / 2 + ofNat (n - 1 - i) * lh) == 0.
Proof.
  intros H1 HN Hi Hlh.
  pose proof (ofNat_le 0 i ltac:(lia)) as Hi0.
  pose proof (ofNat_le (S i) n ltac:(lia)) as Hin. rewrite ofNat_S in Hin.
  pose proof (ofNat_le n N HN) as HnN.
  pose proof (Q.le_max_r minH (ofNat N * lh + pad * 2)) as Hmax.
  rewrite (ofNat_mirror n i Hi).
  change (ofNat 0) with 0 in Hi0.
  revert Hi0 Hin HnN Hmax.
  generalize (Qmax minH (ofNat N * lh + pad * 2)) (ofNat n) (ofNat N) (ofNat i).
  intros h qn qN qi Hi0 Hin HnN Hmax.
  assert (0 <= qi * lh) by (apply Qmult_le_0_compat; lra).
  assert (0 <= (qn - 1 - qi) * lh) by (apply Qmult_le_0_compat; lra).
  assert (0 <= (qN - qn) * lh) by (apply Qmult_le_0_compat; lra).
  halves. split_and!; [nra|nra|ring].
Qed.

Lemma wrapText_length_pos text maxWidth : (1 ≤ length (wrapText text maxWidth))%nat.
Proof.
  unfold wrapText. destruct (split text) as [|w0 ws]; [simpl; lia|].
  pose proof (wrapLoop_length maxWidth ws [] w0) as H. simpl in H. lia.
Qed.

(** X19: the label of a leaf never leaves its rectangle vertically,
    whatever the measured length of the name: the rectangle was sized
    by the sizing pass for the lines of [wrapText], and the lines drawn
    are those lines or the single unwrapped name.  Each line's offset,
    widened by half a line height and the padding, stays within half
    the node height on both sides, and the offsets are symmetric about
    the centre of the node. *)
Theorem leaf_label_stays_inside_rectangle
    (settings : Settings) (d0 : LNode) (textLength : Q) (i : nat) :
  0 <= textScale settings → isLeaf d0 = true →
  (i < length (labelLines textLength (sizeNode settings d0)))%nat →
  - (nodeHeight (sizeNode settings d0) / 2)
    + 20 * depthScale (sizeNode settings d0)
    + lineHeight settings (sizeNode settings d0) / 2
    <= lineDy settings (sizeNode settings d0)
         (labelLines textLength (sizeNode settings d0)) i
  ∧ lineDy settings (sizeNode settings d0)
      (labelLines textLength (sizeNode settings d0)) i
    <= nodeHeight (sizeNode settings d0) / 2
       - 20 * depthScale (sizeNode settings d0)
       - lineHeight settings (sizeNode settings d0) / 2
  ∧ lineDy settings (sizeNode settings d0)
      (labelLines textLength (sizeNode settings d0)) i
    + lineDy settings (sizeNode settings d0)
        (labelLines textLength (sizeNode settings d0))
        (length (labelLines textLength (sizeNode settings d0)) - 1 - i)
    == 0.
Proof.
  intros Hts Hleaf.
  unfold lineDy, lineHeight, labelLines, sizeNode. rewrite Hleaf.
  cbn [nodeHeight nodeWidth depthScale setSize data].
  pose proof (pow085_pos (depth d0)) as Hds. fold (depthScaleOf d0) in Hds.
  set (mw := LEAF_WIDTH * nodeScale settings * depthScaleOf d0
             - 20 * depthScaleOf d0 * 2).
  pose proof (wrapText_length_pos (Normalizer.name (data d0)) mw) as Hpos.
  assert (0 <= TEXT_LINE_HEIGHT * textScale settings * depthScaleOf d0) as Hlh.
  { unfold TEXT_LINE_HEIGHT. apply Qmult_le_0_compat; [|lra].
    apply Qmult_le_0_compat; lra. }
  destruct (negb (Qle_bool textLength mw)); intros Hi.
  - by apply dy_inside.
  - by apply dy_inside.
Qed.

Lemma leaf_label_stays_inside_rectangle_witness :
  lineDy defaultConfig (sizeNode defaultConfig (RenderExamples.withStatus "x"))
    (labelLines 1000 (sizeNode defaultConfig (RenderExamples.withStatus "x")))
    0
  <= nodeHeight (sizeNode defaultConfig (RenderExamples.withStatus "x")) / 2
     - 20 * depthScale (sizeNode defaultConfig (RenderExamples.withStatus "x"))
     - lineHeight defaultConfig
         (sizeNode defaultConfig (RenderExamples.withStatus "x")) / 2.
Proof.
  apply (leaf_label_stays_inside_rectangle defaultConfig
           (RenderExamples.withStatus "x") 1000 0).
  - discriminate.
  - reflexivity.
  - vm_compute. lia.
Defined.

End LabelFacts.

(** ** The picture as drawn *)

Module DrawnFacts.
Import Js Layout Spec Render RenderNotions LayoutNotions Examples.
Import ListFacts ExtremeFacts FitFacts ClusterFacts GroupFacts SweepFacts.
Import AggregateFacts.
Import GridFacts PartitionFacts SweepEffectFacts ViewportFacts.

Lemma movedFrom_fields d d' :
  movedFrom d d' →
  nodeWidth d' = nodeWidth d ∧ nodeHeight d' = nodeHeight d.
Proof.
  unfold movedFrom. intros H.
  split; [apply (f_equal nodeWidth) in H|apply (f_equal nodeHeight) in H];
    exact H.
Qed.

Lemma movedFrom_trans d d' d'' :
  movedFrom d d' → movedFrom d' d'' → movedFrom d d''.
Proof.
  unfold movedFrom. destruct d, d', d''. unfold setXY. cbn.
  intros H1 H2. injection H1 as ???????????. injection H2 as ???????????.
  by subst.
Qed.

Lemma nodeMovedBy_trans dx dy dx' dy' d d' d'' :
  nodeMovedBy dx dy d d' → nodeMovedBy dx' dy' d' d'' →
  nodeMovedBy (dx + dx') (dy + dy') d d''.
Proof.
  intros (H1 & Hx1 & Hy1) (H2 & Hx2 & Hy2).
  split; [by eapply movedFrom_trans|]. rewrite Hx2, Hx1, Hy2, Hy1.
  split; ring.
Qed.

Lemma rectMovedBy_trans dx dy dx' dy' r r' r'' :
  rectMovedBy dx dy r r' → rectMovedBy dx' dy' r' r'' →
  rectMovedBy (dx + dx') (dy + dy') r r''.
Proof.
  intros (Hx1 & Hy1 & Hw1 & Hh1) (Hx2 & Hy2 & Hw2 & Hh2).
  unfold rectMovedBy. rewrite Hx2, Hx1, Hy2, Hy1, Hw2, Hw1, Hh2, Hh1.
  split_and!; ring.
Qed.

Lemma map_nodeMovedBy (f : LNode → LNode) dx dy (s : Store) :
  (∀ d, nodeMovedBy dx dy d (f d)) → Forall2 (nodeMovedBy dx dy) s (map f s).
Proof.
  intros Hf. apply Forall2_same_length_lookup. split; [by rewrite length_map|].
  intros i d d' Hd Hd'. apply lookup_map_Some in Hd' as (d0 & Hd0 & ->).
  rewrite Hd in Hd0. injection Hd0 as <-. apply Hf.
Qed.

Lemma map_rectsMovedBy (f : Bounds → Bounds) dx dy (cb : BoundsMap) :
  (∀ r, rectMovedBy dx dy r (f r)) →
  rectsMovedBy dx dy cb (map (λ kb, (kb.1, f kb.2)) cb).
Proof.
  intros Hf. apply Forall2_same_length_lookup. split; [by rewrite length_map|].
  intros i kb kb' Hkb Hkb'. apply lookup_map_Some in Hkb' as (kb0 & Hkb0 & ->).
  rewrite Hkb in Hkb0. injection Hkb0 as <-. split; [done|apply Hf].
Qed.

Lemma shiftXY_moved dx dy d : nodeMovedBy dx dy d (shiftXY dx dy d).
Proof.
  split; [by destruct d|]. cbn [shiftXY setXY x y]. split; reflexivity.
Qed.

Lemma shiftY_moved dy d : nodeMovedBy 0 dy d (shiftY dy d).
Proof.
  split; [by destruct d|]. cbn [shiftY setXY x y]. split; [ring|reflexivity].
Qed.

(** Root centring moves the whole picture up or down. *)
Lemma rootCentering_moves (sc : Store * BoundsMap) :
  ∃ dy, Forall2 (nodeMovedBy 0 dy) sc.1 (rootCentering sc).1
        ∧ rectsMovedBy 0 dy sc.2 (rootCentering sc).2.
Proof.
  assert (∃ dy, Forall2 (nodeMovedBy 0 dy) sc.1 sc.1
                ∧ rectsMovedBy 0 dy sc.2 sc.2) as Hsame.
  { exists 0. split.
    - apply Forall2_same_length_lookup. split; [done|].
      intros i d d' Hd Hd'. rewrite Hd in Hd'. injection Hd' as <-.
      split; [apply movedFrom_refl|split; ring].
    - apply Forall2_same_length_lookup. split; [done|].
      intros i d d' Hd Hd'. rewrite Hd in Hd'. injection Hd' as <-.
      split; [done|]. unfold rectMovedBy. split_and!; ring. }
  unfold rootCentering.
  destruct (0 <? length sc.2)%nat; [|done].
  destruct (sc.1 !! 0%nat) as [root|]; [|done].
  destruct (categoriesVerticalCenter sc.2) as [center|]; [|done].
  exists (center - y root). cbn [fst snd]. split.
  - apply map_nodeMovedBy. apply shiftY_moved.
  - apply map_rectsMovedBy. intros r. unfold rectMovedBy.
    cbn [shiftRectY rectX rectY rectWidth rectHeight]. split_and!; ring.
Qed.

(** Viewport centring moves the whole picture. *)
Lemma viewportCentering_moves width height (sc sc' : Store * BoundsMap) :
  viewportCentering width height sc = Some sc' →
  ∃ dx dy, Forall2 (nodeMovedBy dx dy) sc.1 sc'.1
           ∧ rectsMovedBy dx dy sc.2 sc'.2.
Proof.
  unfold viewportCentering.
  destruct (viewportOffsets width height sc.1) as [[dx dy]|]; [|done].
  cbn [mbind option_bind fst snd]. intros [= <-]. exists dx, dy.
  cbn [fst snd]. split.
  - apply map_nodeMovedBy. apply shiftXY_moved.
  - apply map_rectsMovedBy. intros r. unfold rectMovedBy.
    cbn [shiftRectXY rectX rectY rectWidth rectHeight]. split_and!; ring.
Qed.

Lemma lookupBounds_moved dx dy (cb cb' : BoundsMap) k r :
  rectsMovedBy dx dy cb cb' → lookupBounds k cb = Some r →
  ∃ r', lookupBounds k cb' = Some r' ∧ rectMovedBy dx dy r r'.
Proof.
  induction 1 as [|[k1 r1] [k2 r2] cb cb' [Hk Hr] _ IH]; [done|].
  cbn [fst snd] in Hk, Hr. subst k2. cbn [lookupBounds].
  destruct (String.eqb k1 k).
  - intros [= <-]. by exists r2.
  - exact IH.
Qed.

Lemma nodesAt_moved (R : LNode → LNode → Prop) (s s' : Store) refs ns :
  Forall2 R s s' → nodesAt s refs = Some ns →
  ∃ ns', nodesAt s' refs = Some ns' ∧ Forall2 R ns ns'.
Proof.
  intros Hss. unfold nodesAt. revert ns.
  induction refs as [|i refs IH]; intros ns.
  - intros [= <-]. by exists [].
  - cbn [mapM]. destruct (s !! i) as [d|] eqn:Hd; [|done].
    cbn [mbind option_bind].
    destruct (mapM (s !!.) refs) as [rest|]; [|done].
    cbn [mbind option_bind mret option_ret]. intros [= <-].
    destruct (IH rest eq_refl) as (rest' & -> & Hrest).
    destruct (Forall2_lookup_l _ _ _ _ _ Hss Hd) as (d' & -> & Hdd').
    cbn [mbind option_bind mret option_ret].
    exists (d' :: rest'). split; [done|by constructor].
Qed.

Lemma holds_moved padding dx dy r r' d d' :
  nodeMovedBy dx dy d d' → rectMovedBy dx dy r r' →
  holds padding r d → holds padding r' d'.
Proof.
  intros (Hfrom & Hx & Hy) (Hrx & Hry & Hrw & Hrh).
  destruct (movedFrom_fields _ _ Hfrom) as [Hw Hh].
  unfold holds. rewrite Hw, Hh, Hx, Hy, Hrx, Hry, Hrw, Hrh. intros H. lra.
Qed.

Lemma tight_moved padding dx dy r r' ns ns' :
  Forall2 (nodeMovedBy dx dy) ns ns' → rectMovedBy dx dy r r' →
  tight padding r ns → tight padding r' ns'.
Proof.
  intros Hns (Hrx & Hry & Hrw & Hrh) (H1 & H2 & H3 & H4).
  assert (∀ d, d ∈ ns →
            ∃ d', d' ∈ ns' ∧ x d' == x d + dx ∧ y d' == y d + dy
                  ∧ nodeWidth d' = nodeWidth d
                  ∧ nodeHeight d' = nodeHeight d) as Hpick.
  { intros d [i Hi]%list_elem_of_lookup.
    destruct (Forall2_lookup_l _ _ _ _ _ Hns Hi) as (d' & Hd' & Hf & Hx & Hy).
    destruct (movedFrom_fields _ _ Hf) as [? ?].
    exists d'. split_and!; try done. by eapply list_elem_of_lookup_2. }
  unfold tight. split_and!.
  - destruct H1 as (d & Hd & He).
    destruct (Hpick d Hd) as (d' & Hd' & Hx & Hy & Hw & Hh).
    exists d'. split; [done|]. rewrite Hw, Hx, Hrx. lra.
  - destruct H2 as (d & Hd & He).
    destruct (Hpick d Hd) as (d' & Hd' & Hx & Hy & Hw & Hh).
    exists d'. split; [done|]. rewrite Hw, Hx, Hrx, Hrw. lra.
  - destruct H3 as (d & Hd & He).
    destruct (Hpick d Hd) as (d' & Hd' & Hx & Hy & Hw & Hh).
    exists d'. split; [done|]. rewrite Hh, Hy, Hry. lra.
  - destruct H4 as (d & Hd & He).
    destruct (Hpick d Hd) as (d' & Hd' & Hx & Hy & Hw & Hh).
    exists d'. split; [done|]. rewrite Hh, Hy, Hry, Hrh. lra.
Qed.

Lemma separated_moved gap dx dy (cb cb' : BoundsMap) bucket :
  rectsMovedBy dx dy cb cb' →
  separated gap cb bucket → separated gap cb' bucket.
Proof.
  intros Hcb Hsep i j a b Hij Ha Hb.
  destruct (Hsep i j a b Hij Ha Hb) as (ra & rb & Hra & Hrb & Hle).
  destruct (lookupBounds_moved dx dy cb cb' _ _ Hcb Hra)
    as (ra' & Hra' & Hax & Hay & Haw & Hah).
  destruct (lookupBounds_moved dx dy cb cb' _ _ Hcb Hrb)
    as (rb' & Hrb' & Hbx & Hby & Hbw & Hbh).
  exists ra', rb'. split_and!; [done..|]. rewrite Hay, Hah, Hby. lra.
Qed.

Lemma laidOut_length cfg (s : Store) : length (laidOut cfg s) = length s.
Proof.
  unfold laidOut, clusteredLayout.
  rewrite <- (Forall2_length _ _ _ (clusterPass_movedFrom cfg _)).
  rewrite invertedLayout_map. unfold inheritancePass, sizingPass.
  by rewrite !length_map.
Qed.

(** X20: the picture as it is drawn.  For every tree in which no
    category is named like a property of [Object.prototype], every
    configuration with a non-negative node scale and every viewport of
    positive size, the whole chain of passes succeeds, and in its
    result: the rectangles of one side are stacked with the category
    spacing between them, and the rectangle of every category holds the
    footprint of each of its nodes with the padding to spare and
    touches, less the padding, a node on each of its four sides.  Root
    centring and viewport centring move nodes and rectangles together. *)
Theorem drawn_rectangles_frame_their_categories
    (settings : Settings) (width height : Q) (root : LNode) (rest : Store) :
  0 <= nodeScale settings → plainInput (root :: rest) →
  0 < width → 0 < height →
  ∃ cd s' cb',
    categoryData (laidOut settings (root :: rest)) = Some cd
    ∧ drawnLayout settings width height (root :: rest) = Some (s', cb')
    ∧ length s' = length (root :: rest)
    ∧ separated categorySpacing cb' (leftCategories cd)
    ∧ separated categorySpacing cb' (rightCategories cd)
    ∧ ∀ c, c ∈ cd →
        ∃ ns r,
          nodesAt s' (catNodes c) = Some ns
          ∧ lookupBounds (catName c) cb' = Some r
          ∧ Forall (holds categoryPadding r) ns
          ∧ tight categoryPadding r ns.
Proof.
  intros Hns Hplain Hw Hh.
  destruct (aggregate_bounded (laidOut settings (root :: rest))
              (laidOut_tall settings (root :: rest) Hns)
              (laidOut_plain settings (root :: rest) Hplain))
    as (cd & s1 & cb1 & Hcd & Hagg & HsepL & HsepR & Hb).
  pose proof (aggregate_movedDown _ _ _ Hagg) as Hdown.
  apply Forall2_length in Hdown. rewrite laidOut_length in Hdown.
  destruct (rootCentering_moves (s1, cb1)) as (dy1 & Hn1 & Hr1).
  destruct (rootCentering (s1, cb1)) as [s2 cb2] eqn:Hroot.
  cbn [fst snd] in Hn1, Hr1.
  assert (length s2 = length (root :: rest)) as Hlen2
    by (apply Forall2_length in Hn1; congruence).
  destruct s2 as [|root2 rest2]; [done|].
  destruct (viewportOffsets_defined width height root2 rest2 Hw Hh)
    as [off Hoff].
  assert (∃ sc3, viewportCentering width height (root2 :: rest2, cb2)
                 = Some sc3) as [[s3 cb3] Hview].
  { unfold viewportCentering. cbn [fst snd]. rewrite Hoff. by eexists. }
  destruct (viewportCentering_moves _ _ _ _ Hview) as (dx & dy2 & Hn2 & Hr2).
  cbn [fst snd] in Hn2, Hr2.
  assert (Forall2 (nodeMovedBy (0 + dx) (dy1 + dy2)) s1 s3) as Hn.
  { eapply Forall2_trans; [|exact Hn1|exact Hn2].
    intros ???. apply nodeMovedBy_trans. }
  assert (rectsMovedBy (0 + dx) (dy1 + dy2) cb1 cb3) as Hr.
  { eapply Forall2_trans; [|exact Hr1|exact Hr2].
    intros [k1 r1] [k2 r2] [k3 r3] [E1 M1] [E2 M2]. cbn [fst snd] in *.
    split; [congruence|by eapply rectMovedBy_trans]. }
  exists cd, s3, cb3. split; [done|]. split.
  { unfold drawnLayout, layoutPipeline. fold (laidOut settings (root :: rest)).
    rewrite Hagg. cbn [fmap option_fmap option_map mbind option_bind].
    by rewrite Hroot. }
  split. { apply Forall2_length in Hn2. congruence. }
  split; [by eapply separated_moved|]. split; [by eapply separated_moved|].
  intros c Hc. destruct (Hb c Hc) as (ns & r & Hnodes & Hcalc & Hlook).
  destruct (nodesAt_moved _ _ _ _ _ Hn Hnodes) as (ns' & Hns' & Hmoved).
  destruct (lookupBounds_moved _ _ _ _ _ _ Hr Hlook) as (r' & Hr' & Hrm).
  destruct (bounds_hold_and_tight ns categoryPadding r Hcalc) as [Hholds Htight].
  exists ns', r'. split_and!; [done|done| |by eapply tight_moved].
  apply Forall_forall. intros d' [i Hi]%list_elem_of_lookup.
  destruct (Forall2_lookup_r _ _ _ _ _ Hmoved Hi) as (d & Hd & Hdd').
  eapply holds_moved; [exact Hdd'|exact Hrm|].
  rewrite Forall_forall in Hholds. apply Hholds.
  by eapply list_elem_of_lookup_2.
Qed.

Lemma drawn_rectangles_frame_their_categories_witness :
  ∃ cd s' cb',
    categoryData (laidOut defaultConfig twoCategories) = Some cd
    ∧ drawnLayout defaultConfig 1920 1080 twoCategories = Some (s', cb').
Proof.
  destruct (drawn_rectangles_frame_their_categories defaultConfig 1920 1080
              (hnode "root" None None 0 None [1%nat; 2%nat] 0 0)
              (tail twoCategories)
              ltac:(discriminate) twoCategories_plain
              ltac:(reflexivity) ltac:(reflexivity))
    as (cd & s' & cb' & Hcd & Hdrawn & _).
  exists cd, s', cb'. split; [exact Hcd|exact Hdrawn].
Defined.

End DrawnFacts.
